(** * The LLM JSON recovery engine of [src/utils/jsonParser.ts]

    A shallow embedding of [parseLLMJson] and of the helpers it closes over
    ([fixCommonJsonIssues], [extractJson], [findJsonBoundaries],
    [tryParseJson], [unwrapResponse]), together with the two host facilities
    the code relies on: ECMAScript regular expressions (a backtracking
    matcher) and [JSON.parse] (a lexer and a parser for the JSON grammar).

    Two callers are embedded as well: the block of the route
    [POST /api/agent] that parses the reply of the upstream service, and
    two helpers of the client utility [utils/aiAgent]. *)

From Stdlib Require Import ZArith NArith List Bool Ascii String Lia.
From Stdlib Require Import Sorted Permutation.
From stdpp Require Import base option list gmap.

Set Default Proof Using "Type".
Local Open Scope list_scope.

(** ** JavaScript strings

    A JavaScript string is a sequence of UTF-16 code units; a code unit is
    modelled as a number of type [N]. *)

Abbreviation char := N (only parsing).
Abbreviation jsstring := (list N) (only parsing).

(** [js s] is the JavaScript string whose code units are the bytes of the
    (ASCII) literal [s].  The double quote and the newline cannot be written
    inside such a literal and are given by name. *)
Definition js (s : string) : jsstring :=
  map N_of_ascii (list_ascii_of_string s).

Definition ch (s : string) : char :=
  match s with
  | String a _ => N_of_ascii a
  | EmptyString => 0%N
  end.

Definition c_quote : char := 34%N.      (* the double quote *)
Definition c_nl : char := 10%N.         (* \n *)
Definition c_bom : char := 65279%N.     (* U+FEFF *)
Definition c_ellipsis : char := 8230%N. (* U+2026 *)

Definition dq : jsstring := [c_quote].
Definition nl : jsstring := [c_nl].

Definition in_range (lo hi c : char) : bool := (lo <=? c)%N && (c <=? hi)%N.

(** ECMAScript [LineTerminator]: LF, CR, LS, PS. *)
Definition is_line_terminator (c : char) : bool :=
  (c =? 10)%N || (c =? 13)%N || (c =? 8232)%N || (c =? 8233)%N.

(** ECMAScript [WhiteSpace] and [LineTerminator], the set used by [\s] and
    by [String.prototype.trim]. *)
Definition is_space (c : char) : bool :=
  in_range 9 13 c || (c =? 32)%N || (c =? 160)%N || (c =? 5760)%N ||
  in_range 8192 8202 c || (c =? 8232)%N || (c =? 8233)%N || (c =? 8239)%N ||
  (c =? 8287)%N || (c =? 12288)%N || (c =? 65279)%N.

Definition is_digit (c : char) : bool := in_range 48 57 c.
Definition is_upper (c : char) : bool := in_range 65 90 c.
Definition is_lower (c : char) : bool := in_range 97 122 c.

(** [\w] without the unicode flag: ASCII letters, digits and underscore. *)
Definition is_word (c : char) : bool :=
  is_digit c || is_upper c || is_lower c || (c =? 95)%N.

(** [String.prototype.trim]. *)
Fixpoint trimStart (s : jsstring) : jsstring :=
  match s with
  | c :: rest => if is_space c then trimStart rest else s
  | [] => []
  end.

Definition trimEnd (s : jsstring) : jsstring := rev (trimStart (rev s)).
Definition trim (s : jsstring) : jsstring := trimEnd (trimStart s).

Fixpoint startsWith (s p : jsstring) : bool :=
  match p, s with
  | [], _ => true
  | a :: p', b :: s' => (a =? b)%N && startsWith s' p'
  | _ :: _, [] => false
  end.

(** [text.substring(a, b)] and [text.substring(a)] for indices inside the
    text. *)
Definition substring (s : jsstring) (a b : nat) : jsstring := take (b - a) (drop a s).
Definition substring_from (s : jsstring) (a : nat) : jsstring := drop a s.

(** ** Regular expressions

    The regular-expression literals of the source are kept as syntax trees
    and run by a backtracking matcher with the ECMAScript priorities: the
    left alternative first, a greedy star the longest iteration count first,
    a lazy star the shortest first, and the leftmost starting position.

    The matcher gives the meaning of the patterns.  The resource limits of
    an engine are not part of it: a match that exhausts the backtrack stack
    of the engine, on a text of millions of characters, throws a RangeError
    in JavaScript and completes here. *)
Module Regex.

Inductive citem : Type :=
| CChar (c : char)            (* a single character *)
| CRange (lo hi : char)       (* lo-hi *)
| CSpace                      (* \s *)
| CNotSpace                   (* \S *)
| CWord.                      (* \w *)

Inductive regex : Type :=
| Empty
| Chr (c : char)                          (* a literal character *)
| Class (negated : bool) (items : list citem)  (* [...] and [^...] *)
| Dot                                     (* . *)
| Seq (r1 r2 : regex)
| Alt (r1 r2 : regex)                     (* r1|r2 *)
| Star (greedy : bool) (r : regex)        (* r* and r*? *)
| Group (n : nat) (r : regex)             (* the n-th capturing group *)
| Bol                                     (* ^ *)
| Eol                                     (* $ *)
| WordB.                                  (* \b *)

Record flags := Flags { ignoreCase : bool; multiline : bool }.

Definition no_flags := Flags false false.
Definition flag_m := Flags false true.
Definition flag_i := Flags true false.

(** Derived forms. *)
Definition Plus (r : regex) : regex := Seq r (Star true r).
Definition Opt (r : regex) : regex := Alt r Empty.
Definition cat (rs : list regex) : regex := fold_right Seq Empty rs.
Definition lit (s : jsstring) : regex := cat (map Chr s).
Definition Space : regex := Class false [CSpace].
Definition Any : regex := Class false [CSpace; CNotSpace]. (* [\s\S] *)

(** The matcher state: the text before the current position (reversed),
    the text after it, and the captures made so far (latest first). *)
Record mstate := MState {
  before : jsstring;
  after : jsstring;
  caps : list (nat * jsstring)
}.

(** Canonicalize of the specification restricted to what the patterns of
    this program need: every character of a pattern matched with the [i]
    flag is an ASCII letter, and an ASCII letter is matched exactly by its
    two ASCII forms. *)
Definition canon (c : char) : char :=
  if is_lower c then (c - 32)%N else c.

Definition char_eq (fl : flags) (a b : char) : bool :=
  if ignoreCase fl then (canon a =? canon b)%N else (a =? b)%N.

Definition citem_matches (it : citem) (c : char) : bool :=
  match it with
  | CChar x => (x =? c)%N
  | CRange lo hi => in_range lo hi c
  | CSpace => is_space c
  | CNotSpace => negb (is_space c)
  | CWord => is_word c
  end.

Definition class_matches (negated : bool) (items : list citem) (c : char) : bool :=
  xorb negated (existsb (fun it => citem_matches it c) items).

Definition step_char (p : char -> bool) (st : mstate)
    (k : mstate -> option mstate) : option mstate :=
  match after st with
  | c :: rest => if p c then k (MState (c :: before st) rest (caps st)) else None
  | [] => None
  end.

Definition at_bol (fl : flags) (st : mstate) : bool :=
  match before st with
  | [] => true
  | c :: _ => multiline fl && is_line_terminator c
  end.

Definition at_eol (fl : flags) (st : mstate) : bool :=
  match after st with
  | [] => true
  | c :: _ => multiline fl && is_line_terminator c
  end.

Definition at_word_boundary (st : mstate) : bool :=
  let a := match before st with c :: _ => is_word c | [] => false end in
  let b := match after st with c :: _ => is_word c | [] => false end in
  xorb a b.

(** The text consumed between two states of one match attempt. *)
Definition consumed (st st' : mstate) : jsstring :=
  take (length (after st) - length (after st')) (after st).

(** Iteration of a starred body.  An iteration that consumes nothing is
    rejected, as the specification of RepeatMatcher does, so the number of
    iterations is bounded by the length of the remaining text.  The
    captures made inside the body are not cleared between iterations: no
    replacement and no [match[n]] of this program reads a group that stands
    under a star. *)
Fixpoint star_loop (body : mstate -> (mstate -> option mstate) -> option mstate)
    (greedy : bool) (fuel : nat) (st : mstate)
    (k : mstate -> option mstate) : option mstate :=
  match fuel with
  | O => k st
  | S f =>
      let iter :=
        body st (fun st' =>
          if (length (after st') <? length (after st))%nat
          then star_loop body greedy f st' k else None) in
      if greedy then
        match iter with Some r => Some r | None => k st end
      else
        match k st with Some r => Some r | None => iter end
  end.

Fixpoint run (fl : flags) (r : regex) (st : mstate)
    (k : mstate -> option mstate) : option mstate :=
  match r with
  | Empty => k st
  | Chr c => step_char (char_eq fl c) st k
  | Class negated items => step_char (class_matches negated items) st k
  | Dot => step_char (fun c => negb (is_line_terminator c)) st k
  | Seq r1 r2 => run fl r1 st (fun st' => run fl r2 st' k)
  | Alt r1 r2 =>
      match run fl r1 st k with
      | Some res => Some res
      | None => run fl r2 st k
      end
  | Star greedy r' => star_loop (run fl r') greedy (S (length (after st))) st k
  | Group n r' =>
      run fl r' st (fun st' =>
        k (MState (before st') (after st') ((n, consumed st st') :: caps st')))
  | Bol => if at_bol fl st then k st else None
  | Eol => if at_eol fl st then k st else None
  | WordB => if at_word_boundary st then k st else None
  end.

(** The leftmost position at or after the current one where the pattern
    matches: the position (as the text before and after it) and the final
    state of the match. *)
Fixpoint search (fl : flags) (r : regex) (bef aft : jsstring)
    : option (jsstring * jsstring * mstate) :=
  match aft with
  | [] =>
      match run fl r (MState bef [] []) Some with
      | Some st' => Some (bef, [], st')
      | None => None
      end
  | c :: rest =>
      match run fl r (MState bef aft []) Some with
      | Some st' => Some (bef, aft, st')
      | None => search fl r (c :: bef) rest
      end
  end.

(** One match: the text skipped since the previous match (or the start),
    the matched text and the captures. *)
Record rmatch := RMatch {
  m_skipped : jsstring;
  m_text : jsstring;
  m_caps : list (nat * jsstring)
}.

Fixpoint lookup_cap (n : nat) (cs : list (nat * jsstring)) : option jsstring :=
  match cs with
  | [] => None
  | (i, s) :: rest => if (i =? n)%nat then Some s else lookup_cap n rest
  end.

(** [match[n]]: the n-th capture, [None] for [undefined]. *)
Definition group (n : nat) (mt : rmatch) : option jsstring := lookup_cap n (m_caps mt).

(** The successive matches of a global pattern, as [exec] with [lastIndex]
    and as [replace] enumerate them, and the text after the last match.
    After an empty match the search resumes one character further. *)
Fixpoint exec_from (fl : flags) (r : regex) (fuel : nat)
    (pending bef aft : jsstring) : list rmatch * jsstring :=
  match fuel with
  | O => ([], pending ++ aft)
  | S f =>
      match search fl r bef aft with
      | None => ([], pending ++ aft)
      | Some (_, aft', st') =>
          let skipped := pending ++ take (length aft - length aft') aft in
          let text := take (length aft' - length (after st')) aft' in
          let mt := RMatch skipped text (caps st') in
          match text, after st' with
          | _ :: _, _ =>
              let '(ms, tl) := exec_from fl r f [] (before st') (after st') in
              (mt :: ms, tl)
          | [], c :: rest =>
              let '(ms, tl) := exec_from fl r f [c] (c :: before st') rest in
              (mt :: ms, tl)
          | [], [] => ([mt], [])
          end
      end
  end.

Definition exec_all (fl : flags) (r : regex) (text : jsstring) : list rmatch * jsstring :=
  exec_from fl r (S (S (length text))) [] [] text.

Definition all_matches (fl : flags) (r : regex) (text : jsstring) : list rmatch :=
  fst (exec_all fl r text).

(** [text.match(r)] for a pattern without the [g] flag: the first match. *)
Definition first_match (fl : flags) (r : regex) (text : jsstring) : option rmatch :=
  match search fl r [] text with
  | None => None
  | Some (_, aft', st') =>
      Some (RMatch (take (length text - length aft') text)
                   (take (length aft' - length (after st')) aft')
                   (caps st'))
  end.

(** Replacement templates: literal text and [$n]. *)
Inductive ritem : Type :=
| RText (s : jsstring)
| RGroup (n : nat).

Definition expand (tpl : list ritem) (mt : rmatch) : jsstring :=
  concat (map (fun it =>
    match it with
    | RText s => s
    | RGroup n => default [] (group n mt)
    end) tpl).

(** [text.replace(r, tpl)] with the [g] flag. *)
Definition replace_all (fl : flags) (r : regex) (tpl : list ritem) (text : jsstring) : jsstring :=
  let '(ms, tl) := exec_all fl r text in
  concat (map (fun mt => m_skipped mt ++ expand tpl mt) ms) ++ tl.

(** [text.replace(r, tpl)] without the [g] flag: the first match only. *)
Definition replace_first (fl : flags) (r : regex) (tpl : list ritem) (text : jsstring) : jsstring :=
  match search fl r [] text with
  | None => text
  | Some (_, aft', st') =>
      let mt := RMatch (take (length text - length aft') text)
                       (take (length aft' - length (after st')) aft')
                       (caps st') in
      m_skipped mt ++ expand tpl mt ++ after st'
  end.

End Regex.


(** ** JSON values and [JSON.parse]

    A number is kept as the exact decimal [mantissa * 10^exponent] its
    literal denotes.  Of the rounding to an IEEE double the model keeps what
    the code tests, whether the number is zero ([rounds_to_zero]).  An
    object is the list of its own properties in creation order. *)
Module Json.

#[warnings="-register-all"]
Inductive json : Type :=
| JNull
| JBool (b : bool)
| JNumber (mantissa exponent : Z)
| JString (s : jsstring)
| JArray (items : list json)
| JObject (fields : list (jsstring * json)).

Definition jsstring_eqb (a b : jsstring) : bool := bool_decide (a = b).

(** [key in obj] and [obj.key] for an object built by [JSON.parse]. *)
Fixpoint obj_get (fields : list (jsstring * json)) (key : jsstring) : option json :=
  match fields with
  | [] => None
  | (k, v) :: rest => if jsstring_eqb k key then Some v else obj_get rest key
  end.

(** Defining a property: a repeated key keeps its place and takes the new
    value. *)
Fixpoint obj_set (fields : list (jsstring * json)) (key : jsstring) (v : json)
    : list (jsstring * json) :=
  match fields with
  | [] => [(key, v)]
  | (k, old) :: rest =>
      if jsstring_eqb k key then (k, v) :: rest else (k, old) :: obj_set rest key v
  end.

(** Whether the double nearest to [m * 10^e] is zero: the decimal is zero,
    or its magnitude is at most 2^-1075, half the least positive double (the
    tie rounds to zero, the neighbour with the even significand). *)
Definition rounds_to_zero (m e : Z) : bool :=
  (m =? 0)%Z || ((e <? 0)%Z && (Z.abs m * 2 ^ 1075 <=? 10 ^ (- e))%Z).

(** ToBoolean. *)
Definition truthy (v : json) : bool :=
  match v with
  | JNull => false
  | JBool b => b
  | JNumber m e => negb (rounds_to_zero m e)
  | JString s => match s with [] => false | _ :: _ => true end
  | JArray _ => true
  | JObject _ => true
  end.

(** *** Lexical grammar *)

Inductive token : Type :=
| TLBrace | TRBrace | TLBracket | TRBracket | TColon | TComma
| TStr (s : jsstring)
| TNum (mantissa exponent : Z)
| TTrue | TFalse | TNull.

(** JSON white space: tab, line feed, carriage return, space. *)
Definition is_json_ws (c : char) : bool :=
  (c =? 9)%N || (c =? 10)%N || (c =? 13)%N || (c =? 32)%N.

Definition hex_val (c : char) : option N :=
  if is_digit c then Some (c - 48)%N
  else if in_range 97 102 c then Some (c - 87)%N
  else if in_range 65 70 c then Some (c - 55)%N
  else None.

Definition hex4 (a b c d : char) : option char :=
  match hex_val a, hex_val b, hex_val c, hex_val d with
  | Some x, Some y, Some z, Some w => Some (((x * 16 + y) * 16 + z) * 16 + w)%N
  | _, _, _, _ => None
  end.

(** The character a two-character escape stands for. *)
Definition unescape (c : char) : option char :=
  if (c =? 34)%N then Some 34%N          (* escaped double quote *)
  else if (c =? 92)%N then Some 92%N     (* \\ *)
  else if (c =? 47)%N then Some 47%N     (* \/ *)
  else if (c =? 98)%N then Some 8%N      (* \b *)
  else if (c =? 102)%N then Some 12%N    (* \f *)
  else if (c =? 110)%N then Some 10%N    (* \n *)
  else if (c =? 114)%N then Some 13%N    (* \r *)
  else if (c =? 116)%N then Some 9%N     (* \t *)
  else None.

(** The rest of a string literal after its opening quote: the decoded
    string and the text after the closing quote. *)
Fixpoint lex_string (s : jsstring) (acc : jsstring) : option (jsstring * jsstring) :=
  match s with
  | [] => None
  | c :: rest =>
      if (c =? 34)%N then Some (rev acc, rest)
      else if (c =? 92)%N then
        match rest with
        | [] => None
        | e :: rest' =>
            if (e =? 117)%N then         (* \uXXXX *)
              match rest' with
              | h1 :: h2 :: h3 :: h4 :: rest'' =>
                  match hex4 h1 h2 h3 h4 with
                  | Some u => lex_string rest'' (u :: acc)
                  | None => None
                  end
              | _ => None
              end
            else
              match unescape e with
              | Some x => lex_string rest' (x :: acc)
              | None => None
              end
        end
      else if (c <? 32)%N then None
      else lex_string rest (c :: acc)
  end.

Fixpoint span_digits (s : jsstring) : jsstring * jsstring :=
  match s with
  | c :: rest =>
      if is_digit c then let '(ds, r) := span_digits rest in (c :: ds, r)
      else ([], s)
  | [] => ([], [])
  end.

Definition digits_value (ds : jsstring) : Z :=
  fold_left (fun acc d => (acc * 10 + Z.of_N (d - 48))%Z) ds 0%Z.

(** The integer part: a single 0, or a non-zero digit and more digits. *)
Definition lex_int (s : jsstring) : option (jsstring * jsstring) :=
  match s with
  | d :: rest =>
      if (d =? 48)%N then Some ([d], rest)
      else if is_digit d then let '(ds, r) := span_digits rest in Some (d :: ds, r)
      else None
  | [] => None
  end.

(** The optional fraction: a dot and at least one digit. *)
Definition lex_frac (s : jsstring) : option (jsstring * jsstring) :=
  match s with
  | c :: rest =>
      if (c =? 46)%N then
        match span_digits rest with
        | ([], _) => None
        | (ds, r) => Some (ds, r)
        end
      else Some ([], s)
  | [] => Some ([], [])
  end.

(** The optional exponent: e or E, an optional sign, at least one digit. *)
Definition lex_exp (s : jsstring) : option (Z * jsstring) :=
  match s with
  | c :: rest =>
      if (c =? 101)%N || (c =? 69)%N then
        let '(negative, rest') :=
          match rest with
          | sg :: r =>
              if (sg =? 45)%N then (true, r)
              else if (sg =? 43)%N then (false, r)
              else (false, rest)
          | [] => (false, rest)
          end in
        match span_digits rest' with
        | ([], _) => None
        | (ds, r) => Some (if negative then (- digits_value ds)%Z else digits_value ds, r)
        end
      else Some (0%Z, s)
  | [] => Some (0%Z, [])
  end.

(** The digits of a number after its optional sign. *)
Definition lex_unsigned (negative : bool) (s1 : jsstring) : option (Z * Z * jsstring) :=
  match lex_int s1 with
  | None => None
  | Some (ids, s2) =>
      match lex_frac s2 with
      | None => None
      | Some (fds, s3) =>
          match lex_exp s3 with
          | None => None
          | Some (e, s4) =>
              let m := digits_value (ids ++ fds) in
              Some (if negative then (- m)%Z else m,
                    (e - Z.of_nat (length fds))%Z, s4)
          end
      end
  end.

Definition lex_number (s : jsstring) : option (Z * Z * jsstring) :=
  match s with
  | c :: rest => if (c =? 45)%N then lex_unsigned true rest else lex_unsigned false s
  | [] => None
  end.

Definition kw_true : jsstring := js "true".
Definition kw_false : jsstring := js "false".
Definition kw_null : jsstring := js "null".

(** The first token of a non-empty text, or [None] for a white-space
    character, and the text after it. *)
Definition lex_token (s : jsstring) : option (option token * jsstring) :=
  match s with
  | [] => None
  | c :: rest =>
      if is_json_ws c then Some (None, rest)
      else if (c =? 123)%N then Some (Some TLBrace, rest)
      else if (c =? 125)%N then Some (Some TRBrace, rest)
      else if (c =? 91)%N then Some (Some TLBracket, rest)
      else if (c =? 93)%N then Some (Some TRBracket, rest)
      else if (c =? 58)%N then Some (Some TColon, rest)
      else if (c =? 44)%N then Some (Some TComma, rest)
      else if (c =? 34)%N then
        match lex_string rest [] with
        | Some (str, rest') => Some (Some (TStr str), rest')
        | None => None
        end
      else if (c =? 45)%N || is_digit c then
        match lex_number s with
        | Some (m, e, rest') => Some (Some (TNum m e), rest')
        | None => None
        end
      else if startsWith s kw_true then Some (Some TTrue, drop 4 s)
      else if startsWith s kw_false then Some (Some TFalse, drop 5 s)
      else if startsWith s kw_null then Some (Some TNull, drop 4 s)
      else None
  end.

Fixpoint lex (fuel : nat) (s : jsstring) : option (list token) :=
  match fuel with
  | O => None
  | S f =>
      match s with
      | [] => Some []
      | _ :: _ =>
          match lex_token s with
          | Some (Some tok, rest) => option_map (cons tok) (lex f rest)
          | Some (None, rest) => lex f rest
          | None => None
          end
      end
  end.

(** *** Syntactic grammar *)

Fixpoint parse_value (fuel : nat) (ts : list token) : option (json * list token) :=
  match fuel with
  | O => None
  | S f =>
      match ts with
      | TNull :: r => Some (JNull, r)
      | TTrue :: r => Some (JBool true, r)
      | TFalse :: r => Some (JBool false, r)
      | TNum m e :: r => Some (JNumber m e, r)
      | TStr s :: r => Some (JString s, r)
      | TLBracket :: TRBracket :: r => Some (JArray [], r)
      | TLBracket :: r => parse_elements f r []
      | TLBrace :: TRBrace :: r => Some (JObject [], r)
      | TLBrace :: r => parse_members f r []
      | _ => None
      end
  end
with parse_elements (fuel : nat) (ts : list token) (acc : list json)
    : option (json * list token) :=
  match fuel with
  | O => None
  | S f =>
      match parse_value f ts with
      | Some (v, TComma :: r) => parse_elements f r (v :: acc)
      | Some (v, TRBracket :: r) => Some (JArray (rev (v :: acc)), r)
      | _ => None
      end
  end
with parse_members (fuel : nat) (ts : list token) (acc : list (jsstring * json))
    : option (json * list token) :=
  match fuel with
  | O => None
  | S f =>
      match ts with
      | TStr key :: TColon :: r =>
          match parse_value f r with
          | Some (v, TComma :: r') => parse_members f r' (obj_set acc key v)
          | Some (v, TRBrace :: r') => Some (JObject (obj_set acc key v), r')
          | _ => None
          end
      | _ => None
      end
  end.

(** [JSON.parse] as a partial function: [None] where it throws. *)
Definition parse (text : jsstring) : option json :=
  match lex (S (length text)) text with
  | None => None
  | Some ts =>
      match parse_value (S (2 * length ts)) ts with
      | Some (v, []) => Some v
      | _ => None
      end
  end.

End Json.

Import Regex Json.

(** ** Exceptions and the repair cache

    A JavaScript computation completes normally or throws.  The helpers of
    [parseLLMJson] share the [jsonCache] map created by the call, so they are
    computations over that map. *)

Inductive js_error : Type := SyntaxError | TypeError.

Inductive completion (A : Type) : Type :=
| Normal (a : A)
| Throw (e : js_error).
Arguments Normal {A} a.
Arguments Throw {A} e.

Definition M (A : Type) : Type :=
  gmap (list N) (list N) -> completion A * gmap (list N) (list N).

Definition ret {A} (a : A) : M A := fun cache => (Normal a, cache).

Definition bind {A B} (c : M A) (k : A -> M B) : M B :=
  fun cache =>
    match c cache with
    | (Normal a, cache') => k a cache'
    | (Throw e, cache') => (Throw e, cache')
    end.

Definition lift {A} (c : completion A) : M A := fun cache => (c, cache).

(** [try { body } catch (e) { handler }]. *)
Definition try_catch {A} (body : M A) (handler : js_error -> M A) : M A :=
  fun cache =>
    match body cache with
    | (Normal a, cache') => (Normal a, cache')
    | (Throw e, cache') => handler e cache'
    end.

Notation "'let*' x ':=' c 'in' k" := (bind c (fun x => k))
  (at level 10, x pattern, c at level 100, k at level 200).

(** [JSON.parse(text)]: the value, or a thrown SyntaxError. *)
Definition JSON_parse (text : jsstring) : completion json :=
  match Json.parse text with
  | Some v => Normal v
  | None => Throw SyntaxError
  end.

(** [Array.prototype.sort(cmp)], which is stable. *)
Fixpoint sort_insert {A} (cmp : A -> A -> Z) (x : A) (l : list A) : list A :=
  match l with
  | [] => [x]
  | y :: l' => if (cmp x y <=? 0)%Z then x :: l else y :: sort_insert cmp x l'
  end.

Definition js_sort {A} (cmp : A -> A -> Z) (l : list A) : list A :=
  fold_right (sort_insert cmp) [] l.

(** ** The patterns of the source, in the order they appear *)
Module Patterns.

(** Each pattern is quoted from the source before its definition; in the
    quotations a space separates a star from a closing parenthesis, where
    the source has none. *)

Definition c_bslash : char := 92%N.
Definition c_squote : char := 39%N.

(** [/^\uFEFF/] *)
Definition bom := cat [Bol; Chr c_bom].
(** [/\/\/.*$/gm] *)
Definition line_comment := cat [lit (js "//"); Star true Dot; Eol].
(** [/\/\*[\s\S]*?\*\//g] *)
Definition block_comment := cat [lit (js "/*"); Star false Any; lit (js "*/")].
(** [/^\s*#.*$/gm] *)
Definition hash_comment := cat [Bol; Star true Space; Chr (ch "#"); Star true Dot; Eol].
(** [/\\'/g] *)
Definition escaped_squote := cat [Chr c_bslash; Chr c_squote].
(** [/\\Q/g] where Q is the double quote *)
Definition escaped_dquote := cat [Chr c_bslash; Chr c_quote].
(** [/Q/g] where Q is the double quote *)
Definition dquote := Chr c_quote.
(** [/,(\s*[}\]])/g] *)
Definition comma_before_close :=
  cat [Chr (ch ","); Group 1 (cat [Star true Space; Class false [CChar (ch "}"); CChar (ch "]")]])].
(** [/,\s*$/g] *)
Definition comma_at_end := cat [Chr (ch ","); Star true Space; Eol].
(** [/([{,]\s* )([a-zA-Z_$][\w\-\.]* )\s*:/g] *)
Definition bare_key :=
  cat [Group 1 (cat [Class false [CChar (ch "{"); CChar (ch ",")]; Star true Space]);
       Group 2 (cat [Class false [CRange (ch "a") (ch "z"); CRange (ch "A") (ch "Z");
                                  CChar (ch "_"); CChar (ch "$")];
                     Star true (Class false [CWord; CChar (ch "-"); CChar (ch ".")])]);
       Star true Space; Chr (ch ":")].
(** [/'([^'\\]*(\\.[^'\\]* )* )'/g] *)
Definition single_quoted :=
  cat [Chr c_squote;
       Group 1 (cat [Star true (Class true [CChar c_squote; CChar c_bslash]);
                     Star true (Group 2 (cat [Chr c_bslash; Dot;
                                              Star true (Class true [CChar c_squote; CChar c_bslash])]))]);
       Chr c_squote].
(** [/:\s*True\b/gi], [/:\s*False\b/gi], [/:\s*None\b/gi],
    [/:\s*undefined\b/gi] *)
Definition value_word (w : string) := cat [Chr (ch ":"); Star true Space; lit (js w); WordB].
(** [/\bTrue\b/g], [/\bFalse\b/g], [/\bNone\b/g] *)
Definition bare_word (w : string) := cat [WordB; lit (js w); WordB].
(** [/Q([^Q]* )\\Q([^Q]* )Q/] where Q is the double quote *)
Definition escaped_inside :=
  cat [Chr c_quote; Group 1 (Star true (Class true [CChar c_quote]));
       Chr c_bslash; Chr c_quote;
       Group 2 (Star true (Class true [CChar c_quote])); Chr c_quote].
(** [/\.\.\./g] *)
Definition three_dots := lit (js "...").
(** [/…/g], the character U+2026 *)
Definition ellipsis := Chr c_ellipsis.

(** [/```(?:json|JSON)\s*\n?([\s\S]*?)\n?```/g] *)
Definition jsonBlockPattern :=
  cat [lit (js "```"); Alt (lit (js "json")) (lit (js "JSON")); Star true Space;
       Opt (Chr c_nl); Group 1 (Star false Any); Opt (Chr c_nl); lit (js "```")].
(** [/```\s*\n?([\s\S]*?)\n?```/g] *)
Definition codeBlockPattern :=
  cat [lit (js "```"); Star true Space; Opt (Chr c_nl); Group 1 (Star false Any);
       Opt (Chr c_nl); lit (js "```")].
(** [/`([^`]+)`/g] *)
Definition inlinePattern :=
  cat [Chr (ch "`"); Group 1 (Plus (Class true [CChar (ch "`")])); Chr (ch "`")].
(** [/(\{(?:[^{}]|(?:\{[^{}]*\}))*\})/g] *)
Definition objectPattern :=
  Group 1 (cat [Chr (ch "{");
                Star true (Alt (Class true [CChar (ch "{"); CChar (ch "}")])
                               (cat [Chr (ch "{");
                                     Star true (Class true [CChar (ch "{"); CChar (ch "}")]);
                                     Chr (ch "}")]));
                Chr (ch "}")]).
(** [/(\[(?:[^\[\]]|(?:\[[^\[\]]*\]))*\])/g] *)
Definition arrayPattern :=
  Group 1 (cat [Chr (ch "[");
                Star true (Alt (Class true [CChar (ch "["); CChar (ch "]")])
                               (cat [Chr (ch "[");
                                     Star true (Class true [CChar (ch "["); CChar (ch "]")]);
                                     Chr (ch "]")]));
                Chr (ch "]")]).
(** [/```json\s*\n([\s\S]*?)\n```/] *)
Definition fastPathPattern :=
  cat [lit (js "```json"); Star true Space; Chr c_nl; Group 1 (Star false Any);
       Chr c_nl; lit (js "```")].

End Patterns.

(** ** Options, candidates, results *)

Record ParseOptions := {
  attemptFix : bool;
  maxBlocks : Z;
  preferFirst : bool;
  allowPartial : bool
}.

(** The [options] argument: an object, of which the code reads four fields
    that may be missing (a field is given by the truth value, or for
    [maxBlocks] the number, the code gets from it), or anything else (null,
    undefined, a non-object, an array), which the code replaces by the empty
    object.  These are the options whose four properties are read without
    a throw; [options_properties] below has the others.  A [maxBlocks] that
    has no number (a Symbol, with which the comparison of the extractor
    throws) is not among them. *)
Record options_object := {
  o_attemptFix : option bool;
  o_maxBlocks : option Z;
  o_preferFirst : option bool;
  o_allowPartial : option bool
}.

Inductive options_arg : Type :=
| OptionsInvalid
| OptionsObject (o : options_object).

Definition empty_object : options_object :=
  {| o_attemptFix := None; o_maxBlocks := None; o_preferFirst := None; o_allowPartial := None |}.

(** The destructuring with defaults of lines 13-18. *)
Definition destructure (o : options_object) : ParseOptions :=
  {| attemptFix := default true (o_attemptFix o);
     maxBlocks := default 5%Z (o_maxBlocks o);
     preferFirst := default true (o_preferFirst o);
     allowPartial := default false (o_allowPartial o) |}.

Definition normalize_options (options : options_arg) : ParseOptions :=
  match options with
  | OptionsInvalid => destructure empty_object
  | OptionsObject o => destructure o
  end.

Definition default_options : ParseOptions := normalize_options OptionsInvalid.

(** The [response] argument: null, undefined, a string, or another value
    given by what [String(response)] does with it. *)
Inductive js_arg : Type :=
| ArgNull
| ArgUndefined
| ArgString (s : jsstring)
| ArgOther (to_string : completion jsstring).

Record candidate := Candidate { content : jsstring; priority : Z }.

(** The object [tryParseJson] returns. *)
Record ParseResult := {
  success : bool;
  data : json;
  error : option string
}.

Definition parsed_ok (parsed : json) : ParseResult :=
  {| success := true; data := parsed; error := None |}.

(** The object returned when nothing was recovered. *)
Definition failure_record : json :=
  JObject [(js "success", JBool false);
           (js "data", JNull);
           (js "error", JString (js "No valid JSON found in the response"));
           (js "rawJson", JNull)].

(** What the unwrapping loop reads of [current]: whether it is a non-null
    object, and what its [response] property holds. *)
Inductive response_view (V : Type) : Type :=
| NotObject                       (* falsy, or not of type object *)
| NoResponse                      (* no response property, or a falsy one *)
| ResponseString (s : jsstring)   (* a non-empty string *)
| ResponseObject (v : V)          (* an object or an array *)
| ResponseOther.                  (* a truthy number or boolean *)
Arguments NotObject {V}.
Arguments NoResponse {V}.
Arguments ResponseString {V} s.
Arguments ResponseObject {V} v.
Arguments ResponseOther {V}.

Definition inspect_json (current : json) : response_view json :=
  match current with
  | JObject fields =>
      match obj_get fields (js "response") with
      | Some r =>
          if truthy r then
            match r with
            | JString s => ResponseString s
            | JObject _ | JArray _ => ResponseObject r
            | _ => ResponseOther
            end
          else NoResponse
      | None => NoResponse
      end
  | JArray _ => NoResponse
  | _ => NotObject
  end.

(** A [while] loop: the body returns the next state, or [None] when the
    condition fails or a [break] is reached.  The loop itself returns [None]
    if the fuel does not suffice. *)
Fixpoint while_loop {S : Type} (fuel : nat) (body : S -> M (option S)) (s : S)
    : M (option S) :=
  match fuel with
  | O => ret None
  | Datatypes.S f =>
      let* next := body s in
      match next with
      | None => ret (Some s)
      | Some s' => while_loop f body s'
      end
  end.

(** ** The boundary scanner (lines 166-215) *)

Record scan_state := ScanState {
  start : Z;
  end_ : Z;
  depth : Z;
  inString : bool;
  escapeNext : bool
}.

Definition scan_init : scan_state := ScanState (-1) (-1) 0 false false.

Definition is_opener (c : char) : bool := (c =? 123)%N || (c =? 91)%N.
Definition is_closer (c : char) : bool := (c =? 125)%N || (c =? 93)%N.

(** The body of the [for] loop at index [i] on the character [c]: the next
    state, and whether the loop is left by [break]. *)
Definition scan_step (c : char) (i : Z) (st : scan_state) : scan_state * bool :=
  if escapeNext st then
    (ScanState (start st) (end_ st) (depth st) (inString st) false, false)
  else if (c =? 92)%N then
    (ScanState (start st) (end_ st) (depth st) (inString st) true, false)
  else if (c =? 34)%N && negb (escapeNext st) then
    (ScanState (start st) (end_ st) (depth st) (negb (inString st)) (escapeNext st), false)
  else if negb (inString st) then
    if is_opener c then
      (ScanState (if (start st =? -1)%Z then i else start st) (end_ st)
                 (depth st + 1)%Z (inString st) (escapeNext st), false)
    else if is_closer c then
      let d := (depth st - 1)%Z in
      if (d =? 0)%Z && negb (start st =? -1)%Z then
        (ScanState (start st) (i + 1)%Z d (inString st) (escapeNext st), true)
      else
        (ScanState (start st) (end_ st) d (inString st) (escapeNext st), false)
    else (st, false)
  else (st, false).

(** The [for] loop over the characters from index [i] on. *)
Fixpoint scan (chars : jsstring) (i : Z) (st : scan_state) : scan_state :=
  match chars with
  | [] => st
  | c :: rest =>
      match scan_step c i st with
      | (st', true) => st'
      | (st', false) => scan rest (i + 1)%Z st'
      end
  end.

Definition findJsonBoundaries (allowPartial : bool) (text : jsstring) : option jsstring :=
  let st := scan text 0%Z scan_init in
  if negb (start st =? -1)%Z && negb (end_ st =? -1)%Z then
    Some (substring text (Z.to_nat (start st)) (Z.to_nat (end_ st)))
  else if allowPartial && negb (start st =? -1)%Z then
    Some (substring_from text (Z.to_nat (start st)) ++
          (if (depth st >? 0)%Z then js "}" else []))
  else None.

(** ** The repair engine (lines 43-104) *)

(** The rewrites of [fixCommonJsonIssues], in order. *)
Definition repairs (allowPartial : bool) (jsonStr : jsstring) : jsstring :=
  let fixed := jsonStr in
  let fixed := replace_first no_flags Patterns.bom [] fixed in
  let fixed := replace_all flag_m Patterns.line_comment [] fixed in
  let fixed := replace_all no_flags Patterns.block_comment [] fixed in
  let fixed := replace_all flag_m Patterns.hash_comment [] fixed in
  let fixed := replace_all no_flags Patterns.escaped_squote [RText (js "'")] fixed in
  let fixed := replace_all no_flags Patterns.escaped_dquote [RText dq] fixed in
  let fixed :=
    if allowPartial then
      let quoteCount := length (all_matches no_flags Patterns.dquote fixed) in
      if negb (quoteCount mod 2 =? 0)%nat then fixed ++ dq else fixed
    else fixed in
  let fixed := replace_all no_flags Patterns.comma_before_close [RGroup 1] fixed in
  let fixed := replace_all no_flags Patterns.comma_at_end [] fixed in
  let fixed := replace_all no_flags Patterns.bare_key
                 [RGroup 1; RText dq; RGroup 2; RText (dq ++ js ":")] fixed in
  let fixed := replace_all no_flags Patterns.single_quoted
                 [RText dq; RGroup 1; RText dq] fixed in
  let fixed := replace_all flag_i (Patterns.value_word "True") [RText (js ": true")] fixed in
  let fixed := replace_all flag_i (Patterns.value_word "False") [RText (js ": false")] fixed in
  let fixed := replace_all flag_i (Patterns.value_word "None") [RText (js ": null")] fixed in
  let fixed := replace_all flag_i (Patterns.value_word "undefined") [RText (js ": null")] fixed in
  let fixed := replace_all no_flags (Patterns.bare_word "True") [RText (js "true")] fixed in
  let fixed := replace_all no_flags (Patterns.bare_word "False") [RText (js "false")] fixed in
  let fixed := replace_all no_flags (Patterns.bare_word "None") [RText (js "null")] fixed in
  let fixed := replace_first no_flags Patterns.escaped_inside
                 [RText dq; RGroup 1; RText [Patterns.c_bslash; c_quote]; RGroup 2; RText dq] fixed in
  let fixed := replace_all no_flags Patterns.three_dots [] fixed in
  let fixed := replace_all no_flags Patterns.ellipsis [] fixed in
  fixed.

Definition fixCommonJsonIssues (allowPartial : bool) (jsonStr : jsstring) : M jsstring :=
  fun jsonCache =>
    match jsonCache !! jsonStr with
    | Some cached => (Normal cached, jsonCache)
    | None =>
        let fixed := repairs allowPartial jsonStr in
        (Normal fixed, <[jsonStr := fixed]> jsonCache)
    end.

Definition nonempty (s : jsstring) : bool :=
  match s with [] => false | _ :: _ => true end.

(** ** The candidate extractor (lines 107-163) *)

(** One [while ((match = pattern.exec(text)) !== null)] loop over the
    successive matches [ms] of a pattern: the loop stops at [maxBlocks]
    results, and pushes the trimmed first group when it is a non-empty
    string that passes the test of the class. *)
Fixpoint collect (maxBlocks : Z) (accept : jsstring -> bool) (prio : Z)
    (ms : list rmatch) (results : list candidate) : list candidate :=
  match ms with
  | [] => results
  | mt :: rest =>
      if (Z.of_nat (length results) >=? maxBlocks)%Z then results   (* break *)
      else
        match option_map trim (group 1 mt) with
        | Some c =>
            if nonempty c && accept c
            then collect maxBlocks accept prio rest (results ++ [Candidate c prio])
            else collect maxBlocks accept prio rest results
        | None => collect maxBlocks accept prio rest results
        end
  end.

Definition json_shaped (c : jsstring) : bool :=
  startsWith c (js "{") || startsWith c (js "[").

Definition jsonPatterns : list regex := [Patterns.objectPattern; Patterns.arrayPattern].

(** The [results] array when the function returns. *)
Definition extract_results (opts : ParseOptions) (text : jsstring) : list candidate :=
  let results := [] in
  let results := collect (maxBlocks opts) (fun _ => true) 1
                   (all_matches no_flags Patterns.jsonBlockPattern text) results in
  let results := collect (maxBlocks opts) json_shaped 2
                   (all_matches no_flags Patterns.codeBlockPattern text) results in
  let results := collect (maxBlocks opts) json_shaped 3
                   (all_matches no_flags Patterns.inlinePattern text) results in
  let results :=
    fold_left (fun results pattern =>
                 collect (maxBlocks opts) (fun c => (10 <? length c)%nat) 4
                   (all_matches no_flags pattern text) results)
              jsonPatterns results in
  if preferFirst opts
  then js_sort (fun a b => (priority a - priority b)%Z) results
  else results.

Definition extractJson (opts : ParseOptions) (text : jsstring) : list jsstring :=
  map content (extract_results opts text).

(** ** The parse pipeline (lines 218-270) *)

(** [try { const parsed = JSON.parse(s); return ok(parsed) } catch (e) {}]:
    the result to return, or [None] to go on. *)
Definition attempt (s : jsstring) : M (option ParseResult) :=
  try_catch (let* parsed := lift (JSON_parse s) in ret (Some (parsed_ok parsed)))
            (fun _ => ret None).

Definition tryParseJson (opts : ParseOptions) (jsonStr : jsstring) : M ParseResult :=
  if negb (nonempty jsonStr) || (length (trim jsonStr) =? 0)%nat then
    ret {| success := false; data := JNull; error := Some "Empty JSON string"%string |}
  else
    let cleanJson := trim jsonStr in
    let* direct := attempt cleanJson in
    match direct with
    | Some r => ret r
    | None =>
        let* fixedUp :=
          if attemptFix opts then
            let boundedJson := findJsonBoundaries (allowPartial opts) cleanJson in
            let* bounded :=
              match boundedJson with
              | Some b => if nonempty b then attempt b else ret None
              | None => ret None
              end in
            match bounded with
            | Some r => ret (Some r)
            | None =>
                let* cleanJson := fixCommonJsonIssues (allowPartial opts) cleanJson in
                try_catch
                  (let* parsed := lift (JSON_parse cleanJson) in ret (Some (parsed_ok parsed)))
                  (fun secondError =>
                     let extracted := findJsonBoundaries (allowPartial opts) cleanJson in
                     match extracted with
                     | Some e => if nonempty e then attempt e else ret None
                     | None => ret None
                     end)
            end
          else ret None in
        match fixedUp with
        | Some r => ret r
        | None =>
            ret {| success := false; data := JNull;
                   error := Some "Failed to parse JSON after all attempts"%string |}
        end
    end.

(** ** The result unwrapper (lines 293-327)

    The loop is written over any representation [V] of JavaScript values
    that tells what the loop reads ([inspect]) and holds the values
    [JSON.parse] builds ([of_json]); [V] may describe object graphs that
    are not trees. *)
Section Unwrap.
Context {V : Type}.
Variable inspect : V -> response_view V.
Variable of_json : json -> V.
Variable opts : ParseOptions.

(** One evaluation of the loop condition and body, on the variables
    [current] and [attempts]. *)
Definition unwrap_body (maxAttempts : nat) (st : V * nat) : M (option (V * nat)) :=
  let '(current, attempts) := st in
  if (attempts <? maxAttempts)%nat then
    match inspect current with
    | NotObject => ret None
    | NoResponse => ret None
    | ResponseString s =>
        let* parsed := tryParseJson opts s in
        if success parsed then ret (Some (of_json (data parsed), S attempts))
        else ret None
    | ResponseObject v => ret (Some (v, S attempts))
    | ResponseOther => ret None
    end
  else ret None.

Definition unwrap_loop (data : V) (maxAttempts : nat) : M (option (V * nat)) :=
  while_loop (S maxAttempts) (unwrap_body maxAttempts) (data, 0%nat).

Definition unwrapResponse_on (data : V) (maxAttempts : nat) : M V :=
  let* final := unwrap_loop data maxAttempts in
  ret (match final with
       | Some (current, _) => current
       | None => data
       end).
End Unwrap.

Definition unwrapResponse (opts : ParseOptions) (data : json) (maxAttempts : nat) : M json :=
  unwrapResponse_on inspect_json (fun v => v) opts data maxAttempts.

(** ** The orchestrator (lines 7-37 and 272-366) *)

(** The strategy that produced the returned value. *)
Inductive stage : Type :=
| NoInput | FastPath | WholeInput | CandidateFallback | AggressiveFallback | TotalFailure.

(** Lines 274-288: the value to return at once, or [None]. *)
Definition fast_path (response : jsstring) : M (option json) :=
  try_catch
    (match first_match no_flags Patterns.fastPathPattern response with
     | Some jsonMatch =>
         let* extracted :=
           match group 1 jsonMatch with
           | Some g => ret (trim g)
           | None => lift (Throw TypeError)
           end in
         try_catch (let* parsed := lift (JSON_parse extracted) in ret (Some parsed))
                   (fun _ => ret None)
     | None => ret None
     end)
    (fun _ => ret None).

(** The [for (const jsonStr of sortedCandidates)] loop. *)
Fixpoint try_candidates (opts : ParseOptions) (sortedCandidates : list jsstring)
    : M (option json) :=
  match sortedCandidates with
  | [] => ret None
  | jsonStr :: rest =>
      let* result := tryParseJson opts jsonStr in
      if success result then
        let* v := unwrapResponse opts (data result) 2 in ret (Some v)
      else try_candidates opts rest
  end.

Definition by_length_desc (a b : jsstring) : Z :=
  (Z.of_nat (length b) - Z.of_nat (length a))%Z.

Definition sortedCandidates (opts : ParseOptions) (response : jsstring) : list jsstring :=
  js_sort by_length_desc (extractJson opts response).

(** Lines 350-359. *)
Definition aggressive (opts : ParseOptions) (response : jsstring) : M (option json) :=
  if attemptFix opts then
    match findJsonBoundaries (allowPartial opts) response with
    | Some aggressiveJson =>
        if nonempty aggressiveJson then
          let* result := tryParseJson opts aggressiveJson in
          if success result then
            let* v := unwrapResponse opts (data result) 2 in ret (Some v)
          else ret None
        else ret None
    | None => ret None
    end
  else ret None.

(** Lines 272-366, on a non-blank string. *)
Definition pipeline (opts : ParseOptions) (response : jsstring) : M (stage * json) :=
  let* fast := fast_path response in
  match fast with
  | Some parsed => ret (FastPath, parsed)
  | None =>
      let* directResult := tryParseJson opts response in
      if success directResult then
        let* v := unwrapResponse opts (data directResult) 2 in ret (WholeInput, v)
      else
        let* found := try_candidates opts (sortedCandidates opts response) in
        match found with
        | Some v => ret (CandidateFallback, v)
        | None =>
            let* last := aggressive opts response in
            match last with
            | Some v => ret (AggressiveFallback, v)
            | None => ret (TotalFailure, failure_record)
            end
        end
  end.

(** Lines 21-37: the string to work on, or [None] for a null result. *)
Definition normalize_input (response : js_arg) : option jsstring :=
  match response with
  | ArgNull | ArgUndefined => None
  | ArgString s => Some s
  | ArgOther (Normal s) => Some s
  | ArgOther (Throw _) => None
  end.

Definition is_blank (response : jsstring) : bool :=
  negb (nonempty response) || (length (trim response) =? 0)%nat.

Definition parseLLMJson_staged (response : js_arg) (options : options_arg)
    : completion (stage * json) :=
  let opts := normalize_options options in
  match normalize_input response with
  | None => Normal (NoInput, JNull)
  | Some response =>
      if is_blank response then Normal (NoInput, JNull)
      else fst (pipeline opts response ∅)
  end.

Definition parseLLMJson (response : js_arg) (options : options_arg) : completion json :=
  match parseLLMJson_staged response options with
  | Normal (_, v) => Normal v
  | Throw e => Throw e
  end.

(** ** The options object as the call reads it

    The destructuring of lines 13-18 reads the four properties of the
    options object in the order [attemptFix], [maxBlocks], [preferFirst],
    [allowPartial], before the input is looked at and outside every [try].
    Reading a data property yields its value ([None] for a missing property
    or undefined); reading an accessor property runs its getter, which
    returns a value or throws. *)
Record options_properties := {
  get_attemptFix : completion (option bool);
  get_maxBlocks : completion (option Z);
  get_preferFirst : completion (option bool);
  get_allowPartial : completion (option bool)
}.

(** The [options] argument of a call: a value the guard of lines 9-11
    replaces by the empty object, or an object given by what reading each
    of the four properties does. *)
Inductive options_value : Type :=
| NotAnObject
| AnObject (p : options_properties).

(** Lines 9-18: the guard and the four reads, in order; the first throw
    ends the call. *)
Definition read_options (options : options_value) : completion options_arg :=
  match options with
  | NotAnObject => Normal OptionsInvalid
  | AnObject p =>
      match get_attemptFix p with
      | Throw e => Throw e
      | Normal a =>
          match get_maxBlocks p with
          | Throw e => Throw e
          | Normal m =>
              match get_preferFirst p with
              | Throw e => Throw e
              | Normal f =>
                  match get_allowPartial p with
                  | Throw e => Throw e
                  | Normal ap =>
                      Normal (OptionsObject
                                {| o_attemptFix := a; o_maxBlocks := m;
                                   o_preferFirst := f; o_allowPartial := ap |})
                  end
              end
          end
      end
  end.

(** The call [parseLLMJson(response, options)]. *)
Definition parseLLMJson_call (response : js_arg) (options : options_value)
    : completion json :=
  match read_options options with
  | Throw e => Throw e
  | Normal o => parseLLMJson response o
  end.

(** An options value whose properties are all data properties. *)
Definition data_options (options : options_arg) : options_value :=
  match options with
  | OptionsInvalid => NotAnObject
  | OptionsObject o =>
      AnObject {| get_attemptFix := Normal (o_attemptFix o);
                  get_maxBlocks := Normal (o_maxBlocks o);
                  get_preferFirst := Normal (o_preferFirst o);
                  get_allowPartial := Normal (o_allowPartial o) |}
  end.

(** * Statements

    The predicates the properties are stated with, and the texts of the
    concrete scenarios. *)

(** ** Predicates *)

(** The computation completes normally from every state of the cache. *)
Definition total {A} (c : M A) : Prop :=
  forall cache, exists a cache', c cache = (Normal a, cache').

(** Every entry of the cache is the repair of its key. *)
Definition cache_consistent (allowPartial : bool) (cache : gmap (list N) (list N)) : Prop :=
  forall k v, cache !! k = Some v -> v = repairs allowPartial k.

(** The depth of the brackets of a span that stand outside string literals:
    [None] as soon as a closing bracket has no opening bracket before it,
    otherwise the number of opening brackets left open at the end.  String
    literals and escapes are read as the scanner reads them; bracket kinds
    are not compared. *)
Fixpoint open_depth (inStr esc : bool) (d : nat) (span : jsstring) : option nat :=
  match span with
  | [] => Some d
  | c :: rest =>
      if esc then open_depth inStr false d rest
      else if (c =? 92)%N then open_depth inStr true d rest
      else if (c =? 34)%N then open_depth (negb inStr) false d rest
      else if inStr then open_depth inStr false d rest
      else if is_opener c then open_depth inStr false (S d) rest
      else if is_closer c then
        match d with
        | O => None
        | S d' => open_depth inStr false d' rest
        end
      else open_depth inStr false d rest
  end.

(** The brackets outside string literals are balanced by count: no closing
    bracket comes without an opening bracket still open before it, and none
    is left open at the end.  Bracket kinds are not compared. *)
Definition brackets_matched (span : jsstring) : bool :=
  match open_depth false false 0 span with
  | Some O => true
  | _ => false
  end.




(** The JSON-shaped substrings of a text: the trimmed matches of the two
    class-4 patterns. *)
Definition json_shaped_substrings (text : jsstring) : list jsstring :=
  omap (fun mt => option_map trim (group 1 mt))
       (all_matches no_flags Patterns.objectPattern text ++
        all_matches no_flags Patterns.arrayPattern text).

(** The value is an object whose response property holds a non-empty
    string, an object or an array: what the unwrapper descends into. *)
Definition is_envelope (v : json) : bool :=
  match inspect_json v with
  | ResponseString _ | ResponseObject _ => true
  | _ => false
  end.

(** A matcher reads its continuation only at positions at or after its
    own. *)
Definition local_body (body : mstate -> (mstate -> option mstate) -> option mstate) : Prop :=
  forall st k1 k2,
    (forall st', (length (after st') <= length (after st))%nat -> k1 st' = k2 st') ->
    body st k1 = body st k2.

(** A separator: a white-space character or a backquote. *)
Definition sep (x : N) : Prop := is_space x = true \/ x = 96%N.

(** A text before which a token must end: a string literal cannot run
    through it, and it is empty or starts with a separator. *)
Definition cut (t : jsstring) : Prop :=
  (forall acc, lex_string t acc = None)
  /\ match t with [] => True | x :: _ => sep x end.

(** ** Options objects that set one field *)

Definition only_allowPartial (b : bool) : options_arg :=
  OptionsObject {| o_attemptFix := None; o_maxBlocks := None;
                   o_preferFirst := None; o_allowPartial := Some b |}.

Definition only_preferFirst (b : bool) : options_arg :=
  OptionsObject {| o_attemptFix := None; o_maxBlocks := None;
                   o_preferFirst := Some b; o_allowPartial := None |}.

Definition only_attemptFix (b : bool) : options_arg :=
  OptionsObject {| o_attemptFix := Some b; o_maxBlocks := None;
                   o_preferFirst := None; o_allowPartial := None |}.

(** An options object whose [attemptFix] is an accessor with a getter that
    throws a TypeError, and no other property. *)
Definition throwing_options : options_value :=
  AnObject {| get_attemptFix := Throw TypeError; get_maxBlocks := Normal None;
              get_preferFirst := Normal None; get_allowPartial := Normal None |}.

(** ** Texts and values of the scenarios

    In the texts, [dq] is the double quote and [nl] the newline. *)

(** An object text with an unquoted key, a trailing comma in its array and
    an unclosed string. *)
Definition unquoted_key_text : jsstring :=
  js "{a:[1,],b:" ++ dq ++ js "x}".

(** A strictly valid JSON text with white space around it. *)
Definition padded_array_text : jsstring := js " [1, 2] ".

(** The JSON text of an object whose key response holds the object with
    key a and value 1, and the values involved. *)
Definition envelope_text : jsstring :=
  js "{" ++ dq ++ js "response" ++ dq ++ js ": {" ++ dq ++ js "a" ++ dq ++ js ": 1}}".
Definition inner_value : json := JObject [(js "a", JNumber 1 0)].
Definition envelope_value : json := JObject [(js "response", inner_value)].

(** The same text in a fenced block labeled json. *)
Definition fenced_envelope : jsstring :=
  js "```json" ++ nl ++ envelope_text ++ nl ++ js "```".


(** A closing bracket before the first opening bracket. *)
Definition stray_closer_input : jsstring := js "}{{}".

(** The text of the third scenario of the specification: two objects in
    prose. *)
Definition two_objects : jsstring :=
  js "Here is your data: {" ++ dq ++ js "x" ++ dq ++ js ": 1} and more text {"
     ++ dq ++ js "x" ++ dq ++ js ": 2}".

Definition obj_x (n : Z) : json := JObject [(js "x", JNumber n 0)].

(** A text with an inline code span and, after it, a longer array. *)
Definition span_then_array : jsstring := js "{oops} `[1]` [1, 2, 3, 4, 5]".

Definition array_1_to_5 : json :=
  JArray [JNumber 1 0; JNumber 2 0; JNumber 3 0; JNumber 4 0; JNumber 5 0].

(** The text of the fourth scenario: an object with key name whose value,
    a string literal starting with Jo, is cut before its closing quote. *)
Definition truncated_input : jsstring :=
  js "{" ++ dq ++ js "name" ++ dq ++ js ": " ++ dq ++ js "Jo".

(** An object of seven characters in prose, and the same object in an
    inline code span. *)
Definition short_match_text : jsstring :=
  js "x {" ++ dq ++ js "a" ++ dq ++ js ":1} y".

Definition short_inline_span : jsstring :=
  js "`{" ++ dq ++ js "a" ++ dq ++ js ":1}`".

(** An array cut before its closing bracket. *)
Definition truncated_array : jsstring := js "[1, 2".

(** The texts of the first and second scenarios: a fenced object, and an
    object written with single quotes, a Python literal and a trailing
    comma. *)
Definition fenced_object : jsstring :=
  js "```json" ++ nl ++ js "{" ++ dq ++ js "a" ++ dq ++ js ": 1}" ++ nl ++ js "```".

Definition python_style_object : jsstring := js "{'a': 1, 'b': True, }".

(** The value of the fifth scenario: an envelope whose response is the
    text of an object with key result and string value ok. *)
Definition string_envelope : json :=
  JObject [(js "response",
            JString (js "{" ++ dq ++ js "result" ++ dq ++ js ":" ++ dq ++ js "ok" ++ dq ++ js "}"))].

(** * The route [POST /api/agent]

    The block of the [POST] handler that turns [data.response], the value
    the upstream service answered with, into [parsedResponse]. *)
Module Route.

(** [/\\n/g], [/\\r/g], [/\\t/g]: a backslash followed by a letter. *)
Definition escaped_n := lit [Patterns.c_bslash; ch "n"].
Definition escaped_r := lit [Patterns.c_bslash; ch "r"].
Definition escaped_t := lit [Patterns.c_bslash; ch "t"].
(** [/^```(?:json|JSON)?\s*\n?/gm] *)
Definition fence_open :=
  cat [Bol; lit (js "```"); Opt (Alt (lit (js "json")) (lit (js "JSON")));
       Star true Space; Opt (Chr c_nl)].
(** [/\n?```\s*$/gm] *)
Definition fence_close := cat [Opt (Chr c_nl); lit (js "```"); Star true Space; Eol].
(** [/\{[\s\S]*\}|\[[\s\S]*\]/] *)
Definition json_anywhere :=
  Alt (cat [Chr (ch "{"); Star true Any; Chr (ch "}")])
      (cat [Chr (ch "["); Star true Any; Chr (ch "]")]).

(** Lines 100-112: the clean-up of the response text. *)
Definition clean (response : jsstring) : jsstring :=
  let cleaned := response in
  let cleaned := replace_all no_flags escaped_n [RText [10%N]] cleaned in
  let cleaned := replace_all no_flags escaped_r [RText [13%N]] cleaned in
  let cleaned := replace_all no_flags escaped_t [RText [9%N]] cleaned in
  let cleaned := replace_all flag_m fence_open [] cleaned in
  let cleaned := replace_all flag_m fence_close [] cleaned in
  trim cleaned.

(** [v && typeof v === 'object']: an object or an array. *)
Definition is_object (v : json) : bool :=
  match v with
  | JObject _ | JArray _ => true
  | _ => false
  end.

(** The options of the call of line 124. *)
Definition advanced_options : options_arg :=
  OptionsObject {| o_attemptFix := Some true; o_maxBlocks := Some 5%Z;
                   o_preferFirst := Some true; o_allowPartial := Some false |}.

(** Lines 98-158, the body of the outer [try], for a response that is the
    string [response]: the value of [parsedResponse] when the body ends. *)
Definition parse_string (response : jsstring) : completion json :=
  let original := JString response in
  let cleaned := clean response in
  match JSON_parse cleaned with
  | Normal directParse =>
      Normal (if is_object directParse then directParse else original)
  | Throw _ =>
      match parseLLMJson (ArgString cleaned) advanced_options with
      | Throw e => Throw e
      | Normal parsed =>
          if is_object parsed then Normal parsed
          else
            match first_match no_flags json_anywhere cleaned with
            | Some jsonMatch =>
                match JSON_parse (m_text jsonMatch) with
                | Normal extracted =>
                    Normal (if is_object extracted then extracted else original)
                | Throw _ =>
                    match parseLLMJson (ArgString (m_text jsonMatch))
                            (only_attemptFix true) with
                    | Throw e => Throw e
                    | Normal lastResort =>
                        Normal (if is_object lastResort then lastResort else original)
                    end
                end
            | None => Normal original
            end
      end
  end.

(** Lines 95-167: [parsedResponse] for the response [data_response]. *)
Definition parsedResponse (data_response : json) : json :=
  match data_response with
  | JString response =>
      match parse_string response with
      | Normal parsed => parsed
      | Throw _ => data_response
      end
  | _ => data_response
  end.

End Route.

(** * The client helpers of [utils/aiAgent.ts] *)
Module Agent.

(** [Number.prototype.toString(16)] on a natural number. *)
Definition hex_digit (d : N) : char :=
  if (d <? 10)%N then (48 + d)%N else (87 + d)%N.

Fixpoint toString16_from (fuel : nat) (v : N) (acc : jsstring) : jsstring :=
  match fuel with
  | O => acc
  | S f =>
      let acc' := hex_digit (v mod 16) :: acc in
      if (v / 16 =? 0)%N then acc' else toString16_from f (v / 16) acc'
  end.

Definition toString16 (v : N) : jsstring :=
  toString16_from (S (N.to_nat (N.log2 v))) v [].

(** [text.replace(r, fn)] with the [g] flag and a function: [fn] is called
    once for each match, in order; [fn i mt] is what the call for the match
    [mt], the [i]-th call, returns. *)
Definition replace_all_with (fl : flags) (r : regex) (fn : nat -> rmatch -> jsstring)
    (text : jsstring) : jsstring :=
  let '(ms, tl) := exec_all fl r text in
  concat (imap (fun i mt => m_skipped mt ++ fn i mt) ms) ++ tl.

Definition uuid_template : jsstring := js "xxxxxxxx-xxxx-4xxx-yxxx-xxxxxxxxxxxx".

(** [/[xy]/g] *)
Definition xy := Class false [CChar (ch "x"); CChar (ch "y")].

(** Lines 40-46.  [random i] is the integer [Math.random() * 16 | 0] of the
    [i]-th call of the function passed to [replace]. *)
Definition generateUUID (random : nat -> N) : jsstring :=
  replace_all_with no_flags xy
    (fun i mt =>
       let c := m_text mt in
       let r := random i in
       let v := if bool_decide (c = js "x") then r else N.lor (N.land r 3) 8 in
       toString16 v)
    uuid_template.

(** [text.split('\n')] *)
Fixpoint split_from (sep : char) (s cur : jsstring) : list jsstring :=
  match s with
  | [] => [rev cur]
  | c :: rest =>
      if (c =? sep)%N then rev cur :: split_from sep rest []
      else split_from sep rest (c :: cur)
  end.

Definition split (sep : char) (s : jsstring) : list jsstring := split_from sep s [].

(** What the helpers read of the result of [callAIAgent]. *)
Record AIAgentResponse := {
  r_success : bool;
  r_response : option json   (* [None] for undefined *)
}.

(** [v.key], for a value that is not null or undefined. *)
Definition property (v : json) (key : string) : option json :=
  match v with
  | JObject fields => obj_get fields (js key)
  | _ => None
  end.

Definition truthy_property (v : json) (key : string) : option json :=
  match property v key with
  | Some p => if truthy p then Some p else None
  | None => None
  end.

(** The text the helpers take from a result: lines 194-200, 214-220,
    234-237 and 257-263, with the text [fallback] they end with. *)
Definition response_text (fallback : jsstring) (result : AIAgentResponse) : option json :=
  match r_response result with
  | Some response =>
      if r_success result && truthy response then
        Some (match response with
              | JString s => JString s
              | _ =>
                  match truthy_property response "message" with
                  | Some m => m
                  | None =>
                      match truthy_property response "response" with
                      | Some r => r
                      | None => JString fallback
                      end
                  end
              end)
      else None
  | None => None
  end.

(** Lines 228-244, after the call of [callAIAgent]. *)
Definition getSuggestions (result : AIAgentResponse) : completion (list jsstring) :=
  match response_text [] result with
  | Some (JString text) =>
      Normal (filter (fun line => (0 <? length (trim line))%nat = true) (split c_nl text))
  | Some _ => Throw TypeError
  | None => Normal []
  end.

End Agent.

(** * Statements of the further properties *)

(** The index of the first opening bracket that stands outside a string
    literal, string literals and escapes being read as the scanner reads
    them. *)
Fixpoint first_opener (inStr esc : bool) (s : jsstring) : option nat :=
  match s with
  | [] => None
  | c :: rest =>
      if esc then S <$> first_opener inStr false rest
      else if (c =? 92)%N then S <$> first_opener inStr true rest
      else if (c =? 34)%N then S <$> first_opener (negb inStr) false rest
      else if negb inStr && is_opener c then Some 0%nat
      else S <$> first_opener inStr false rest
  end.

(** The strings [tryParseJson] hands to [JSON.parse], in the order it tries
    them: the trimmed input and, when [attemptFix] is set, its bracket span,
    its repair, and the bracket span of the repair. *)
Definition parse_sources (opts : ParseOptions) (jsonStr : jsstring) : list jsstring :=
  let cleanJson := trim jsonStr in
  let fixed := repairs (allowPartial opts) cleanJson in
  cleanJson ::
  (if attemptFix opts
   then option_list (findJsonBoundaries (allowPartial opts) cleanJson)
        ++ fixed :: option_list (findJsonBoundaries (allowPartial opts) fixed)
   else []).

(** The value of the first string of a list that [JSON.parse] accepts. *)
Fixpoint first_parse (sources : list jsstring) : option json :=
  match sources with
  | [] => None
  | s :: rest =>
      match JSON_parse s with
      | Normal v => Some v
      | Throw _ => first_parse rest
      end
  end.

Definition parse_failure : ParseResult :=
  {| success := false; data := JNull;
     error := Some "Failed to parse JSON after all attempts"%string |}.

(** One more descent counted in the final state of the unwrapping loop. *)
Definition bump (r : option (json * nat)) : option (json * nat) :=
  match r with
  | Some (v, n) => Some (v, S n)
  | None => None
  end.


(** An envelope whose response is a text that is no JSON and cannot be
    repaired. *)
Definition prose_envelope : json := JObject [(js "response", JString (js "oops"))].

(** ** The engine without its cache

    What each step of the engine yields, written as functions of the text
    alone. *)

(** The value [tryParseJson] recovers from a string. *)
Definition recovered (opts : ParseOptions) (jsonStr : jsstring) : option json :=
  if is_blank jsonStr then None else first_parse (parse_sources opts jsonStr).

(** The unwrapper, by recursion on the bound. *)
Fixpoint unwrapped (opts : ParseOptions) (maxAttempts : nat) (current : json) : json :=
  match maxAttempts with
  | O => current
  | S n =>
      match inspect_json current with
      | ResponseObject r => unwrapped opts n r
      | ResponseString s =>
          match recovered opts s with
          | Some parsed => unwrapped opts n parsed
          | None => current
          end
      | _ => current
      end
  end.

(** The parse of the body of the first fenced block labeled json. *)
Definition fast_block (response : jsstring) : option json :=
  match first_match no_flags Patterns.fastPathPattern response with
  | Some jsonMatch =>
      match group 1 jsonMatch with
      | Some g =>
          match JSON_parse (trim g) with
          | Normal parsed => Some parsed
          | Throw _ => None
          end
      | None => None
      end
  | None => None
  end.

(** The value recovered from the first candidate that yields one. *)
Fixpoint first_recovered (opts : ParseOptions) (candidates : list jsstring) : option json :=
  match candidates with
  | [] => None
  | c :: rest =>
      match recovered opts c with
      | Some v => Some v
      | None => first_recovered opts rest
      end
  end.

(** The value recovered from the bracket span of the whole response, when
    [attemptFix] is set. *)
Definition aggressive_recovered (opts : ParseOptions) (response : jsstring) : option json :=
  if attemptFix opts then
    match findJsonBoundaries (allowPartial opts) response with
    | Some span => if nonempty span then recovered opts span else None
    | None => None
    end
  else None.

(** The stage that answers and the value returned, for a non-blank
    response. *)
Definition outcome (opts : ParseOptions) (response : jsstring) : stage * json :=
  match fast_block response with
  | Some parsed => (FastPath, parsed)
  | None =>
      match recovered opts response with
      | Some v => (WholeInput, unwrapped opts 2 v)
      | None =>
          match first_recovered opts (sortedCandidates opts response) with
          | Some v => (CandidateFallback, unwrapped opts 2 v)
          | None =>
              match aggressive_recovered opts response with
              | Some v => (AggressiveFallback, unwrapped opts 2 v)
              | None => (TotalFailure, failure_record)
              end
          end
      end
  end.

(** A computation that returns [a] from every consistent cache, keeps the
    cache consistent, and leaves it as it is when [attemptFix] is false. *)
Definition yields {A} (opts : ParseOptions) (c : M A) (a : A) : Prop :=
  forall cache, cache_consistent (allowPartial opts) cache ->
    exists cache', c cache = (Normal a, cache')
                   /\ cache_consistent (allowPartial opts) cache'
                   /\ (attemptFix opts = false -> cache' = cache).

(** A cache that holds one entry, the repair of a text that needs none. *)
Definition warm_cache : gmap (list N) (list N) := <[js "oops" := js "oops"]> ∅.

(** Every match of the pattern holds a character that satisfies [p]: the
    pattern is a literal character that satisfies it, or requires one in
    every alternative. *)
Fixpoint needs (p : char -> bool) (r : regex) : bool :=
  match r with
  | Chr c => p c
  | Seq r1 r2 => needs p r1 || needs p r2
  | Alt r1 r2 => needs p r1 && needs p r2
  | Group _ r' => needs p r'
  | _ => false
  end.


(** A reply in prose, and the JSON text of an object whose string value
    holds an escaped newline (a backslash and the letter n). *)
Definition prose_reply : jsstring := js "Hello world".

Definition escaped_newline_reply : jsstring :=
  js "{" ++ dq ++ js "a" ++ dq ++ js ":" ++ dq ++ js "x" ++ [Patterns.c_bslash; ch "n"]
     ++ js "y" ++ dq ++ js "}".

(** A backquote, an opening brace or an opening bracket: the characters
    with which a fenced block, a code span and a bracket span start. *)
Definition is_markup (c : char) : bool := (c =? 96)%N || is_opener c.

(** The characters one of the rewrites of the repair engine looks for:
    U+FEFF, the slash, the hash, the backslash, the comma, the colon, the
    single quote, the full stop, U+2026 and the capital letters T, F, N. *)
Definition is_repair_trigger (c : char) : bool :=
  existsb (fun x => (c =? x)%N)
    [c_bom; ch "/"; ch "#"; Patterns.c_bslash; ch ","; ch ":"; Patterns.c_squote;
     ch "."; c_ellipsis; ch "T"; ch "F"; ch "N"].

(** The shape of a version-4 UUID: 36 characters, hyphens at the indices
    8, 13, 18 and 23, the digit 4 at index 14, one of 8, 9, a, b at index
    19, and lower-case hexadecimal digits elsewhere. *)
Definition is_hex (c : char) : bool := in_range 48 57 c || in_range 97 102 c.

Definition uuid_char (i : nat) (c : char) : bool :=
  if (i =? 8)%nat || (i =? 13)%nat || (i =? 18)%nat || (i =? 23)%nat then (c =? 45)%N
  else if (i =? 14)%nat then (c =? 52)%N
  else if (i =? 19)%nat then
    (c =? 56)%N || (c =? 57)%N || (c =? 97)%N || (c =? 98)%N
  else is_hex c.

Fixpoint uuid_chars (i : nat) (u : jsstring) : bool :=
  match u with
  | [] => true
  | c :: rest => uuid_char i c && uuid_chars (S i) rest
  end.

Definition uuid_v4 (u : jsstring) : bool :=
  (length u =? 36)%nat && uuid_chars 0 u.

(** [lines.join(sep)] for a one-character separator. *)
Fixpoint join (sep : char) (lines : list jsstring) : jsstring :=
  match lines with
  | [] => []
  | line :: rest =>
      match rest with
      | [] => line
      | _ :: _ => line ++ sep :: join sep rest
      end
  end.

(** The lines of a text: there is at least one, none holds a newline, and
    joined by newlines they give the text. *)
Definition lines_of (text : jsstring) (lines : list jsstring) : Prop :=
  lines <> []
  /\ Forall (fun line => existsb (fun c => (c =? c_nl)%N) line = false) lines
  /\ join c_nl lines = text.

(** The result of [getSuggestions] is the list of the lines of the text
    that are not blank, in their order. *)
Definition suggestions_from (text : jsstring) (result : Agent.AIAgentResponse) : Prop :=
  exists all_lines,
    lines_of text all_lines
    /\ Agent.getSuggestions result
       = Normal (filter (fun line => trim line <> []) all_lines).


(** The options object with its [preferFirst] field replaced. *)
Definition set_preferFirst (b : option bool) (o : options_object) : options_object :=
  {| o_attemptFix := o_attemptFix o; o_maxBlocks := o_maxBlocks o;
     o_preferFirst := b; o_allowPartial := o_allowPartial o |}.

(** Parsed options that agree on every field but [preferFirst]. *)
Definition same_but_preferFirst (a b : ParseOptions) : Prop :=
  attemptFix a = attemptFix b /\ maxBlocks a = maxBlocks b
  /\ allowPartial a = allowPartial b.

(** * Properties *)

(** ** The fuel of the parser and of the matcher is enough *)

Lemma parse_shorter f :
  (forall ts v r, parse_value f ts = Some (v, r) -> (length r < length ts)%nat)
  /\ (forall ts acc v r, parse_elements f ts acc = Some (v, r) ->
        (length r < length ts)%nat)
  /\ (forall ts acc v r, parse_members f ts acc = Some (v, r) ->
        (length r < length ts)%nat).
Proof.
  induction f as [|f (IHv & IHe & IHm)]; [done|]. repeat split.
  - intros ts v r. simpl.
    destruct ts as [|[] ts]; try done; try (intros [= _ <-]; simpl; lia).
    + destruct ts as [|[] ts]; try done;
        try (intros H%IHm; simpl in *; lia).
      intros [= _ <-]. simpl. lia.
    + destruct ts as [|[] ts]; try done;
        try (intros H%IHe; simpl in *; lia).
      intros [= _ <-]. simpl. lia.
  - intros ts acc v r. simpl.
    destruct (parse_value f ts) as [[v1 [|[] r1]]|] eqn:Hv; try done;
      apply IHv in Hv; simpl in Hv.
    + intros [= _ <-]. lia.
    + intros H%IHe. lia.
  - intros ts acc v r. simpl.
    destruct ts as [|[] [|[] ts]]; try done.
    destruct (parse_value f ts) as [[v1 [|[] r1]]|] eqn:Hv; try done;
      apply IHv in Hv; simpl in *.
    + intros [= _ <-]. lia.
    + intros H%IHm. lia.
Qed.

Lemma parse_fuel f1 :
  forall f2,
  (forall ts, (2 * length ts <= f1)%nat -> (2 * length ts <= f2)%nat ->
      parse_value f1 ts = parse_value f2 ts)
  /\ (forall ts acc, (2 * length ts + 1 <= f1)%nat -> (2 * length ts + 1 <= f2)%nat ->
        parse_elements f1 ts acc = parse_elements f2 ts acc)
  /\ (forall ts acc, (2 * length ts <= f1)%nat -> (2 * length ts <= f2)%nat ->
        parse_members f1 ts acc = parse_members f2 ts acc).
Proof.
  induction f1 as [|f1 IH]; intros f2.
  { repeat split; intros ts; intros; destruct ts; simpl in *; try lia;
      by destruct f2. }
  destruct f2 as [|f2].
  { repeat split; intros ts; intros; destruct ts; simpl in *; try lia; done. }
  destruct (IH f2) as (IHv & IHe & IHm).
  destruct (parse_shorter f1) as (Sv & _ & _).
  repeat split.
  - intros ts H1 H2. simpl.
    destruct ts as [|[] ts]; try done.
    + destruct ts as [|[] ts]; try done; apply IHm; simpl in *; lia.
    + destruct ts as [|[] ts]; try done; apply IHe; simpl in *; lia.
  - intros ts acc H1 H2. simpl.
    rewrite <- (IHv ts) by lia.
    destruct (parse_value f1 ts) as [[v1 [|[] r1]]|] eqn:Hv; try done.
    apply Sv in Hv. simpl in Hv. apply IHe; lia.
  - intros ts acc H1 H2. simpl.
    destruct ts as [|[] [|[] ts]]; try done. simpl in *.
    rewrite <- (IHv ts) by lia.
    destruct (parse_value f1 ts) as [[v1 [|[] r1]]|] eqn:Hv; try done.
    apply Sv in Hv. simpl in Hv. apply IHm; lia.
Qed.

(** More fuel never changes what [JSON.parse] returns. *)
Lemma parse_value_enough f ts :
  (2 * length ts < f)%nat ->
  parse_value f ts = parse_value (S (2 * length ts)) ts.
Proof. intros H. apply parse_fuel; lia. Qed.

(** A match never ends before the position where it started. *)
Lemma star_loop_advances body greedy :
  (forall st k res, body st k = Some res ->
     exists st', (length (after st') <= length (after st))%nat /\ k st' = Some res) ->
  forall fuel st k res,
    star_loop body greedy fuel st k = Some res ->
    exists st', (length (after st') <= length (after st))%nat /\ k st' = Some res.
Proof.
  intros Hbody. induction fuel as [|fuel IH]; intros st k res; simpl.
  { intros H. by exists st. }
  set (iter := body st _).
  assert (Hiter : iter = Some res ->
    exists st', (length (after st') <= length (after st))%nat /\ k st' = Some res).
  { intros (st1 & Hlen & H1)%Hbody.
    destruct (_ <? _)%nat; [|done].
    apply IH in H1 as (st' & Hlen' & Hk). exists st'. split; [lia|done]. }
  destruct greedy.
  - destruct iter as [r|] eqn:E; [intros [= ->]; by apply Hiter|].
    intros H. by exists st.
  - destruct (k st) as [r|] eqn:E; [intros [= ->]; by exists st|].
    apply Hiter.
Qed.

Lemma run_advances fl r : forall st k res,
  run fl r st k = Some res ->
  exists st', (length (after st') <= length (after st))%nat /\ k st' = Some res.
Proof.
  assert (Hstep : forall p st k res, step_char p st k = Some res ->
    exists st', (length (after st') <= length (after st))%nat /\ k st' = Some res).
  { intros p st k res. unfold step_char.
    destruct (after st) as [|c rest] eqn:E; [done|].
    destruct (p c); [|done]. intros H. eexists. split; [|exact H]. simpl. lia. }
  induction r as [| | | |r1 IH1 r2 IH2|r1 IH1 r2 IH2|greedy r IH|n r IH| | |];
    intros st k res; cbn [run]; try apply Hstep.
  - intros H. by exists st.
  - intros (st1 & Hlen1 & (st2 & Hlen2 & H)%IH2)%IH1.
    exists st2. split; [lia|done].
  - destruct (run fl r1 st k) as [x|] eqn:E; [intros [= ->]; by apply IH1|].
    apply IH2.
  - by apply star_loop_advances.
  - intros (st1 & Hlen & H)%IH. eexists. split; [|exact H]. done.
  - destruct (at_bol fl st); [|done]. intros H. by exists st.
  - destruct (at_eol fl st); [|done]. intros H. by exists st.
  - destruct (at_word_boundary st); [|done]. intros H. by exists st.
Qed.

Lemma search_advances fl r aft : forall bef bef' aft' st',
  search fl r bef aft = Some (bef', aft', st') ->
  (length (after st') <= length aft' <= length aft)%nat.
Proof.
  induction aft as [|c aft IH]; intros bef bef' aft' st'; simpl.
  - destruct (run fl r (MState bef [] []) Some) as [st|] eqn:Hrun; [|done].
    intros [= <- <- <-]. apply run_advances in Hrun as (st1 & Hlen & [= ->]).
    simpl in *. lia.
  - destruct (run fl r (MState bef (c :: aft) []) Some) as [st|] eqn:Hrun.
    + intros [= <- <- <-]. apply run_advances in Hrun as (st1 & Hlen & [= ->]).
      simpl in *. lia.
    + intros H%IH. simpl. lia.
Qed.

(** The enumeration of the matches does not depend on its fuel, once the
    fuel exceeds the length of the text by more than one. *)
Lemma exec_from_fuel fl r f1 : forall f2 pending bef aft,
  (length aft + 1 < f1)%nat -> (length aft + 1 < f2)%nat ->
  exec_from fl r f1 pending bef aft = exec_from fl r f2 pending bef aft.
Proof.
  induction f1 as [|f1 IH]; intros f2 pending bef aft H1 H2; [lia|].
  destruct f2 as [|f2]; [lia|]. simpl.
  destruct (search fl r bef aft) as [[[bef' aft'] st']|] eqn:Hs; [|done].
  apply search_advances in Hs.
  destruct (take _ aft') as [|x text] eqn:Htext.
  - destruct (after st') as [|c rest] eqn:Hafter; [done|].
    simpl in Hs. rewrite (IH f2) by lia. done.
  - assert (length (after st') < length aft')%nat.
    { destruct (decide (length (after st') = length aft')) as [Heq|]; [|lia].
      rewrite Heq, Nat.sub_diag in Htext. done. }
    rewrite (IH f2) by lia. done.
Qed.

Lemma star_loop_local body greedy :
  local_body body -> forall fuel, local_body (star_loop body greedy fuel).
Proof.
  intros Hbody. induction fuel as [|fuel IH]; intros st k1 k2 Hk; simpl.
  { by apply Hk. }
  rewrite (Hk st) by done.
  rewrite (Hbody st _ (fun st' =>
    if (length (after st') <? length (after st))%nat
    then star_loop body greedy fuel st' k2 else None)); [done|].
  intros st' Hlen. destruct (_ <? _)%nat; [|done].
  apply IH. intros st'' Hlen'. apply Hk. lia.
Qed.

Lemma run_local fl r : local_body (run fl r).
Proof.
  assert (Hstep : forall p, local_body (step_char p)).
  { intros p st k1 k2 Hk. unfold step_char.
    destruct (after st) as [|c rest] eqn:E; [done|].
    destruct (p c); [|done]. apply Hk. simpl. lia. }
  induction r as [| | | |r1 IH1 r2 IH2|r1 IH1 r2 IH2|greedy r IH|n r IH| | |];
    intros st k1 k2 Hk; cbn [run]; try (by apply Hstep);
    try (by rewrite (Hk st)).
  - apply IH1. intros st' Hlen. apply IH2. intros st'' Hlen'. apply Hk. lia.
  - by rewrite (IH1 st k1 k2), (IH2 st k1 k2).
  - by apply star_loop_local.
  - apply IH. intros st' Hlen. by apply Hk.
Qed.

(** A star does not depend on its fuel, once the fuel exceeds the length of
    the remaining text. *)
Lemma star_loop_fuel body greedy :
  local_body body ->
  forall f1 f2 st k,
    (length (after st) < f1)%nat -> (length (after st) < f2)%nat ->
    star_loop body greedy f1 st k = star_loop body greedy f2 st k.
Proof.
  intros Hbody. induction f1 as [|f1 IH]; intros f2 st k H1 H2; [lia|].
  destruct f2 as [|f2]; [lia|]. simpl.
  rewrite (Hbody st _ (fun st' =>
    if (length (after st') <? length (after st))%nat
    then star_loop body greedy f2 st' k else None)); [done|].
  intros st' _. destruct (Nat.ltb_spec (length (after st')) (length (after st))); [|done].
  apply IH; lia.
Qed.

(** ** Computations that never throw *)

Lemma total_ret {A} (a : A) : total (ret a).
Proof. intros cache. by exists a, cache. Qed.

Lemma total_bind {A B} (c : M A) (k : A -> M B) :
  total c -> (forall a, total (k a)) -> total (bind c k).
Proof.
  intros Hc Hk cache. unfold bind.
  destruct (Hc cache) as (a & cache' & ->). apply Hk.
Qed.

Lemma total_try_catch {A} (body : M A) (handler : js_error -> M A) :
  (forall e, total (handler e)) -> total (try_catch body handler).
Proof.
  intros Hh cache. unfold try_catch.
  destruct (body cache) as [[a|e] cache'].
  - by exists a, cache'.
  - apply Hh.
Qed.

Lemma total_fix allowPartial jsonStr : total (fixCommonJsonIssues allowPartial jsonStr).
Proof.
  intros cache. unfold fixCommonJsonIssues.
  destruct (cache !! jsonStr); eauto.
Qed.

Lemma total_attempt s : total (attempt s).
Proof. apply total_try_catch. intros _. apply total_ret. Qed.

Lemma total_attempt_span (span : option (list N)) :
  total (match span with
         | Some b => if nonempty b then attempt b else ret None
         | None => ret None
         end).
Proof.
  destruct span as [b|]; [destruct (nonempty b)|];
    auto using total_attempt, total_ret.
Qed.

Lemma total_tryParseJson opts jsonStr : total (tryParseJson opts jsonStr).
Proof.
  unfold tryParseJson.
  destruct (_ || _); [apply total_ret|].
  apply total_bind; [apply total_attempt|].
  intros [r|]; [apply total_ret|].
  apply total_bind.
  - destruct (attemptFix opts); [|apply total_ret].
    apply total_bind; [apply total_attempt_span|].
    intros [r|]; [apply total_ret|].
    apply total_bind; [apply total_fix|].
    intros fixed. apply total_try_catch. intros _.
    apply total_attempt_span.
  - intros [r|]; apply total_ret.
Qed.

Section UnwrapTotal.
Context {V : Type}.
Variable inspect : V -> response_view V.
Variable of_json : json -> V.
Variable opts : ParseOptions.

Lemma total_unwrap_body maxAttempts st :
  total (unwrap_body inspect of_json opts maxAttempts st).
Proof.
  destruct st as [current attempts]. unfold unwrap_body.
  destruct (_ <? _)%nat; [|apply total_ret].
  destruct (inspect current); try apply total_ret.
  apply total_bind; [apply total_tryParseJson|].
  intros parsed. destruct (success parsed); apply total_ret.
Qed.

(** A step of the loop that goes on has counted one more descent, and
    only below the bound. *)
Lemma unwrap_body_step maxAttempts current attempts cache next cache' :
  unwrap_body inspect of_json opts maxAttempts (current, attempts) cache
    = (Normal (Some next), cache') ->
  snd next = S attempts /\ (attempts < maxAttempts)%nat.
Proof.
  unfold unwrap_body.
  destruct (attempts <? maxAttempts)%nat eqn:Hlt; [|discriminate].
  apply Nat.ltb_lt in Hlt.
  destruct (inspect current); unfold ret, bind; try discriminate.
  - destruct (tryParseJson opts s cache) as [[parsed|e] c1]; [|discriminate].
    destruct (success parsed); [|discriminate].
    intros [= <- <-]. done.
  - intros [= <- <-]. done.
Qed.

Lemma unwrap_loop_from maxAttempts fuel current attempts cache :
  (attempts <= maxAttempts)%nat ->
  (maxAttempts - attempts < fuel)%nat ->
  exists final n cache',
    while_loop fuel (unwrap_body inspect of_json opts maxAttempts)
      (current, attempts) cache = (Normal (Some (final, n)), cache')
    /\ (attempts <= n <= maxAttempts)%nat.
Proof.
  revert current attempts cache.
  induction fuel as [|fuel IH]; intros current attempts cache Hle Hfuel; [lia|].
  cbn [while_loop]. unfold bind at 1.
  destruct (total_unwrap_body maxAttempts (current, attempts) cache)
    as (next & c1 & Hbody).
  rewrite Hbody. destruct next as [[current' attempts']|].
  - apply unwrap_body_step in Hbody as [Hn Hlt]. simpl in Hn. subst attempts'.
    destruct (IH current' (S attempts) c1) as (final & n & c2 & Hrun & Hn);
      [lia|lia|].
    exists final, n, c2. split; [done|lia].
  - exists current, attempts, c1. split; [done|lia].
Qed.
End UnwrapTotal.

Lemma total_unwrapResponse opts data maxAttempts :
  total (unwrapResponse opts data maxAttempts).
Proof.
  intros cache. unfold unwrapResponse, unwrapResponse_on, unwrap_loop, bind.
  destruct (unwrap_loop_from inspect_json (fun v => v) opts maxAttempts
              (S maxAttempts) data 0%nat cache) as (final & n & c' & -> & _);
    [lia|lia|].
  by eexists _, _.
Qed.

Lemma total_fast_path response : total (fast_path response).
Proof. apply total_try_catch. intros _. apply total_ret. Qed.

Lemma total_try_candidates opts cands : total (try_candidates opts cands).
Proof.
  induction cands as [|jsonStr rest IH]; simpl; [apply total_ret|].
  apply total_bind; [apply total_tryParseJson|].
  intros result. destruct (success result); [|done].
  apply total_bind; [apply total_unwrapResponse|]. intros v. apply total_ret.
Qed.

Lemma total_aggressive opts response : total (aggressive opts response).
Proof.
  unfold aggressive.
  destruct (attemptFix opts); [|apply total_ret].
  destruct (findJsonBoundaries _ _) as [span|]; [|apply total_ret].
  destruct (nonempty span); [|apply total_ret].
  apply total_bind; [apply total_tryParseJson|].
  intros result. destruct (success result); [|apply total_ret].
  apply total_bind; [apply total_unwrapResponse|]. intros v. apply total_ret.
Qed.

Lemma total_pipeline opts response : total (pipeline opts response).
Proof.
  unfold pipeline.
  apply total_bind; [apply total_fast_path|].
  intros [parsed|]; [apply total_ret|].
  apply total_bind; [apply total_tryParseJson|].
  intros directResult. destruct (success directResult).
  - apply total_bind; [apply total_unwrapResponse|]. intros v. apply total_ret.
  - apply total_bind; [apply total_try_candidates|].
    intros [v|]; [apply total_ret|].
    apply total_bind; [apply total_aggressive|].
    intros [v|]; apply total_ret.
Qed.

(** ** The result unwrapper terminates within its bound *)

(** C7.  For every representation of values (trees or cyclic graphs),
    every value, every bound [maxAttempts] and every state of the cache, the
    loop of [unwrapResponse] stops by itself, having made a number of
    envelope descents that is at most [maxAttempts], and the function
    returns the value reached. *)
Theorem C7_unwrap_terminates :
  forall (V : Type) (inspect : V -> response_view V) (of_json : json -> V)
         (opts : ParseOptions) (data : V) (maxAttempts : nat)
         (cache : gmap (list N) (list N)),
  exists final descents cache',
    unwrap_loop inspect of_json opts data maxAttempts cache
      = (Normal (Some (final, descents)), cache')
    /\ (descents <= maxAttempts)%nat
    /\ unwrapResponse_on inspect of_json opts data maxAttempts cache
      = (Normal final, cache').
Proof.
  intros V inspect of_json opts data maxAttempts cache.
  destruct (unwrap_loop_from inspect of_json opts maxAttempts
              (S maxAttempts) data 0%nat cache) as (final & n & c' & Hrun & Hn);
    [lia|lia|].
  exists final, n, c'. split; [exact Hrun|]. split; [lia|].
  unfold unwrapResponse_on, bind. unfold unwrap_loop. by rewrite Hrun.
Qed.

(** A self-referential envelope, [o.response === o]: the loop makes exactly
    [maxAttempts] descents and stops. *)
Example unwrap_cyclic_envelope :
  unwrap_loop (fun o : unit => ResponseObject o) (fun _ => tt) default_options tt 2 ∅
    = (Normal (Some (tt, 2%nat)), ∅).
Proof. reflexivity. Qed.

(** ** Numbers that round to zero

    The literal [1e-400] denotes a decimal below half the least positive
    double: [JSON.parse] gives zero for it, which is falsy.  The least
    decimal of three digits that is truthy is [3e-324]. *)
Example tiny_number_is_falsy :
  JSON_parse (js "1e-400") = Normal (JNumber 1 (-400))
  /\ truthy (JNumber 1 (-400)) = false
  /\ truthy (JNumber 2 (-324)) = false
  /\ truthy (JNumber 3 (-324)) = true
  /\ truthy (JNumber 0 0) = false
  /\ truthy (JNumber 1 0) = true.
Proof. repeat split; vm_compute; reflexivity. Qed.

(** ** Exceptions

    With options read without a throw the embedded engine completes
    normally on every input (the matcher has no resource limit), and it
    returns null for null, for undefined, for an input that has no string
    form, and for an input whose string form is empty or all white space;
    null is not the failure record. *)
Lemma data_options_complete (response : js_arg) (options : options_arg) :
  (exists v, parseLLMJson response options = Normal v)
  /\ parseLLMJson ArgNull options = Normal JNull
  /\ parseLLMJson ArgUndefined options = Normal JNull
  /\ (normalize_input response = None -> parseLLMJson response options = Normal JNull)
  /\ (forall s, normalize_input response = Some s -> trim s = [] ->
        parseLLMJson response options = Normal JNull)
  /\ JNull <> failure_record.
Proof.
  repeat split; try done.
  - unfold parseLLMJson, parseLLMJson_staged.
    destruct (normalize_input response) as [s|]; [|by eexists].
    destruct (is_blank s); [by eexists|].
    destruct (total_pipeline (normalize_options options) s ∅) as ([st v] & c' & ->).
    by eexists.
  - intros Hnone. unfold parseLLMJson, parseLLMJson_staged. by rewrite Hnone.
  - intros s Hs Hblank. unfold parseLLMJson, parseLLMJson_staged.
    rewrite Hs. unfold is_blank. rewrite Hblank. simpl.
    by rewrite orb_true_r.
Qed.

(** A call whose options hold data properties only is the engine on those
    options. *)
Lemma call_with_data_options (response : js_arg) (options : options_arg) :
  parseLLMJson_call response (data_options options) = parseLLMJson response options.
Proof. by destruct options as [|[a m f ap]]. Qed.

(** C8.  The call throws whenever reading one of the four options throws,
    whatever the input is: the destructuring of lines 13-18 comes before
    the checks of the input and stands outside every [try].  With an
    options object whose [attemptFix] getter throws, the call throws for
    the null input and for a blank string, for which the claim promises
    null, and for a valid JSON text. *)
Theorem C8_throwing_option_escapes :
  parseLLMJson_call ArgNull throwing_options = Throw TypeError
  /\ parseLLMJson_call (ArgString (js "  ")) throwing_options = Throw TypeError
  /\ parseLLMJson_call (ArgString (js "{}")) throwing_options = Throw TypeError
  /\ (forall response p e,
        read_options (AnObject p) = Throw e ->
        parseLLMJson_call response (AnObject p) = Throw e)
  /\ (forall p e,
        get_attemptFix p = Throw e
        \/ get_maxBlocks p = Throw e
        \/ get_preferFirst p = Throw e
        \/ get_allowPartial p = Throw e ->
        exists e', read_options (AnObject p) = Throw e').
Proof.
  repeat split; try reflexivity.
  - intros response p e Hread. unfold parseLLMJson_call. by rewrite Hread.
  - intros [a m f ap] e. cbn [read_options get_attemptFix get_maxBlocks
                              get_preferFirst get_allowPartial].
    intros [H|[H|[H|H]]]; rewrite H; destruct a; try (by eexists);
      destruct m; try (by eexists); destruct f; by eexists.
Qed.

(** ** The boundary scanner *)

Lemma scan_unclosed chars :
  forall i st,
    end_ st = (-1)%Z ->
    (start st = (-1)%Z -> (depth st <= 0)%Z) ->
    (0 <= i)%Z ->
    (depth (scan chars i st) > 0)%Z ->
    end_ (scan chars i st) = (-1)%Z /\ start (scan chars i st) <> (-1)%Z.
Proof.
  induction chars as [|c rest IH]; intros i st Hend Hstart Hi; simpl.
  - intros Hd. split; [done|]. intros Hs. apply Hstart in Hs. lia.
  - destruct (scan_step c i st) as [st1 brk] eqn:Hstep.
    unfold scan_step in Hstep.
    repeat match type of Hstep with
           | (if ?b then _ else _) = _ => destruct b eqn:?
           | (let d := _ in _) = _ => cbv zeta in Hstep
           end; injection Hstep as <- <-; simpl;
      try (apply IH; simpl; auto; lia).
    + apply IH; simpl; auto; try lia.
      destruct (start st =? -1)%Z eqn:Hs; [lia|].
      apply Z.eqb_neq in Hs. intros; lia.
    + match goal with H : (_ && _) = true |- _ =>
        apply andb_true_iff in H as [Hd _]; apply Z.eqb_eq in Hd end. lia.
Qed.

(** C10.  With [allowPartial] set, when the scan ends with a positive depth
    the function returns the text from the first opening bracket on with the
    single character [}] appended, whatever the kind of the unclosed
    bracket; the returned span therefore ends in [}], also for a truncated
    array. *)
Theorem C10_partial_appends_brace (text : jsstring) :
  (depth (scan text 0 scan_init) > 0)%Z ->
  findJsonBoundaries true text
    = Some (substring_from text (Z.to_nat (start (scan text 0 scan_init))) ++ [ch "}"])
  /\ exists body, findJsonBoundaries true text = Some (body ++ [ch "}"])
                  /\ last (body ++ [ch "}"]) = Some (ch "}").
Proof.
  intros Hd.
  destruct (scan_unclosed text 0 scan_init) as [Hend Hstart]; try done.
  assert (Hres : findJsonBoundaries true text
    = Some (substring_from text (Z.to_nat (start (scan text 0 scan_init))) ++ [ch "}"])).
  { unfold findJsonBoundaries. rewrite Hend. simpl.
    rewrite andb_false_r.
    destruct (start (scan text 0 scan_init) =? -1)%Z eqn:Hs;
      [apply Z.eqb_eq in Hs; done|].
    simpl. apply Z.gt_lt, Z.gtb_lt in Hd. by rewrite Hd. }
  split; [exact Hres|].
  eexists. split; [exact Hres|]. by rewrite last_snoc.
Qed.

Lemma C10_partial_appends_brace_witness :
  findJsonBoundaries true truncated_array = Some (js "[1, 2}").
Proof.
  exact (proj1 (C10_partial_appends_brace truncated_array eq_refl)).
Defined.

(** The cases of one step of the scanner. *)
Ltac scan_cases Hstep :=
  unfold scan_step in Hstep;
  repeat match type of Hstep with
         | (if ?b then _ else _) = _ => destruct b eqn:?
         | (let d := _ in _) = _ => cbv zeta in Hstep
         end;
  injection Hstep as <- <-.

Lemma scan_start_kept chars : forall i st,
  start st <> (-1)%Z -> start (scan chars i st) = start st.
Proof.
  induction chars as [|c rest IH]; intros i st Hs; simpl; [done|].
  destruct (scan_step c i st) as [st1 brk] eqn:Hstep.
  scan_cases Hstep; try done; try (rewrite IH; simpl; done).
  rewrite IH; simpl; destruct (Z.eqb_spec (start st) (-1)); done.
Qed.







(** C3.  On the text [}{{}] with [allowPartial] false the scanner returns
    the span [{{}], whose first opening bracket is never closed: the closing
    bracket that precedes the span took the depth to -1, and the scan stops
    where the depth comes back to 0. *)
Theorem C3_unmatched_span_returned :
  findJsonBoundaries false stray_closer_input = Some (js "{{}")
  /\ brackets_matched (js "{{}") = false
  /\ open_depth false false 0 (js "{{}") = Some 1%nat
  /\ depth (scan (js "}") 0 scan_init) = (-1)%Z.
Proof. repeat split; vm_compute; reflexivity. Qed.

(** ** Scenarios of the orchestrator *)

(** C5.  On a fenced block labeled json whose body is an envelope, the fast
    path fires and returns the parse of the body as it is, where the
    unwrapper would have descended to the inner value, as the whole-input
    path does on the same body without the fence. *)
Theorem C5_fast_path_skips_unwrapper :
  parseLLMJson_staged (ArgString fenced_envelope) OptionsInvalid
    = Normal (FastPath, envelope_value)
  /\ JSON_parse envelope_text = Normal envelope_value
  /\ fst (unwrapResponse default_options envelope_value 2 ∅) = Normal inner_value
  /\ parseLLMJson_staged (ArgString envelope_text) OptionsInvalid
    = Normal (WholeInput, inner_value)
  /\ envelope_value <> inner_value.
Proof. repeat split; try (vm_compute; reflexivity). discriminate. Qed.

(** The first, second and fifth scenarios of the specification. *)
Example scenario_fenced_object :
  parseLLMJson_staged (ArgString fenced_object) OptionsInvalid
    = Normal (FastPath, inner_value).
Proof. vm_compute. reflexivity. Qed.

Example scenario_python_style_object :
  repairs false python_style_object
    = js "{" ++ dq ++ js "a" ++ dq ++ js ": 1, " ++ dq ++ js "b" ++ dq ++ js ": true }"
  /\ parseLLMJson (ArgString python_style_object) OptionsInvalid
    = Normal (JObject [(js "a", JNumber 1 0); (js "b", JBool true)]).
Proof. split; vm_compute; reflexivity. Qed.

Example scenario_string_envelope :
  fst (unwrapResponse default_options string_envelope 2 ∅)
    = Normal (JObject [(js "result", JString (js "ok"))]).
Proof. vm_compute. reflexivity. Qed.

(** C6.  On the truncated text, without [allowPartial] nothing is recovered
    and the failure record is returned; with [allowPartial] the repair
    engine closes the string literal, the boundary scanner closes the
    object, and the object with name Jo is returned. *)
Theorem C6_truncated_string :
  parseLLMJson (ArgString truncated_input) (only_allowPartial false)
    = Normal failure_record
  /\ parseLLMJson (ArgString truncated_input) (only_allowPartial true)
    = Normal (JObject [(js "name", JString (js "Jo"))])
  /\ repairs true truncated_input = truncated_input ++ dq
  /\ findJsonBoundaries true (truncated_input ++ dq)
    = Some (truncated_input ++ dq ++ js "}").
Proof. repeat split; vm_compute; reflexivity. Qed.

(** ** The repair engine *)


Lemma cache_consistent_empty allowPartial : cache_consistent allowPartial ∅.
Proof. intros k v. by rewrite lookup_empty. Qed.








(** The text of the witness is rewritten by the engine: the key is quoted,
    the trailing comma removed and the open string closed. *)
Example unquoted_key_repaired :
  repairs true unquoted_key_text
  = js "{" ++ dq ++ js "a" ++ dq ++ js ":[1]," ++ dq ++ js "b" ++ dq ++ js ":"
       ++ dq ++ js "x}" ++ dq.
Proof. vm_compute. reflexivity. Qed.

(** ** Candidate order *)

Section SortByKey.
Context {A : Type}.
Variable cmp : A -> A -> Z.
Variable key : A -> Z.
Hypothesis cmp_key : forall a b, (cmp a b <= 0)%Z <-> (key a <= key b)%Z.

Let R (a b : A) : Prop := (key a <= key b)%Z.

Lemma sort_insert_hd x y l :
  R y x -> HdRel R y l -> HdRel R y (sort_insert cmp x l).
Proof using Type.
  intros Hyx Hhd. destruct l as [|z l]; simpl; [by constructor|].
  destruct (cmp x z <=? 0)%Z; constructor; [done|].
  by inversion Hhd.
Qed.

Lemma sort_insert_sorted x l :
  Sorted R l -> Sorted R (sort_insert cmp x l).
Proof using cmp_key.
  induction 1 as [|y l Hs IH Hhd]; simpl; [by repeat constructor|].
  destruct (cmp x y <=? 0)%Z eqn:Hc.
  - apply Z.leb_le, cmp_key in Hc. by repeat constructor.
  - apply Z.leb_gt in Hc.
    constructor; [exact IH|]. apply sort_insert_hd; [|done].
    unfold R. destruct (Z.le_gt_cases (key x) (key y)) as [Hle|Hgt]; [|lia].
    apply cmp_key in Hle. lia.
Qed.

Lemma js_sort_sorted l : Sorted R (js_sort cmp l).
Proof using cmp_key.
  induction l as [|x l IH]; simpl; [constructor|].
  by apply sort_insert_sorted.
Qed.
End SortByKey.

Lemma sort_insert_perm {A} (cmp : A -> A -> Z) x l :
  Permutation (sort_insert cmp x l) (x :: l).
Proof.
  induction l as [|y l IH]; simpl; [done|].
  destruct (cmp x y <=? 0)%Z; [done|].
  rewrite IH. apply perm_swap.
Qed.

Lemma js_sort_perm {A} (cmp : A -> A -> Z) l : Permutation (js_sort cmp l) l.
Proof.
  induction l as [|x l IH]; simpl; [done|].
  rewrite sort_insert_perm. by constructor.
Qed.

(** On the scenario text the first object is returned also when
    [preferFirst] is false, from the boundary-scoped parse of the whole
    input.  On the second text, with [preferFirst] true, the extractor ranks
    the inline span (class 3) before the raw array (class 4) and both parse,
    but the fallback tries the longer one first and returns it. *)
Lemma C4_preferFirst_counterexample :
  (parseLLMJson_staged (ArgString two_objects) (only_preferFirst false)
     = Normal (WholeInput, obj_x 1)
   /\ findJsonBoundaries false two_objects
     = Some (js "{" ++ dq ++ js "x" ++ dq ++ js ": 1}")
   /\ obj_x 1 <> obj_x 2)
  /\ (extract_results default_options span_then_array
        = [Candidate (js "[1]") 3; Candidate (js "[1, 2, 3, 4, 5]") 4]
      /\ sortedCandidates default_options span_then_array
        = [js "[1, 2, 3, 4, 5]"; js "[1]"]
      /\ fst (tryParseJson default_options (js "[1]") ∅)
        = Normal (parsed_ok (JArray [JNumber 1 0]))
      /\ parseLLMJson_staged (ArgString span_then_array) (only_preferFirst true)
        = Normal (CandidateFallback, array_1_to_5)).
Proof.
  split; [repeat split; try (vm_compute; reflexivity); discriminate|].
  repeat split; vm_compute; reflexivity.
Qed.

(** C4, amended.  On the scenario text with [preferFirst] true the first
    object is returned.  In general, with [preferFirst] true the extractor
    returns its candidates by ascending priority; the fallback then tries
    the same candidates by descending length. *)
Theorem C4_candidate_order (opts : ParseOptions) (text : jsstring) :
  parseLLMJson (ArgString two_objects) (only_preferFirst true) = Normal (obj_x 1)
  /\ (preferFirst opts = true ->
      Sorted (fun a b => (priority a <= priority b)%Z) (extract_results opts text))
  /\ Sorted (fun a b => (length b <= length a)%nat) (sortedCandidates opts text)
  /\ Permutation (sortedCandidates opts text) (extractJson opts text).
Proof.
  split; [vm_compute; reflexivity|]. split; [|split].
  - intros Hpf. unfold extract_results. rewrite Hpf.
    apply (js_sort_sorted _ priority). intros a b. lia.
  - unfold sortedCandidates.
    eapply Sorted_ind with (P := fun l => Sorted _ l);
      [constructor| |
       apply (js_sort_sorted by_length_desc (fun a => (- Z.of_nat (length a))%Z));
       unfold by_length_desc; intros a b; lia].
    intros a l _ IH Hhd. constructor; [exact IH|].
    destruct Hhd; constructor. lia.
  - apply js_sort_perm.
Qed.

Lemma C4_candidate_order_witness :
  Sorted (fun a b => (priority a <= priority b)%Z)
         (extract_results default_options span_then_array).
Proof.
  apply (proj1 (proj2 (C4_candidate_order default_options span_then_array))).
  reflexivity.
Defined.

(** ** Short brace and bracket matches *)

Lemma collect_Forall (P : candidate -> Prop) maxBlocks accept prio ms :
  forall results,
    Forall P results ->
    (forall mt c, In mt ms -> option_map trim (group 1 mt) = Some c ->
                  accept c = true -> P (Candidate c prio)) ->
    Forall P (collect maxBlocks accept prio ms results).
Proof.
  induction ms as [|mt rest IH]; intros results Hres Hnew; simpl; [done|].
  destruct (_ >=? _)%Z; [done|].
  destruct (option_map trim (group 1 mt)) as [c|] eqn:Hc.
  - destruct (nonempty c && accept c) eqn:Hacc.
    + apply IH.
      * apply Forall_app; split; [done|]. constructor; [|constructor].
        apply andb_true_iff in Hacc as [_ Hacc].
        apply (Hnew mt c); [by left|done|done].
      * intros mt' c' Hin. apply Hnew. by right.
    + apply IH; [done|]. intros mt' c' Hin. apply Hnew. by right.
  - apply IH; [done|]. intros mt' c' Hin. apply Hnew. by right.
Qed.

(** The results before the optional sort. *)
Lemma extract_results_Forall (P : candidate -> Prop) opts text :
  (forall c, P (Candidate c 1)) ->
  (forall c, P (Candidate c 2)) ->
  (forall c, P (Candidate c 3)) ->
  (forall c, In c (json_shaped_substrings text) -> (10 < length c)%nat ->
             P (Candidate c 4)) ->
  Forall P (extract_results opts text).
Proof.
  intros H1 H2 H3 H4. unfold extract_results.
  assert (Hall : Forall P
    (fold_left (fun results pattern =>
                  collect (maxBlocks opts) (fun c => (10 <? length c)%nat) 4
                    (all_matches no_flags pattern text) results)
       jsonPatterns
       (collect (maxBlocks opts) json_shaped 3
          (all_matches no_flags Patterns.inlinePattern text)
          (collect (maxBlocks opts) json_shaped 2
             (all_matches no_flags Patterns.codeBlockPattern text)
             (collect (maxBlocks opts) (fun _ => true) 1
                (all_matches no_flags Patterns.jsonBlockPattern text) []))))).
  { simpl.
    assert (Hin4 : forall pattern, In pattern jsonPatterns ->
      forall mt c, In mt (all_matches no_flags pattern text) ->
        option_map trim (group 1 mt) = Some c ->
        (10 <? length c)%nat = true -> P (Candidate c 4)).
    { intros pattern Hp mt c Hmt Hc Hlen. apply H4; [|by apply Nat.ltb_lt].
      unfold json_shaped_substrings. apply list_elem_of_In, list_elem_of_omap.
      exists mt. split; [|done]. apply list_elem_of_In, in_or_app.
      destruct Hp as [<-|[<-|[]]]; [by left|by right]. }
    apply collect_Forall; [|apply Hin4; simpl; auto].
    apply collect_Forall; [|apply Hin4; simpl; auto].
    repeat (apply collect_Forall; [|by auto]). constructor. }
  destruct (preferFirst opts); [|done].
  eapply Permutation_Forall; [|exact Hall].
  symmetry. apply js_sort_perm.
Qed.

Lemma fast_path_cache response cache :
  fast_path response cache = (fst (fast_path response ∅), cache).
Proof.
  unfold fast_path, try_catch, bind, lift, ret.
  destruct (first_match _ _ _) as [mt|]; [|done].
  destruct (group 1 mt); [|done].
  by destruct (JSON_parse _).
Qed.

Lemma tryParseJson_without_fix opts jsonStr e cache :
  attemptFix opts = false ->
  is_blank jsonStr = false ->
  JSON_parse (trim jsonStr) = Throw e ->
  tryParseJson opts jsonStr cache
    = (Normal {| success := false; data := JNull;
                 error := Some "Failed to parse JSON after all attempts"%string |},
       cache).
Proof.
  intros Hfix Hblank Hparse. unfold tryParseJson.
  unfold is_blank in Hblank. rewrite Hblank.
  unfold attempt, try_catch, bind, lift, ret. rewrite Hparse, Hfix. done.
Qed.

(** A text whose only JSON-shaped substring has seven characters and which
    does not itself parse: the extractor yields no candidate, and the object
    is recovered by the boundary-scoped parse of the whole input, before the
    aggressive fallback is reached.  The same object inside an inline code
    span is recovered as a class-3 candidate with [attemptFix] false. *)
Lemma C9_recovered_before_fallback :
  (json_shaped_substrings short_match_text
     = [js "{" ++ dq ++ js "a" ++ dq ++ js ":1}"]
   /\ JSON_parse (trim short_match_text) = Throw SyntaxError
   /\ extract_results default_options short_match_text = []
   /\ findJsonBoundaries false short_match_text
     = Some (js "{" ++ dq ++ js "a" ++ dq ++ js ":1}")
   /\ parseLLMJson_staged (ArgString short_match_text) OptionsInvalid
     = Normal (WholeInput, inner_value))
  /\ (json_shaped_substrings short_inline_span
        = [js "{" ++ dq ++ js "a" ++ dq ++ js ":1}"]
      /\ JSON_parse (trim short_inline_span) = Throw SyntaxError
      /\ parseLLMJson_staged (ArgString short_inline_span) (only_attemptFix false)
        = Normal (CandidateFallback, inner_value)).
Proof. repeat split; vm_compute; reflexivity. Qed.

(** C9, amended.  A class-4 candidate has more than 10 characters; so when
    every JSON-shaped substring of the text has at most 10, the extractor
    yields no class-4 candidate.  If moreover [attemptFix] is false, the
    text is not blank and does not itself parse, the fast path does not
    fire and the extractor finds no candidate of the classes 1 to 3, the
    failure record is returned.  Nothing is said of how such a substring
    is recovered when [attemptFix] is set. *)
Theorem C9_short_matches (options : options_arg) (text : jsstring) :
  let opts := normalize_options options in
  (forall c, In c (extract_results opts text) -> priority c = 4%Z ->
             (10 < length (content c))%nat)
  /\ (forallb (fun c => (length c <=? 10)%nat) (json_shaped_substrings text) = true ->
      Forall (fun c => priority c <> 4%Z) (extract_results opts text))
  /\ (forallb (fun c => (length c <=? 10)%nat) (json_shaped_substrings text) = true ->
      attemptFix opts = false ->
      is_blank text = false ->
      JSON_parse (trim text) = Throw SyntaxError ->
      fst (fast_path text ∅) = Normal None ->
      forallb (fun c => (priority c =? 4)%Z) (extract_results opts text) = true ->
      parseLLMJson_staged (ArgString text) options = Normal (TotalFailure, failure_record)).
Proof.
  intros opts.
  assert (Hshort : forallb (fun c => (length c <=? 10)%nat) (json_shaped_substrings text) = true ->
                   Forall (fun c => priority c <> 4%Z) (extract_results opts text)).
  { intros Hall. apply extract_results_Forall; try (intros; simpl; lia).
    intros c Hin Hlen. rewrite forallb_forall in Hall.
    apply Hall, Nat.leb_le in Hin. lia. }
  split; [|split; [exact Hshort|]].
  - intros c Hin Hprio.
    assert (Hall : Forall (fun c => priority c = 4%Z -> (10 < length (content c))%nat)
                          (extract_results opts text)).
    { apply extract_results_Forall; intros; simpl in *; lia. }
    rewrite Forall_forall in Hall. apply Hall; [by apply list_elem_of_In|done].
  - intros Hall Hfix Hblank Hparse Hfast Hclass.
    assert (Hnone : extract_results opts text = []).
    { apply Hshort in Hall.
      destruct (extract_results opts text) as [|c l]; [done|].
      simpl in Hclass. apply andb_true_iff in Hclass as [Hc _].
      apply Z.eqb_eq in Hc. by inversion Hall. }
    unfold parseLLMJson_staged. simpl. rewrite Hblank.
    fold opts. unfold pipeline, bind at 1.
    rewrite fast_path_cache, Hfast. unfold bind at 1.
    rewrite (tryParseJson_without_fix opts text SyntaxError); [|done..].
    simpl. unfold sortedCandidates, extractJson. rewrite Hnone. simpl.
    unfold bind, ret, aggressive. by rewrite Hfix.
Qed.

Lemma C9_short_matches_witness :
  parseLLMJson_staged (ArgString short_match_text) (only_attemptFix false)
    = Normal (TotalFailure, failure_record).
Proof.
  apply (proj2 (proj2 (C9_short_matches (only_attemptFix false) short_match_text)));
    vm_compute; reflexivity.
Defined.

(** ** Where a token cannot continue *)

Lemma sep_cases x : sep x -> (x <= 32 \/ x = 96 \/ 160 <= x)%N.
Proof.
  intros [H| ->]; [|lia]. unfold is_space, in_range in H.
  repeat (apply orb_true_iff in H as [H|H]);
    rewrite ?andb_true_iff, ?N.eqb_eq, ?N.leb_le in H; lia.
Qed.

Ltac char_tests :=
  repeat match goal with
         | |- context [(?a =? ?b)%N] => destruct (N.eqb_spec a b); try lia
         | |- context [(?a <=? ?b)%N] => destruct (N.leb_spec a b); try lia
         | |- context [(?a <? ?b)%N] => destruct (N.ltb_spec a b); try lia
         end.

Lemma sep_unescape x : sep x -> unescape x = None.
Proof. intros H%sep_cases. unfold unescape. char_tests; simpl; done. Qed.

Lemma sep_hex x : sep x -> hex_val x = None.
Proof. intros H%sep_cases. unfold hex_val, is_digit, in_range. char_tests; simpl; done. Qed.

Lemma sep_digit x : sep x -> is_digit x = false.
Proof. intros H%sep_cases. unfold is_digit, in_range. char_tests; simpl; done. Qed.

Lemma hex4_sep a b c d :
  sep a \/ sep b \/ sep c \/ sep d -> hex4 a b c d = None.
Proof.
  unfold hex4. intros [H|[H|[H|H]]]; apply sep_hex in H; rewrite H;
    repeat (destruct (hex_val _)); done.
Qed.

Lemma lex_string_cut t :
  cut t ->
  forall n a acc, (length a <= n)%nat ->
    lex_string (a ++ t) acc
    = option_map (fun '(str, r) => (str, r ++ t)) (lex_string a acc).
Proof.
  intros [Hnone Hhd]. induction n as [|n IH]; intros a acc Hlen.
  { destruct a; [|simpl in Hlen; lia]. simpl. apply Hnone. }
  destruct a as [|c a]; [simpl; apply Hnone|].
  simpl in Hlen. simpl.
  destruct (c =? 34)%N; [done|].
  destruct (c =? 92)%N.
  - destruct a as [|e a]; simpl.
    { destruct t as [|x t]; [done|].
      pose proof (sep_cases x Hhd).
      destruct (N.eqb_spec x 117); [lia|]. by rewrite sep_unescape. }
    destruct (e =? 117)%N.
    + destruct a as [|h1 [|h2 [|h3 [|h4 a]]]]; simpl.
      1-4: destruct t as [|x1 [|x2 [|x3 [|x4 t]]]]; simpl in Hhd; try done;
           (rewrite hex4_sep by tauto); done.
      destruct (hex4 h1 h2 h3 h4); [|done].
      apply IH. simpl in Hlen. lia.
    + destruct (unescape e); [|done]. apply IH. simpl in Hlen. lia.
  - destruct (c <? 32)%N; [done|]. apply IH. lia.
Qed.

Section Cut.
Variable t : jsstring.
Hypothesis cut_t : cut t.

Lemma cut_head_cases :
  t = [] \/ exists x t', t = x :: t' /\ sep x.
Proof using cut_t.
  destruct cut_t as [_ Hhd]. destruct t as [|x t']; [by left|right].
  by exists x, t'.
Qed.

(** The case of an empty prefix: the text is empty, or its first character
    fails every test of the lexer. *)
Ltac at_cut :=
  let x := fresh "x" in
  let Hs := fresh "Hs" in
  destruct cut_head_cases as [->|(x & ? & -> & Hs)]; [done|];
  pose proof (sep_cases x Hs); pose proof (sep_digit x Hs) as Hdig;
  simpl; rewrite ?Hdig; char_tests; simpl; rewrite ?Hdig; done.

Lemma span_digits_cut a :
  span_digits (a ++ t) = (fst (span_digits a), snd (span_digits a) ++ t).
Proof using cut_t.
  induction a as [|c a IH]; simpl; [at_cut|].
  destruct (is_digit c); [|done].
  rewrite IH. by destruct (span_digits a).
Qed.

Lemma lex_int_cut a :
  lex_int (a ++ t) = option_map (fun '(ds, r) => (ds, r ++ t)) (lex_int a).
Proof using cut_t.
  destruct a as [|d a]; simpl; [at_cut|].
  destruct (d =? 48)%N; [done|]. destruct (is_digit d); [|done].
  rewrite span_digits_cut. by destruct (span_digits a).
Qed.

Lemma lex_frac_cut a :
  lex_frac (a ++ t) = option_map (fun '(ds, r) => (ds, r ++ t)) (lex_frac a).
Proof using cut_t.
  destruct a as [|c a]; simpl; [at_cut|].
  destruct (c =? 46)%N; [|done].
  rewrite span_digits_cut. by destruct (span_digits a) as [[|d ds] r].
Qed.

Lemma lex_exp_cut a :
  lex_exp (a ++ t) = option_map (fun '(e, r) => (e, r ++ t)) (lex_exp a).
Proof using cut_t.
  destruct a as [|c a]; simpl; [at_cut|].
  destruct (_ || _); [|done].
  destruct a as [|sg a]; simpl; [at_cut|].
  destruct (sg =? 45)%N; [|destruct (sg =? 43)%N].
  - rewrite span_digits_cut. by destruct (span_digits a) as [[|d ds] r].
  - rewrite span_digits_cut. by destruct (span_digits a) as [[|d ds] r].
  - change (sg :: a ++ t) with ((sg :: a) ++ t). rewrite span_digits_cut.
    by destruct (span_digits (sg :: a)) as [[|d ds] r].
Qed.

Lemma lex_unsigned_cut negative a :
  lex_unsigned negative (a ++ t)
  = option_map (fun '(m, e, r) => (m, e, r ++ t)) (lex_unsigned negative a).
Proof using cut_t.
  unfold lex_unsigned. rewrite lex_int_cut.
  destruct (lex_int a) as [[ids r1]|]; [simpl|done].
  rewrite lex_frac_cut. destruct (lex_frac r1) as [[fds r2]|]; [simpl|done].
  rewrite lex_exp_cut. by destruct (lex_exp r2) as [[e r3]|].
Qed.

Lemma lex_number_cut c a :
  lex_number (c :: a ++ t)
  = option_map (fun '(m, e, r) => (m, e, r ++ t)) (lex_number (c :: a)).
Proof using cut_t.
  unfold lex_number. destruct (c =? 45)%N; [apply lex_unsigned_cut|].
  apply (lex_unsigned_cut false (c :: a)).
Qed.

Lemma startsWith_cut kw a :
  Forall (fun k => is_lower k = true) kw ->
  startsWith (a ++ t) kw = true -> startsWith a kw = true.
Proof using cut_t.
  intros Hkw. revert a. induction Hkw as [|k kw Hk _ IH]; intros a; [by destruct a|].
  destruct a as [|c a]; simpl.
  - unfold is_lower, in_range in Hk.
    rewrite andb_true_iff, !N.leb_le in Hk. at_cut.
  - intros [-> H]%andb_true_iff. by rewrite IH.
Qed.
End Cut.

Lemma startsWith_length s kw : startsWith s kw = true -> (length kw <= length s)%nat.
Proof.
  revert s. induction kw as [|k kw IH]; intros s; simpl; [lia|].
  destruct s as [|c s]; [done|]. intros [_ H]%andb_true_iff.
  apply IH in H. simpl. lia.
Qed.

Lemma startsWith_app kw s t :
  startsWith s kw = true -> startsWith (s ++ t) kw = true.
Proof.
  revert s. induction kw as [|k kw IH]; intros s; [intros _; by destruct s, t|].
  destruct s as [|x s]; [done|]. simpl.
  intros [-> H]%andb_true_iff. by apply IH.
Qed.

Lemma lex_token_cut t c a :
  cut t ->
  lex_token (c :: a ++ t)
  = option_map (fun '(tok, r) => (tok, r ++ t)) (lex_token (c :: a)).
Proof.
  intros Hcut. unfold lex_token.
  repeat match goal with
         | |- (if ?b then _ else _) = _ => destruct b; [done|]
         end.
  destruct (c =? 34)%N.
  { rewrite (lex_string_cut t Hcut (length a)); [|done].
    by destruct (lex_string a []) as [[str r]|]. }
  destruct (_ || _).
  { rewrite lex_number_cut; [|done].
    by destruct (lex_number (c :: a)) as [[[m e] r]|]. }
  assert (Hkw : forall kw n, Forall (fun k => is_lower k = true) kw -> n = length kw ->
    forall tok (other1 other2 : option (option token * list N)),
      other1 = option_map (fun '(tok, r) => (tok, r ++ t)) other2 ->
      (if startsWith (c :: a ++ t) kw then Some (tok, drop n (c :: a ++ t)) else other1)
      = option_map (fun '(tok, r) => (tok, r ++ t))
          (if startsWith (c :: a) kw then Some (tok, drop n (c :: a)) else other2)).
  { intros kw n Hlow -> tok o1 o2 Ho.
    destruct (startsWith (c :: a ++ t) kw) eqn:E1.
    - apply (startsWith_cut t Hcut kw (c :: a) Hlow) in E1 as E2. rewrite E2. simpl.
      apply startsWith_length in E2.
      change (c :: a ++ t) with ((c :: a) ++ t). by rewrite drop_app_le.
    - destruct (startsWith (c :: a) kw) eqn:E2; [|done].
      apply (startsWith_app _ _ t) in E2.
      change ((c :: a) ++ t) with (c :: a ++ t) in E2. congruence. }
  apply (Hkw kw_true 4%nat); [repeat constructor|done|].
  apply (Hkw kw_false 5%nat); [repeat constructor|done|].
  apply (Hkw kw_null 4%nat); [repeat constructor|done|done].
Qed.

(** ** Tokens consume text *)

Lemma lex_string_shorter n :
  forall s acc str r, (length s <= n)%nat ->
    lex_string s acc = Some (str, r) -> (length r < length s)%nat.
Proof.
  induction n as [|n IH]; intros s acc str r Hlen; destruct s as [|c s];
    try done; simpl in Hlen; [lia|].
  simpl. destruct (c =? 34)%N; [intros [= _ <-]; lia|].
  destruct (c =? 92)%N.
  - destruct s as [|e s]; [done|]. simpl in Hlen.
    destruct (e =? 117)%N.
    + destruct s as [|h1 [|h2 [|h3 [|h4 s]]]]; try done.
      destruct (hex4 h1 h2 h3 h4); [|done].
      intros H%IH; simpl in *; lia.
    + destruct (unescape e); [|done]. intros H%IH; simpl; lia.
  - destruct (c <? 32)%N; [done|]. intros H%IH; lia.
Qed.

Lemma span_digits_shorter s : (length (snd (span_digits s)) <= length s)%nat.
Proof.
  induction s as [|c s IH]; simpl; [lia|].
  destruct (is_digit c); [|simpl; lia].
  destruct (span_digits s). simpl in *. lia.
Qed.

Lemma lex_int_shorter s ds r : lex_int s = Some (ds, r) -> (length r < length s)%nat.
Proof.
  destruct s as [|d s]; [done|]. simpl.
  destruct (d =? 48)%N; [intros [= _ <-]; lia|].
  destruct (is_digit d); [|done].
  pose proof (span_digits_shorter s). destruct (span_digits s).
  intros [= _ <-]. simpl in *. lia.
Qed.

Lemma lex_frac_shorter s ds r : lex_frac s = Some (ds, r) -> (length r <= length s)%nat.
Proof.
  destruct s as [|c s]; [by intros [= _ <-]|]. simpl.
  destruct (c =? 46)%N; [|intros [= _ <-]; simpl; lia].
  pose proof (span_digits_shorter s). destruct (span_digits s) as [[|d l] r'];
    [done|]. intros [= _ <-]. simpl in *. lia.
Qed.

Lemma lex_exp_shorter s e r : lex_exp s = Some (e, r) -> (length r <= length s)%nat.
Proof.
  destruct s as [|c s]; [by intros [= _ <-]|]. simpl.
  destruct (_ || _); [|intros [= _ <-]; simpl; lia].
  assert (Hsign : forall negative rest',
    (length rest' <= length s)%nat ->
    (let (ds, r0) := span_digits rest' in
     match ds with
     | [] => None
     | _ :: _ => Some (if negative : bool then (- digits_value ds)%Z else digits_value ds, r0)
     end) = Some (e, r) -> (length r <= S (length s))%nat).
  { intros negative rest' Hle. pose proof (span_digits_shorter rest').
    destruct (span_digits rest') as [[|d l] r']; [done|].
    intros [= _ <-]. simpl in *. lia. }
  destruct s as [|sg s]; [apply (Hsign false []); simpl; lia|].
  destruct (sg =? 45)%N; [apply (Hsign true s); simpl; lia|].
  destruct (sg =? 43)%N; [apply (Hsign false s)|apply (Hsign false (sg :: s))];
    simpl; lia.
Qed.

Lemma lex_unsigned_shorter negative s m e r :
  lex_unsigned negative s = Some (m, e, r) -> (length r < length s)%nat.
Proof.
  unfold lex_unsigned.
  destruct (lex_int s) as [[ids s2]|] eqn:H1; [|done].
  destruct (lex_frac s2) as [[fds s3]|] eqn:H2; [|done].
  destruct (lex_exp s3) as [[e' s4]|] eqn:H3; [|done].
  intros [= _ _ <-].
  apply lex_int_shorter in H1. apply lex_frac_shorter in H2.
  apply lex_exp_shorter in H3. lia.
Qed.

Lemma lex_number_shorter s m e r :
  lex_number s = Some (m, e, r) -> (length r < length s)%nat.
Proof.
  destruct s as [|c s]; [done|]. unfold lex_number.
  destruct (c =? 45)%N; intros H%lex_unsigned_shorter; simpl in *; lia.
Qed.

Lemma lex_token_shorter s tok r :
  lex_token s = Some (tok, r) -> (length r < length s)%nat.
Proof.
  destruct s as [|c s]; [done|]. unfold lex_token.
  repeat match goal with
         | |- (if ?b then Some (_, s) else _) = _ -> _ =>
             destruct b; [intros [= _ <-]; simpl; lia|]
         end.
  destruct (c =? 34)%N.
  { destruct (lex_string s []) as [[str r']|] eqn:H; [|done].
    apply (lex_string_shorter (length s)) in H; [|done].
    intros [= _ <-]. simpl. lia. }
  destruct (_ || _).
  { destruct (lex_number (c :: s)) as [[[m e] r']|] eqn:H; [|done].
    apply lex_number_shorter in H. by intros [= _ <-]. }
  repeat match goal with
         | |- (if ?b then Some (_, drop ?n (c :: s)) else _) = _ -> _ =>
             destruct b; [intros [= _ <-]; rewrite length_drop; simpl; lia|]
         end.
  done.
Qed.

Lemma lex_fuel f1 :
  forall f2 s, (length s < f1)%nat -> (length s < f2)%nat -> lex f1 s = lex f2 s.
Proof.
  induction f1 as [|f1 IH]; intros f2 s H1 H2; [lia|].
  destruct f2 as [|f2]; [lia|]. simpl.
  destruct s as [|c s]; [done|].
  destruct (lex_token (c :: s)) as [[tok r]|] eqn:Htok; [|done].
  apply lex_token_shorter in Htok.
  simpl in *. rewrite (IH f2 r) by lia. done.
Qed.

Lemma lex_mono f s ts : lex f s = Some ts -> lex (S f) s = Some ts.
Proof.
  revert s ts. induction f as [|f IH]; intros s ts; [done|].
  intros H. cbn [lex] in *. destruct s as [|c s]; [done|].
  destruct (lex_token (c :: s)) as [[[tok|] r]|]; [| |done].
  - destruct (lex f r) as [ts'|] eqn:E; [|done].
    by rewrite (IH _ _ E).
  - by apply IH.
Qed.

(** A text that lexes and is cut before [t] lexes on both sides of the
    cut. *)
Lemma lex_cut t :
  cut t ->
  forall f a ts, lex f (a ++ t) = Some ts ->
    exists ts1 ts2, ts = ts1 ++ ts2 /\ lex f a = Some ts1 /\ lex f t = Some ts2.
Proof.
  intros Hcut. induction f as [|f IH]; intros a ts H; [done|].
  destruct a as [|c a].
  { exists [], ts. by repeat split. }
  cbn [lex] in *.
  change ((c :: a) ++ t) with (c :: a ++ t) in H.
  rewrite (lex_token_cut t c a Hcut) in H.
  destruct (lex_token (c :: a)) as [[[tok|] r]|]; simpl in H; [| |done].
  - destruct (lex f (r ++ t)) as [ts'|] eqn:E; [|done].
    injection H as <-. destruct (IH _ _ E) as (ts1 & ts2 & -> & H1 & H2).
    exists (tok :: ts1), ts2. split; [done|].
    split; [by rewrite H1|by apply lex_mono].
  - destruct (IH _ _ H) as (ts1 & ts2 & -> & H1 & H2).
    exists ts1, ts2. split; [done|]. split; [done|by apply lex_mono].
Qed.

(** ** Trimming a text that lexes *)

Lemma trimStart_split s :
  exists ws, s = ws ++ trimStart s /\ forallb is_space ws = true.
Proof.
  induction s as [|c s (ws & Hs & Hws)]; [by exists []|]. simpl.
  destruct (is_space c) eqn:Hc; [|by exists []].
  exists (c :: ws). simpl. rewrite Hc, Hws. by rewrite <- Hs.
Qed.

Lemma trimEnd_split s :
  exists ws, s = trimEnd s ++ ws /\ forallb is_space ws = true.
Proof.
  unfold trimEnd. destruct (trimStart_split (rev s)) as (ws & Hs & Hws).
  exists (rev ws). split.
  - rewrite <- rev_app_distr, <- Hs. by rewrite rev_involutive.
  - rewrite forallb_forall in *. intros x Hx. apply Hws. by apply in_rev.
Qed.

Lemma kw_true_chars : kw_true = [116; 114; 117; 101]%N.
Proof. reflexivity. Qed.
Lemma kw_false_chars : kw_false = [102; 97; 108; 115; 101]%N.
Proof. reflexivity. Qed.
Lemma kw_null_chars : kw_null = [110; 117; 108; 108]%N.
Proof. reflexivity. Qed.

Lemma lex_token_sep c rest :
  sep c -> lex_token (c :: rest) = if is_json_ws c then Some (None, rest) else None.
Proof.
  intros Hs. pose proof (sep_cases c Hs). unfold lex_token.
  destruct (is_json_ws c); [done|].
  rewrite (sep_digit c Hs), kw_true_chars, kw_false_chars, kw_null_chars.
  cbn [startsWith]. char_tests; done.
Qed.

Lemma lex_string_spaces ws : forall acc tail,
  forallb is_space ws = true ->
  (forall acc', lex_string tail acc' = None) ->
  lex_string (ws ++ tail) acc = None.
Proof.
  induction ws as [|c ws IH]; intros acc tail Hws Htail; [apply Htail|].
  simpl in Hws. apply andb_true_iff in Hws as [Hc Hws].
  pose proof (sep_cases c (or_introl Hc)). simpl.
  destruct (N.eqb_spec c 34); [lia|]. destruct (N.eqb_spec c 92); [lia|].
  destruct (c <? 32)%N; [done|]. by apply IH.
Qed.

Lemma cut_spaces ws : forallb is_space ws = true -> cut ws.
Proof.
  intros Hws. split.
  - intros acc. rewrite <- (app_nil_r ws). by apply lex_string_spaces.
  - destruct ws as [|c ws]; [done|]. simpl in Hws.
    apply andb_true_iff in Hws as [Hc _]. by left.
Qed.

Lemma lex_spaces f : forall ws ts,
  forallb is_space ws = true -> lex f ws = Some ts -> ts = [].
Proof.
  induction f as [|f IH]; intros ws ts Hws; [done|].
  destruct ws as [|c ws]; [by intros [= <-]|].
  simpl in Hws. apply andb_true_iff in Hws as [Hc Hws].
  cbn [lex]. rewrite lex_token_sep by (by left).
  destruct (is_json_ws c); [by apply IH|done].
Qed.

Lemma lex_trimStart s : forall f ts,
  lex f s = Some ts -> lex f (trimStart s) = Some ts.
Proof.
  induction s as [|c s IH]; intros f ts H; [done|]. simpl.
  destruct (is_space c) eqn:Hc; [|done].
  destruct f as [|f]; [done|]. cbn [lex] in H.
  rewrite lex_token_sep in H by (by left).
  destruct (is_json_ws c); [|done]. by apply lex_mono, IH.
Qed.

Lemma lex_trimEnd f s ts : lex f s = Some ts -> lex f (trimEnd s) = Some ts.
Proof.
  destruct (trimEnd_split s) as (ws & Hs & Hws). intros H.
  rewrite Hs in H.
  destruct (lex_cut ws (cut_spaces ws Hws) _ _ _ H) as (ts1 & ts2 & -> & H1 & H2).
  apply lex_spaces in H2 as ->; [|done]. by rewrite app_nil_r.
Qed.

Lemma trim_length s : (length (trim s) <= length s)%nat.
Proof.
  unfold trim.
  destruct (trimStart_split s) as (ws1 & H1 & _).
  destruct (trimEnd_split (trimStart s)) as (ws2 & H2 & _).
  rewrite H1 at 2. rewrite H2 at 2. rewrite !length_app. lia.
Qed.

Lemma parse_trim text v : Json.parse text = Some v -> Json.parse (trim text) = Some v.
Proof.
  unfold Json.parse.
  destruct (lex (S (length text)) text) as [ts|] eqn:Hlex; [|done].
  apply lex_trimStart, lex_trimEnd in Hlex. fold (trim text) in Hlex.
  pose proof (trim_length text).
  rewrite (lex_fuel _ (S (length text))), Hlex by lia. done.
Qed.

Lemma parse_not_blank text v : Json.parse text = Some v -> is_blank text = false.
Proof.
  intros H%parse_trim. unfold is_blank.
  destruct (trim text) as [|c s] eqn:Htrim; [done|].
  destruct text; [done|]. done.
Qed.

(** ** The fast-path pattern on a text that lexes *)

Lemma search_sound fl r aft : forall bef bef' aft' st',
  search fl r bef aft = Some (bef', aft', st') ->
  run fl r (MState bef' aft' []) Some = Some st'
  /\ exists skipped, aft = skipped ++ aft'.
Proof.
  induction aft as [|c aft IH]; intros bef bef' aft' st'; simpl.
  - destruct (run fl r (MState bef [] []) Some) as [st|] eqn:Hrun; [|done].
    intros [= <- <- <-]. split; [done|]. by exists [].
  - destruct (run fl r (MState bef (c :: aft) []) Some) as [st|] eqn:Hrun.
    + intros [= <- <- <-]. split; [done|]. by exists [].
    + intros (Hr & skipped & ->)%IH. split; [done|]. by exists (c :: skipped).
Qed.

Lemma run_lit l : forall st k res,
  run no_flags (lit l) st k = Some res ->
  exists st', after st = l ++ after st' /\ k st' = Some res.
Proof.
  induction l as [|c l IH]; intros st k res; [by exists st|].
  change (lit (c :: l)) with (Seq (Chr c) (lit l)). cbn [run]. unfold step_char.
  destruct (after st) as [|x rest] eqn:Hafter; [done|].
  unfold char_eq. simpl. destruct (N.eqb_spec c x) as [->|]; [|done].
  intros (st' & Hst & Hk)%IH. exists st'. simpl in Hst. by rewrite Hst.
Qed.

Lemma star_space_inv fuel : forall st k res,
  star_loop (run no_flags Space) true fuel st k = Some res ->
  exists ws st', after st = ws ++ after st'
                 /\ forallb is_space ws = true /\ k st' = Some res.
Proof.
  induction fuel as [|fuel IH]; intros st k res; simpl.
  { intros H. by exists [], st. }
  unfold step_char at 1.
  destruct (after st) as [|c rest] eqn:Hafter.
  { intros H. exists [], st. by rewrite Hafter. }
  unfold class_matches. simpl. rewrite orb_false_r.
  destruct (is_space c) eqn:Hc.
  - destruct (length rest <? S (length rest))%nat; [|intros H; by exists [], st; rewrite Hafter].
    destruct (star_loop _ _ _ _ _) as [r|] eqn:Hloop.
    + intros [= <-]. apply IH in Hloop as (ws & st' & Hst & Hws & Hk).
      exists (c :: ws), st'. simpl in *. by rewrite Hst, Hc, Hws.
    + intros H. exists [], st. by rewrite Hafter.
  - intros H. exists [], st. by rewrite Hafter.
Qed.

Lemma fast_path_match_shape st res :
  run no_flags Patterns.fastPathPattern st Some = Some res ->
  exists ws post,
    after st = [96; 96; 96; 106; 115; 111; 110]%N ++ ws ++ c_nl :: post
    /\ forallb is_space ws = true.
Proof.
  unfold Patterns.fastPathPattern. cbn [cat fold_right run].
  intros (st1 & H1 & H)%run_lit.
  apply star_space_inv in H as (ws & st2 & H2 & Hws & H).
  unfold step_char in H. destruct (after st2) as [|x post] eqn:H3; [done|].
  unfold char_eq in H. cbn [ignoreCase no_flags] in H.
  destruct (N.eqb_spec c_nl x) as [<-|]; [|done].
  exists ws, post. by rewrite H1, H2.
Qed.

Lemma fence_cut ws post :
  forallb is_space ws = true ->
  cut ([96; 96; 96; 106; 115; 111; 110]%N ++ ws ++ c_nl :: post).
Proof.
  intros Hws. split; [|by right].
  intros acc. simpl. by apply lex_string_spaces.
Qed.

Lemma parse_no_fence text v :
  Json.parse text = Some v ->
  first_match no_flags Patterns.fastPathPattern text = None.
Proof.
  unfold Json.parse, first_match.
  destruct (lex (S (length text)) text) as [ts|] eqn:Hlex; [|done]. intros _.
  destruct (search _ _ _ _) as [[[bef aft] st]|] eqn:Hs; [exfalso|done].
  apply search_sound in Hs as (Hrun & skipped & ->).
  apply fast_path_match_shape in Hrun as (ws & post & Haft & Hws).
  simpl in Haft. subst aft.
  apply (lex_cut _ (fence_cut ws post Hws)) in Hlex as (ts1 & ts2 & _ & _ & H).
  done.
Qed.

(** ** Strictly valid JSON text *)

Lemma tryParseJson_direct opts text v cache :
  Json.parse text = Some v ->
  tryParseJson opts text cache = (Normal (parsed_ok v), cache).
Proof.
  intros Hp. unfold tryParseJson.
  pose proof (parse_not_blank _ _ Hp) as Hb. unfold is_blank in Hb. rewrite Hb.
  unfold attempt, try_catch, bind, lift, ret, JSON_parse.
  by rewrite (parse_trim _ _ Hp).
Qed.

Lemma unwrap_not_envelope opts v maxAttempts cache :
  is_envelope v = false ->
  unwrapResponse opts v maxAttempts cache = (Normal v, cache).
Proof.
  unfold is_envelope, unwrapResponse, unwrapResponse_on, unwrap_loop. intros Hv.
  cbn [while_loop]. unfold bind, ret, unwrap_body.
  destruct (0 <? maxAttempts)%nat; [|done].
  by destruct (inspect_json v).
Qed.

(** The envelope text is strictly valid JSON, and the engine returns the
    inner value of the envelope, not the value [JSON.parse] gives. *)
Lemma C1_envelope_is_unwrapped :
  JSON_parse envelope_text = Normal envelope_value
  /\ parseLLMJson (ArgString envelope_text) OptionsInvalid = Normal inner_value
  /\ inner_value <> envelope_value.
Proof. repeat split; try (vm_compute; reflexivity). discriminate. Qed.

(** C1, amended.  For every text that [JSON.parse] accepts and any options,
    the fast path does not fire, the parse pipeline returns the native
    parse of the text from its first step, leaving the repair cache empty,
    and the engine returns the result of the unwrapper on that value: the
    value itself whenever it is not an envelope. *)
Theorem C1_valid_json (text : jsstring) (v : json) (options : options_arg) :
  JSON_parse text = Normal v ->
  let opts := normalize_options options in
  tryParseJson opts text ∅ = (Normal (parsed_ok v), ∅)
  /\ exists u,
      parseLLMJson_staged (ArgString text) options = Normal (WholeInput, u)
      /\ parseLLMJson (ArgString text) options = Normal u
      /\ fst (unwrapResponse opts v 2 ∅) = Normal u
      /\ (is_envelope v = false -> u = v).
Proof.
  unfold JSON_parse. destruct (Json.parse text) as [v'|] eqn:Hp; [|done].
  cbv zeta. intros Hv. injection Hv as ->.
  set (opts := normalize_options options). split; [by apply tryParseJson_direct|].
  destruct (total_unwrapResponse opts v 2 ∅) as (u & c' & Hu).
  exists u.
  assert (Hstaged : parseLLMJson_staged (ArgString text) options = Normal (WholeInput, u)).
  { unfold parseLLMJson_staged. simpl. rewrite (parse_not_blank _ _ Hp).
    fold opts. unfold pipeline, bind at 1.
    unfold fast_path at 1. rewrite (parse_no_fence _ _ Hp).
    unfold try_catch, ret at 1. unfold bind at 1.
    rewrite (tryParseJson_direct opts text v ∅ Hp). simpl.
    unfold bind. by rewrite Hu. }
  split; [done|]. split; [unfold parseLLMJson; by rewrite Hstaged|].
  split; [by rewrite Hu|].
  intros Henv. rewrite unwrap_not_envelope in Hu; [|done]. by injection Hu.
Qed.

Lemma C1_valid_json_witness :
  tryParseJson default_options padded_array_text ∅
    = (Normal (parsed_ok (JArray [JNumber 1 0; JNumber 2 0])), ∅)
  /\ exists u,
      parseLLMJson_staged (ArgString padded_array_text) OptionsInvalid
        = Normal (WholeInput, u)
      /\ parseLLMJson (ArgString padded_array_text) OptionsInvalid = Normal u
      /\ fst (unwrapResponse default_options (JArray [JNumber 1 0; JNumber 2 0]) 2 ∅)
        = Normal u
      /\ (is_envelope (JArray [JNumber 1 0; JNumber 2 0]) = false ->
          u = JArray [JNumber 1 0; JNumber 2 0]).
Proof.
  exact (C1_valid_json padded_array_text (JArray [JNumber 1 0; JNumber 2 0])
           OptionsInvalid eq_refl).
Defined.

(** * Further properties *)

(** ** The boundary scanner: where the span starts and ends *)

Lemma scan_start_first chars : forall i st,
  (0 <= i)%Z ->
  start st = (-1)%Z ->
  start (scan chars i st)
  = match first_opener (inString st) (escapeNext st) chars with
    | Some n => (i + Z.of_nat n)%Z
    | None => (-1)%Z
    end.
Proof.
  induction chars as [|c rest IH]; intros i st Hi Hs; simpl; [done|].
  destruct (scan_step c i st) as [st1 brk] eqn:Hstep.
  destruct st as [s e dp ins esc]. simpl in Hs. subst s.
  unfold scan_step in Hstep. simpl in *.
  destruct esc, (c =? 92)%N, (c =? 34)%N, ins, (is_opener c), (is_closer c);
    simpl in *;
    try (destruct ((dp - 1 =? 0)%Z); simpl in * );
    injection Hstep as <- <-; simpl;
    try (rewrite IH by (done || lia); simpl;
         match goal with |- context [first_opener ?a ?b rest] =>
           destruct (first_opener a b rest) end; simpl; lia).
  all: rewrite scan_start_kept; simpl; lia.
Qed.







Lemma findJsonBoundaries_no_opener text allowPartial :
  first_opener false false text = None ->
  findJsonBoundaries allowPartial text = None.
Proof.
  intros Hn.
  pose proof (scan_start_first text 0 scan_init ltac:(lia) eq_refl) as Hfirst.
  simpl in Hfirst. rewrite Hn in Hfirst.
  unfold findJsonBoundaries. rewrite Hfirst. simpl. by rewrite andb_false_r.
Qed.





(** ** The parse pipeline as a search through its sources *)

Lemma JSON_parse_empty : JSON_parse [] = Throw SyntaxError.
Proof. reflexivity. Qed.

Lemma attempt_span_spec (span : option (list N)) cache :
  (match span with
   | Some b => if nonempty b then attempt b else ret None
   | None => ret None
   end) cache
  = (Normal (parsed_ok <$> first_parse (option_list span)), cache).
Proof.
  destruct span as [[|c b]|]; [reflexivity| |reflexivity].
  change (option_list (Some (c :: b))) with [c :: b].
  cbn [nonempty first_parse]. unfold attempt, try_catch, bind, lift, ret.
  by destruct (JSON_parse (c :: b)).
Qed.

Lemma first_parse_app l1 l2 :
  first_parse (l1 ++ l2)
  = match first_parse l1 with Some v => Some v | None => first_parse l2 end.
Proof.
  induction l1 as [|s l1 IH]; simpl; [done|]. by destruct (JSON_parse s).
Qed.

Lemma fix_consistent allowPartial x cache :
  cache_consistent allowPartial cache ->
  exists cache',
    fixCommonJsonIssues allowPartial x cache = (Normal (repairs allowPartial x), cache')
    /\ cache_consistent allowPartial cache'.
Proof.
  intros Hc. unfold fixCommonJsonIssues.
  destruct (cache !! x) as [v|] eqn:Hx.
  - exists cache. by rewrite (Hc _ _ Hx).
  - exists (<[x := repairs allowPartial x]> cache). split; [done|].
    intros k v. destruct (decide (x = k)) as [->|Hne].
    + rewrite lookup_insert_eq. by intros [= <-].
    + rewrite lookup_insert_ne; [apply Hc|done].
Qed.

Lemma bind_normal {A B} (c : M A) (k : A -> M B) cache a cache' :
  c cache = (Normal a, cache') -> bind c k cache = k a cache'.
Proof. intros H. unfold bind. by rewrite H. Qed.

Lemma attempt_eq s cache :
  attempt s cache
  = (Normal (match JSON_parse s with
             | Normal v => Some (parsed_ok v)
             | Throw _ => None
             end), cache).
Proof. unfold attempt, try_catch, bind, lift, ret. by destruct (JSON_parse s). Qed.

Lemma try_parse_eq x (h : js_error -> M (option ParseResult)) cache :
  try_catch (let* parsed := lift (JSON_parse x) in ret (Some (parsed_ok parsed))) h cache
  = match JSON_parse x with
    | Normal v => (Normal (Some (parsed_ok v)), cache)
    | Throw e => h e cache
    end.
Proof. unfold try_catch, bind, lift, ret. by destruct (JSON_parse x). Qed.

Lemma repaired_spec opts clean cache :
  cache_consistent (allowPartial opts) cache ->
  exists cache',
    (let* cleanJson := fixCommonJsonIssues (allowPartial opts) clean in
     try_catch
       (let* parsed := lift (JSON_parse cleanJson) in ret (Some (parsed_ok parsed)))
       (fun secondError =>
          let extracted := findJsonBoundaries (allowPartial opts) cleanJson in
          match extracted with
          | Some e => if nonempty e then attempt e else ret None
          | None => ret None
          end)) cache
    = (Normal (parsed_ok <$>
                 first_parse (repairs (allowPartial opts) clean ::
                              option_list (findJsonBoundaries (allowPartial opts)
                                             (repairs (allowPartial opts) clean)))),
       cache')
    /\ cache_consistent (allowPartial opts) cache'.
Proof.
  intros Hc.
  destruct (fix_consistent (allowPartial opts) clean cache Hc) as (cache' & Hfix & Hc').
  exists cache'. split; [|exact Hc'].
  rewrite (bind_normal _ _ _ _ _ Hfix), try_parse_eq.
  generalize (repairs (allowPartial opts) clean). intros fixed.
  cbn [first_parse].
  destruct (JSON_parse fixed) as [v|e]; [reflexivity|].
  cbv zeta. apply attempt_span_spec.
Qed.

Lemma tryParseJson_spec opts jsonStr cache :
  is_blank jsonStr = false ->
  cache_consistent (allowPartial opts) cache ->
  exists cache',
    tryParseJson opts jsonStr cache
    = (Normal (match first_parse (parse_sources opts jsonStr) with
               | Some v => parsed_ok v
               | None => parse_failure
               end), cache')
    /\ cache_consistent (allowPartial opts) cache'
    /\ (attemptFix opts = false -> cache' = cache).
Proof.
  intros Hblank Hc. unfold tryParseJson, parse_sources.
  unfold is_blank in Hblank. rewrite Hblank. cbv zeta.
  rewrite (bind_normal _ _ _ _ _ (attempt_eq _ _)).
  destruct (repaired_spec opts (trim jsonStr) cache Hc) as (cache' & Hrep & Hc').
  revert Hrep.
  generalize (repairs (allowPartial opts) (trim jsonStr)). intros fixed.
  generalize (findJsonBoundaries (allowPartial opts) fixed). intros span2.
  generalize (findJsonBoundaries (allowPartial opts) (trim jsonStr)). intros span1.
  generalize (trim jsonStr). intros clean Hrep.
  cbn [first_parse].
  destruct (JSON_parse clean) as [v|e].
  { exists cache. split; [reflexivity|]. split; [exact Hc|reflexivity]. }
  destruct (attemptFix opts).
  - rewrite first_parse_app.
    destruct (first_parse (option_list span1)) as [v|] eqn:H1.
    + rewrite (bind_normal _ _ _ (Some (parsed_ok v)) cache).
      * exists cache. split; [reflexivity|]. split; [exact Hc|discriminate].
      * rewrite (bind_normal _ _ _ _ _ (attempt_span_spec span1 cache)), H1.
        reflexivity.
    + rewrite (bind_normal _ _ _
                 (parsed_ok <$> first_parse (fixed :: option_list span2)) cache').
      * exists cache'. split; [|split; [exact Hc'|discriminate]].
        destruct (first_parse _); reflexivity.
      * rewrite (bind_normal _ _ _ _ _ (attempt_span_spec span1 cache)), H1.
        exact Hrep.
  - exists cache. split; [reflexivity|]. split; [exact Hc|reflexivity].
Qed.

(** X4.  [tryParseJson] answers with the value of the first of its sources
    that [JSON.parse] accepts, and with a failure when none is accepted or
    the string is blank; the repair cache stays consistent, and it is left
    as it is when [attemptFix] is false. *)
Theorem tryParseJson_first_source (opts : ParseOptions) (jsonStr : jsstring)
    (cache : gmap (list N) (list N)) :
  cache_consistent (allowPartial opts) cache ->
  (is_blank jsonStr = true ->
   tryParseJson opts jsonStr cache
   = (Normal {| success := false; data := JNull;
                error := Some "Empty JSON string"%string |}, cache))
  /\ (is_blank jsonStr = false ->
      exists cache',
        tryParseJson opts jsonStr cache
        = (Normal (match first_parse (parse_sources opts jsonStr) with
                   | Some v => parsed_ok v
                   | None => parse_failure
                   end), cache')
        /\ cache_consistent (allowPartial opts) cache'
        /\ (attemptFix opts = false -> cache' = cache)).
Proof.
  intros Hc. split.
  - intros Hblank. unfold tryParseJson. unfold is_blank in Hblank.
    by rewrite Hblank.
  - intros Hblank. by apply tryParseJson_spec.
Qed.

Lemma tryParseJson_first_source_witness :
  exists cache',
    tryParseJson default_options python_style_object ∅
    = (Normal (match first_parse (parse_sources default_options python_style_object) with
               | Some v => parsed_ok v
               | None => parse_failure
               end), cache')
    /\ cache_consistent false cache'
    /\ (true = false -> cache' = ∅).
Proof.
  apply (proj2 (tryParseJson_first_source default_options python_style_object ∅
                  (cache_consistent_empty false))).
  vm_compute. reflexivity.
Defined.

(** ** The result unwrapper as a recursion *)

Lemma unwrap_body_shift opts n cur a cache :
  unwrap_body inspect_json (fun v => v) opts (S n) (cur, S a) cache
  = (match unwrap_body inspect_json (fun v => v) opts n (cur, a) cache with
     | (Normal r, c) => (Normal (bump r), c)
     | (Throw e, c) => (Throw e, c)
     end).
Proof.
  unfold unwrap_body.
  change (S a <? S n)%nat with (a <? n)%nat.
  destruct (a <? n)%nat; [|reflexivity].
  destruct (inspect_json cur); try reflexivity.
  unfold bind, ret.
  destruct (tryParseJson opts s cache) as [[p|e] c]; [|reflexivity].
  destruct (success p); reflexivity.
Qed.

Lemma unwrap_loop_shift opts n fuel : forall cur a cache,
  while_loop fuel (unwrap_body inspect_json (fun v => v) opts (S n)) (cur, S a) cache
  = (match while_loop fuel (unwrap_body inspect_json (fun v => v) opts n) (cur, a) cache with
     | (Normal r, c) => (Normal (bump r), c)
     | (Throw e, c) => (Throw e, c)
     end).
Proof.
  induction fuel as [|fuel IH]; intros cur a cache; [reflexivity|].
  cbn [while_loop]. unfold bind.
  rewrite unwrap_body_shift.
  destruct (unwrap_body inspect_json (fun v => v) opts n (cur, a) cache)
    as [[[[cur' a']|]|e] c]; try reflexivity.
  apply IH.
Qed.

Lemma while_loop_S {S : Type} fuel (body : S -> M (option S)) (s : S) :
  while_loop (Datatypes.S fuel) body s
  = (let* next := body s in
     match next with
     | None => ret (Some s)
     | Some s' => while_loop fuel body s'
     end).
Proof. reflexivity. Qed.

Lemma unwrap_descend opts n v cache next c1 :
  unwrap_body inspect_json (fun v => v) opts (S n) (v, 0%nat) cache
    = (Normal (Some (next, 1%nat)), c1) ->
  unwrapResponse opts v (S n) cache = unwrapResponse opts next n c1.
Proof.
  intros Hbody.
  destruct (unwrap_loop_from inspect_json (fun v => v) opts n (S n) next 0%nat c1)
    as (final & k & c' & Hrun & _); [lia|lia|].
  unfold unwrapResponse, unwrapResponse_on, unwrap_loop.
  rewrite (bind_normal _ _ _ _ _ Hrun).
  rewrite (bind_normal _ _ _ (Some (final, S k)) c'); [reflexivity|].
  rewrite while_loop_S, (bind_normal _ _ _ _ _ Hbody). cbv beta iota.
  by rewrite unwrap_loop_shift, Hrun.
Qed.

Lemma unwrap_stop opts m v cache c1 :
  unwrap_body inspect_json (fun v => v) opts m (v, 0%nat) cache = (Normal None, c1) ->
  unwrapResponse opts v m cache = (Normal v, c1).
Proof.
  intros Hbody. unfold unwrapResponse, unwrapResponse_on, unwrap_loop.
  rewrite (bind_normal _ _ _ (Some (v, 0%nat)) c1); [reflexivity|].
  rewrite while_loop_S. by rewrite (bind_normal _ _ _ _ _ Hbody).
Qed.

(** X5.  The unwrapper returns its argument unchanged when the bound is 0,
    when the argument is not an envelope (a primitive, an array, an object
    without a response property or with one that is falsy, a number or a
    boolean), and when the response is a string that [tryParseJson] cannot
    parse. *)
Theorem unwrap_returns_argument (opts : ParseOptions) (v : json)
    (maxAttempts : nat) (cache : gmap (list N) (list N)) :
  unwrapResponse opts v 0 cache = (Normal v, cache)
  /\ (is_envelope v = false ->
      unwrapResponse opts v maxAttempts cache = (Normal v, cache))
  /\ (forall s p c1,
        (0 < maxAttempts)%nat ->
        inspect_json v = ResponseString s ->
        tryParseJson opts s cache = (Normal p, c1) ->
        success p = false ->
        unwrapResponse opts v maxAttempts cache = (Normal v, c1)).
Proof.
  split; [reflexivity|]. split; [apply unwrap_not_envelope|].
  intros s p c1 Hpos Hv Hp Hs.
  apply unwrap_stop. unfold unwrap_body.
  apply Nat.ltb_lt in Hpos. rewrite Hpos, Hv.
  rewrite (bind_normal _ _ _ _ _ Hp). by rewrite Hs.
Qed.

(** X6.  On an envelope the unwrapper with bound [n + 1] is the unwrapper
    with bound [n] applied to what the envelope holds: the response itself
    when it is an object or an array, the value [tryParseJson] recovers
    from it when it is a string. *)
Theorem unwrap_descends (opts : ParseOptions) (v : json) (n : nat)
    (cache : gmap (list N) (list N)) :
  (forall r, inspect_json v = ResponseObject r ->
     unwrapResponse opts v (S n) cache = unwrapResponse opts r n cache)
  /\ (forall s p c1,
        inspect_json v = ResponseString s ->
        tryParseJson opts s cache = (Normal p, c1) ->
        success p = true ->
        unwrapResponse opts v (S n) cache = unwrapResponse opts (data p) n c1).
Proof.
  split.
  - intros r Hv. apply unwrap_descend. unfold unwrap_body.
    cbn [Nat.ltb Nat.leb]. by rewrite Hv.
  - intros s p c1 Hv Hp Hs. apply unwrap_descend. unfold unwrap_body.
    cbn [Nat.ltb Nat.leb]. rewrite Hv.
    rewrite (bind_normal _ _ _ _ _ Hp). by rewrite Hs.
Qed.

Lemma unwrap_returns_argument_witness :
  unwrapResponse default_options (JArray [envelope_value]) 2 ∅
    = (Normal (JArray [envelope_value]), ∅)
  /\ unwrapResponse default_options prose_envelope 2 ∅
    = (Normal prose_envelope, <[js "oops" := js "oops"]> ∅).
Proof.
  split.
  - apply (proj1 (proj2 (unwrap_returns_argument default_options
                           (JArray [envelope_value]) 2 ∅))).
    reflexivity.
  - apply (proj2 (proj2 (unwrap_returns_argument default_options prose_envelope 2 ∅))
             (js "oops") parse_failure).
    + lia.
    + reflexivity.
    + vm_compute. reflexivity.
    + reflexivity.
Defined.

Lemma unwrap_descends_witness :
  unwrapResponse default_options envelope_value 2 ∅
    = unwrapResponse default_options inner_value 1 ∅
  /\ unwrapResponse default_options string_envelope 2 ∅
    = unwrapResponse default_options (JObject [(js "result", JString (js "ok"))]) 1 ∅.
Proof.
  split.
  - apply (proj1 (unwrap_descends default_options envelope_value 1 ∅)).
    reflexivity.
  - apply (proj2 (unwrap_descends default_options string_envelope 1 ∅)
             (js "{" ++ dq ++ js "result" ++ dq ++ js ":" ++ dq ++ js "ok" ++ dq ++ js "}")
             (parsed_ok (JObject [(js "result", JString (js "ok"))]))).
    + reflexivity.
    + vm_compute. reflexivity.
    + reflexivity.
Defined.

(** ** The candidate extractor: cap, shape and order *)

Lemma collect_length maxBlocks accept prio ms : forall results,
  (Z.of_nat (length (collect maxBlocks accept prio ms results))
   <= Z.max maxBlocks (Z.of_nat (length results)))%Z.
Proof.
  induction ms as [|mt rest IH]; intros results; simpl; [lia|].
  destruct (Z.geb_spec (Z.of_nat (length results)) maxBlocks) as [Hge|Hlt]; [lia|].
  destruct (option_map trim (group 1 mt)) as [c|]; [|apply IH].
  destruct (nonempty c && accept c); [|apply IH].
  etransitivity; [apply IH|]. rewrite length_app. simpl. lia.
Qed.

(** X7.  The extractor returns at most [maxBlocks] candidates, and none
    when [maxBlocks] is zero or negative. *)
Theorem extractJson_at_most_maxBlocks (opts : ParseOptions) (text : jsstring) :
  (Z.of_nat (length (extractJson opts text)) <= Z.max 0 (maxBlocks opts))%Z.
Proof.
  unfold extractJson. rewrite length_map. unfold extract_results.
  set (r1 := collect _ _ 1 _ []).
  set (r2 := collect _ _ 2 _ r1).
  set (r3 := collect _ _ 3 _ r2).
  assert (H1 : (Z.of_nat (length r1) <= Z.max 0 (maxBlocks opts))%Z).
  { pose proof (collect_length (maxBlocks opts) (fun _ => true) 1
                  (all_matches no_flags Patterns.jsonBlockPattern text) []) as H.
    simpl in H. fold r1 in H. lia. }
  assert (H2 : (Z.of_nat (length r2) <= Z.max 0 (maxBlocks opts))%Z).
  { pose proof (collect_length (maxBlocks opts) json_shaped 2
                  (all_matches no_flags Patterns.codeBlockPattern text) r1) as H.
    fold r2 in H. lia. }
  assert (H3 : (Z.of_nat (length r3) <= Z.max 0 (maxBlocks opts))%Z).
  { pose proof (collect_length (maxBlocks opts) json_shaped 3
                  (all_matches no_flags Patterns.inlinePattern text) r2) as H.
    fold r3 in H. lia. }
  cbn [fold_left jsonPatterns].
  set (r4 := collect _ _ 4 _ r3).
  assert (H4 : (Z.of_nat (length r4) <= Z.max 0 (maxBlocks opts))%Z).
  { pose proof (collect_length (maxBlocks opts) (fun c => (10 <? length c)%nat) 4
                  (all_matches no_flags Patterns.objectPattern text) r3) as H.
    fold r4 in H. lia. }
  set (r5 := collect _ _ 4 _ r4).
  assert (H5 : (Z.of_nat (length r5) <= Z.max 0 (maxBlocks opts))%Z).
  { pose proof (collect_length (maxBlocks opts) (fun c => (10 <? length c)%nat) 4
                  (all_matches no_flags Patterns.arrayPattern text) r4) as H.
    fold r5 in H. lia. }
  destruct (preferFirst opts); [|done].
  by rewrite (Permutation_length (js_sort_perm _ r5)).
Qed.

Lemma trimStart_fixed s :
  match s with [] => True | c :: _ => is_space c = false end -> trimStart s = s.
Proof. destruct s as [|c s]; [done|]. simpl. by intros ->. Qed.

Lemma trimStart_head s :
  match trimStart s with [] => True | c :: _ => is_space c = false end.
Proof.
  induction s as [|c s IH]; [done|]. simpl.
  destruct (is_space c) eqn:Hc; [done|]. simpl. done.
Qed.

Lemma trimStart_snoc s x : is_space x = false -> trimStart (s ++ [x]) = trimStart s ++ [x].
Proof.
  intros Hx. induction s as [|c s IH]; simpl; [by rewrite Hx|].
  by destruct (is_space c).
Qed.

Lemma trimEnd_cons x s : is_space x = false -> trimEnd (x :: s) = x :: trimEnd s.
Proof.
  intros Hx. unfold trimEnd. simpl. rewrite trimStart_snoc by done.
  by rewrite rev_app_distr.
Qed.

Lemma trim_idempotent s : trim (trim s) = trim s.
Proof.
  unfold trim. pose proof (trimStart_head s) as Hhd.
  destruct (trimStart s) as [|x t] eqn:Ht; [done|].
  rewrite trimEnd_cons by done.
  rewrite (trimStart_fixed (x :: trimEnd t)) by done.
  rewrite trimEnd_cons by done. f_equal.
  unfold trimEnd. rewrite rev_involutive.
  rewrite (trimStart_fixed (trimStart (rev t))); [done|apply trimStart_head].
Qed.

Lemma collect_Forall_nonempty (P : candidate -> Prop) maxBlocks accept prio ms :
  forall results,
    Forall P results ->
    (forall g, nonempty (trim g) = true -> accept (trim g) = true ->
               P (Candidate (trim g) prio)) ->
    Forall P (collect maxBlocks accept prio ms results).
Proof.
  intros results Hres Hnew. revert results Hres.
  induction ms as [|mt rest IH]; intros results Hres; simpl; [done|].
  destruct (_ >=? _)%Z; [done|].
  destruct (group 1 mt) as [g|]; simpl; [|by apply IH].
  destruct (nonempty (trim g) && accept (trim g)) eqn:Hacc; [|by apply IH].
  apply andb_true_iff in Hacc as [Hne Hacc].
  apply IH. apply Forall_app. split; [done|]. repeat constructor. by apply Hnew.
Qed.

Lemma extract_results_trimmed opts text :
  Forall (fun c => content c <> [] /\ trim (content c) = content c)
         (extract_results opts text).
Proof.
  assert (Hnew : forall prio g, nonempty (trim g) = true ->
            content (Candidate (trim g) prio) <> []
            /\ trim (content (Candidate (trim g) prio)) = content (Candidate (trim g) prio)).
  { intros prio g Hne. simpl. split; [by destruct (trim g)|apply trim_idempotent]. }
  unfold extract_results. cbn [fold_left jsonPatterns].
  set (results := collect _ _ 4 _ (collect _ _ 4 _ _)).
  assert (Hall : Forall (fun c => content c <> [] /\ trim (content c) = content c) results).
  { unfold results.
    repeat (apply collect_Forall_nonempty; [|intros g Hne _; by apply Hnew]).
    constructor. }
  destruct (preferFirst opts); [|done].
  eapply Permutation_Forall; [|exact Hall].
  symmetry. apply js_sort_perm.
Qed.

(** X8.  Every candidate of the extractor is a non-empty string without
    white space at either end, of a class from 1 to 4; a candidate of the
    classes 2 and 3 starts with an opening brace or bracket, and one of
    class 4 has more than 10 characters. *)
Theorem extract_results_shape (opts : ParseOptions) (text : jsstring) :
  Forall (fun c =>
            content c <> []
            /\ trim (content c) = content c
            /\ (1 <= priority c <= 4)%Z
            /\ (priority c = 2%Z \/ priority c = 3%Z -> json_shaped (content c) = true)
            /\ (priority c = 4%Z -> (10 < length (content c))%nat))
         (extract_results opts text).
Proof.
  set (P := fun c : candidate => _).
  assert (Hnew : forall accept prio,
    (1 <= prio <= 4)%Z ->
    (prio = 2%Z \/ prio = 3%Z -> forall c, accept c = true -> json_shaped c = true) ->
    (prio = 4%Z -> forall c, accept c = true -> (10 < length c)%nat) ->
    forall g, nonempty (trim g) = true -> accept (trim g) = true ->
              P (Candidate (trim g) prio)).
  { intros accept prio Hprio H23 H4 g Hne Hacc. unfold P. simpl.
    split; [by destruct (trim g)|]. split; [apply trim_idempotent|].
    split; [done|]. split; [intros H; by apply (H23 H)|intros H; by apply (H4 H)]. }
  unfold extract_results.
  assert (Hall : Forall P
    (fold_left (fun results pattern =>
                  collect (maxBlocks opts) (fun c => (10 <? length c)%nat) 4
                    (all_matches no_flags pattern text) results)
       jsonPatterns
       (collect (maxBlocks opts) json_shaped 3
          (all_matches no_flags Patterns.inlinePattern text)
          (collect (maxBlocks opts) json_shaped 2
             (all_matches no_flags Patterns.codeBlockPattern text)
             (collect (maxBlocks opts) (fun _ => true) 1
                (all_matches no_flags Patterns.jsonBlockPattern text) []))))).
  { cbn [fold_left jsonPatterns].
    do 2 (apply collect_Forall_nonempty;
          [|apply (Hnew (fun c => (10 <? length c)%nat) 4%Z);
            [lia|lia|intros _ c Hc; by apply Nat.ltb_lt]]).
    do 2 (apply collect_Forall_nonempty; [|apply (Hnew json_shaped); [lia|done|lia]]).
    apply collect_Forall_nonempty; [constructor|apply (Hnew (fun _ => true) 1%Z); lia]. }
  destruct (preferFirst opts); [|done].
  eapply Permutation_Forall; [|exact Hall].
  symmetry. apply js_sort_perm.
Qed.

(** ** The sorts keep the order of equal keys *)

Lemma sort_insert_filter {A} (cmp : A -> A -> Z) (key : A -> Z) (k : Z) x l :
  (forall a b, (cmp a b <= 0)%Z <-> (key a <= key b)%Z) ->
  filter (fun a => key a = k) (sort_insert cmp x l)
  = filter (fun a => key a = k) (x :: l).
Proof.
  intros Hcmp. induction l as [|y l IH]; [done|]. simpl.
  destruct (Z.leb_spec (cmp x y) 0) as [Hle|Hgt]; [done|].
  assert (Hxy : (key y < key x)%Z).
  { destruct (Z.lt_ge_cases (key y) (key x)) as [|Hge]; [done|].
    apply Hcmp in Hge. lia. }
  rewrite !filter_cons in *.
  destruct (decide (key y = k)) as [Hy|Hy], (decide (key x = k)) as [Hx|Hx];
    try lia; rewrite IH; done.
Qed.

Lemma js_sort_filter {A} (cmp : A -> A -> Z) (key : A -> Z) (k : Z) l :
  (forall a b, (cmp a b <= 0)%Z <-> (key a <= key b)%Z) ->
  filter (fun a => key a = k) (js_sort cmp l) = filter (fun a => key a = k) l.
Proof.
  intros Hcmp. induction l as [|x l IH]; [done|]. simpl.
  rewrite (sort_insert_filter cmp key k) by done.
  rewrite !filter_cons. by rewrite IH.
Qed.

(** X9.  Both sorts are stable: the extractor keeps the candidates of one
    class in the order it found them, and the fallback tries the candidates
    of one length in the order the extractor returned them. *)
Theorem candidate_sorts_stable (opts : ParseOptions) (text : jsstring) :
  (forall n : nat,
     filter (fun c => length c = n) (sortedCandidates opts text)
     = filter (fun c => length c = n) (extractJson opts text))
  /\ (forall (results : list candidate) (p : Z),
        filter (fun c => priority c = p)
               (js_sort (fun a b => (priority a - priority b)%Z) results)
        = filter (fun c => priority c = p) results).
Proof.
  split.
  - intros n. unfold sortedCandidates.
    pose proof (js_sort_filter by_length_desc (fun c => (- Z.of_nat (length c))%Z)
                  (- Z.of_nat n)%Z (extractJson opts text)) as H.
    rewrite (list_filter_iff (fun c => length c = n)
               (fun c => (- Z.of_nat (length c))%Z = (- Z.of_nat n)%Z)) by (intros; lia).
    rewrite (list_filter_iff (fun c => length c = n)
               (fun c => (- Z.of_nat (length c))%Z = (- Z.of_nat n)%Z)
               (extractJson opts text)) by (intros; lia).
    apply H. unfold by_length_desc. intros a b. lia.
  - intros results p. apply (js_sort_filter _ priority). intros a b. lia.
Qed.

(** ** The engine as a function of the text *)

Lemma yields_ret {A} opts (a : A) : yields opts (ret a) a.
Proof. intros cache Hc. by exists cache. Qed.

Lemma yields_bind {A B} opts (c : M A) (k : A -> M B) a b :
  yields opts c a -> yields opts (k a) b -> yields opts (bind c k) b.
Proof.
  intros Hc Hk cache Hcache.
  destruct (Hc cache Hcache) as (c1 & Hrun & Hc1 & Hsame1).
  destruct (Hk c1 Hc1) as (c2 & Hrun2 & Hc2 & Hsame2).
  exists c2. rewrite (bind_normal _ _ _ _ _ Hrun). split; [done|]. split; [done|].
  intros Hfix. by rewrite Hsame2, Hsame1.
Qed.

Lemma yields_tryParseJson opts jsonStr :
  yields opts (tryParseJson opts jsonStr)
    (match recovered opts jsonStr with
     | Some v => parsed_ok v
     | None => if is_blank jsonStr
               then {| success := false; data := JNull;
                       error := Some "Empty JSON string"%string |}
               else parse_failure
     end).
Proof.
  intros cache Hc. unfold recovered.
  destruct (is_blank jsonStr) eqn:Hblank.
  - exists cache. split; [|done]. unfold tryParseJson.
    unfold is_blank in Hblank. by rewrite Hblank.
  - destruct (tryParseJson_spec opts jsonStr cache Hblank Hc) as (c' & -> & Hc' & Hsame).
    exists c'. split; [|done]. by destruct (first_parse _).
Qed.

Lemma yields_unwrapResponse opts n : forall v,
  yields opts (unwrapResponse opts v n) (unwrapped opts n v).
Proof.
  induction n as [|n IH]; intros v cache Hc.
  { exists cache. by split. }
  cbn [unwrapped].
  destruct (inspect_json v) as [| |s|r|] eqn:Hv.
  1,2,5: exists cache; split; [|done];
    apply unwrap_stop; unfold unwrap_body; cbn [Nat.ltb Nat.leb]; by rewrite Hv.
  - destruct (yields_tryParseJson opts s cache Hc) as (c1 & Hp & Hc1 & Hsame1).
    destruct (recovered opts s) as [w|] eqn:Hrec.
    + destruct (IH w c1 Hc1) as (c2 & Hrun & Hc2 & Hsame2).
      exists c2. split; [|split; [done|intros Hfix; by rewrite Hsame2, Hsame1]].
      rewrite <- Hrun. apply (unwrap_descend opts n v cache w c1).
      unfold unwrap_body. cbn [Nat.ltb Nat.leb]. rewrite Hv.
      by rewrite (bind_normal _ _ _ _ _ Hp).
    + exists c1. split; [|done].
      apply unwrap_stop. unfold unwrap_body. cbn [Nat.ltb Nat.leb]. rewrite Hv.
      rewrite (bind_normal _ _ _ _ _ Hp). by destruct (is_blank s).
  - destruct (IH r cache Hc) as (c2 & Hrun & Hc2 & Hsame2).
    exists c2. split; [|done].
    rewrite <- Hrun. apply unwrap_descend.
    unfold unwrap_body. cbn [Nat.ltb Nat.leb]. by rewrite Hv.
Qed.

Lemma fast_path_eq response cache :
  fast_path response cache = (Normal (fast_block response), cache).
Proof.
  unfold fast_path, fast_block.
  destruct (first_match no_flags Patterns.fastPathPattern response) as [mt|];
    [|reflexivity].
  destruct (group 1 mt) as [g|]; [|reflexivity].
  generalize (trim g). intros body.
  unfold try_catch, bind, lift, ret. by destruct (JSON_parse body).
Qed.

Lemma yields_fast_path opts response :
  yields opts (fast_path response) (fast_block response).
Proof. intros cache Hc. exists cache. by rewrite fast_path_eq. Qed.

Lemma yields_recovery opts jsonStr :
  yields opts
    (let* result := tryParseJson opts jsonStr in
     if success result then
       let* v := unwrapResponse opts (data result) 2 in ret (Some v)
     else ret None)
    (unwrapped opts 2 <$> recovered opts jsonStr).
Proof.
  eapply yields_bind; [apply yields_tryParseJson|].
  destruct (recovered opts jsonStr) as [w|]; simpl.
  - eapply yields_bind; [apply yields_unwrapResponse|apply yields_ret].
  - destruct (is_blank jsonStr); apply yields_ret.
Qed.

Lemma yields_try_candidates opts cands :
  yields opts (try_candidates opts cands)
    (unwrapped opts 2 <$> first_recovered opts cands).
Proof.
  induction cands as [|c rest IH]; [apply yields_ret|].
  cbn [try_candidates first_recovered].
  eapply yields_bind; [apply yields_tryParseJson|].
  destruct (recovered opts c) as [w|]; simpl.
  - eapply yields_bind; [apply yields_unwrapResponse|apply yields_ret].
  - destruct (is_blank c); apply IH.
Qed.

Lemma yields_aggressive opts response :
  yields opts (aggressive opts response)
    (unwrapped opts 2 <$> aggressive_recovered opts response).
Proof.
  unfold aggressive, aggressive_recovered.
  destruct (attemptFix opts); [|apply yields_ret].
  destruct (findJsonBoundaries _ _) as [span|]; [|apply yields_ret].
  destruct (nonempty span); [|apply yields_ret].
  apply yields_recovery.
Qed.

Lemma yields_pipeline opts response :
  yields opts (pipeline opts response) (outcome opts response).
Proof.
  unfold pipeline, outcome.
  eapply yields_bind; [apply yields_fast_path|].
  destruct (fast_block response) as [v|]; [apply yields_ret|].
  eapply yields_bind; [apply yields_tryParseJson|].
  destruct (recovered opts response) as [w|]; simpl.
  { eapply yields_bind; [apply yields_unwrapResponse|apply yields_ret]. }
  assert (Hrest : yields opts
    (let* found := try_candidates opts (sortedCandidates opts response) in
     match found with
     | Some v => ret (CandidateFallback, v)
     | None =>
         let* last := aggressive opts response in
         match last with
         | Some v => ret (AggressiveFallback, v)
         | None => ret (TotalFailure, failure_record)
         end
     end)
    (match first_recovered opts (sortedCandidates opts response) with
     | Some v => (CandidateFallback, unwrapped opts 2 v)
     | None =>
         match aggressive_recovered opts response with
         | Some v => (AggressiveFallback, unwrapped opts 2 v)
         | None => (TotalFailure, failure_record)
         end
     end)).
  { eapply yields_bind; [apply yields_try_candidates|].
    destruct (first_recovered _ _) as [w|]; simpl; [apply yields_ret|].
    eapply yields_bind; [apply yields_aggressive|].
    destruct (aggressive_recovered _ _); apply yields_ret. }
  destruct (is_blank response); exact Hrest.
Qed.

Lemma blank_spaces s : is_blank s = true -> forallb is_space s = true.
Proof.
  unfold is_blank. intros Hb.
  assert (Ht : trim s = []).
  { destruct s as [|c s]; [done|]. simpl in Hb.
    apply Nat.eqb_eq in Hb. by apply length_zero_iff_nil. }
  destruct (trimStart_split s) as (ws1 & H1 & Hws1).
  destruct (trimEnd_split (trimStart s)) as (ws2 & H2 & Hws2).
  fold (trim s) in H2. rewrite Ht in H2. simpl in H2.
  rewrite H1, H2, forallb_app. by rewrite Hws1, Hws2.
Qed.

Lemma fenced_not_blank response mt :
  first_match no_flags Patterns.fastPathPattern response = Some mt ->
  is_blank response = false.
Proof.
  unfold first_match.
  destruct (search _ _ _ _) as [[[bef aft] st]|] eqn:Hs; [|done]. intros _.
  apply search_sound in Hs as (Hrun & skipped & ->).
  apply fast_path_match_shape in Hrun as (ws & post & Haft & _).
  simpl in Haft. subst aft.
  destruct (is_blank _) eqn:Hb; [|done].
  apply blank_spaces in Hb. rewrite forallb_app in Hb.
  apply andb_true_iff in Hb as [_ Hb]. done.
Qed.

(** X10.  When the body of the first fenced block labeled json parses, the
    engine returns that parse as it is, whatever the options are and
    whatever else the text holds. *)
Theorem fenced_json_block_wins (response : jsstring) (jsonMatch : rmatch)
    (body : jsstring) (parsed : json) (options : options_arg) :
  first_match no_flags Patterns.fastPathPattern response = Some jsonMatch ->
  group 1 jsonMatch = Some body ->
  JSON_parse (trim body) = Normal parsed ->
  parseLLMJson_staged (ArgString response) options = Normal (FastPath, parsed).
Proof.
  intros Hm Hg Hp. unfold parseLLMJson_staged. cbn [normalize_input].
  rewrite (fenced_not_blank _ _ Hm).
  destruct (yields_pipeline (normalize_options options) response ∅
              (cache_consistent_empty _)) as (c' & -> & _).
  unfold outcome, fast_block. by rewrite Hm, Hg, Hp.
Qed.

Lemma fenced_json_block_wins_witness :
  parseLLMJson_staged (ArgString fenced_envelope) (only_attemptFix false)
    = Normal (FastPath, envelope_value).
Proof.
  eapply (fenced_json_block_wins fenced_envelope _ envelope_text);
    vm_compute; reflexivity.
Defined.

(** X11.  The engine is a function of the text that can be written without
    the cache: it answers with the parse of the first fenced json block,
    else with what is recovered from the whole text, else from the first
    candidate by descending length that yields a value, else from the
    bracket span of the text, each but the first unwrapped with bound 2,
    else with the failure record. *)
Theorem parseLLMJson_outcome (response : jsstring) (options : options_arg) :
  parseLLMJson_staged (ArgString response) options
  = Normal (if is_blank response then (NoInput, JNull)
            else outcome (normalize_options options) response).
Proof.
  unfold parseLLMJson_staged. cbn [normalize_input].
  destruct (is_blank response); [done|].
  by destruct (yields_pipeline (normalize_options options) response ∅
                 (cache_consistent_empty _)) as (c' & -> & _).
Qed.

(** X12.  The repair cache never changes a result: from every cache that
    holds repairs only, [tryParseJson], the unwrapper and the whole
    pipeline return what they return from the empty cache. *)
Theorem cache_is_transparent (opts : ParseOptions) (text : jsstring) (v : json)
    (maxAttempts : nat) (cache : gmap (list N) (list N)) :
  cache_consistent (allowPartial opts) cache ->
  fst (tryParseJson opts text cache) = fst (tryParseJson opts text ∅)
  /\ fst (unwrapResponse opts v maxAttempts cache)
     = fst (unwrapResponse opts v maxAttempts ∅)
  /\ fst (pipeline opts text cache) = fst (pipeline opts text ∅).
Proof.
  intros Hc. pose proof (cache_consistent_empty (allowPartial opts)) as He.
  repeat split.
  - destruct (yields_tryParseJson opts text cache Hc) as (c1 & -> & _).
    by destruct (yields_tryParseJson opts text ∅ He) as (c2 & -> & _).
  - destruct (yields_unwrapResponse opts maxAttempts v cache Hc) as (c1 & -> & _).
    by destruct (yields_unwrapResponse opts maxAttempts v ∅ He) as (c2 & -> & _).
  - destruct (yields_pipeline opts text cache Hc) as (c1 & -> & _).
    by destruct (yields_pipeline opts text ∅ He) as (c2 & -> & _).
Qed.

Lemma warm_cache_consistent : cache_consistent false warm_cache.
Proof.
  intros k v. unfold warm_cache.
  destruct (decide (js "oops" = k)) as [<-|Hne].
  - rewrite lookup_insert_eq. intros [= <-]. vm_compute. reflexivity.
  - rewrite lookup_insert_ne by done. by rewrite lookup_empty.
Qed.

Lemma cache_is_transparent_witness :
  fst (tryParseJson default_options python_style_object warm_cache)
    = fst (tryParseJson default_options python_style_object ∅)
  /\ fst (unwrapResponse default_options prose_envelope 2 warm_cache)
     = fst (unwrapResponse default_options prose_envelope 2 ∅)
  /\ fst (pipeline default_options python_style_object warm_cache)
     = fst (pipeline default_options python_style_object ∅).
Proof.
  apply (cache_is_transparent default_options python_style_object prose_envelope 2
           warm_cache).
  exact warm_cache_consistent.
Defined.

Lemma first_recovered_none opts cands :
  first_recovered opts cands = None <-> Forall (fun c => recovered opts c = None) cands.
Proof.
  induction cands as [|c rest IH]; simpl; [split; [constructor|done]|].
  destruct (recovered opts c) as [v|] eqn:Hc.
  - split; [done|]. intros H. inversion H; congruence.
  - rewrite IH. split; [by constructor|]. intros H. by inversion H.
Qed.

Lemma recovered_none_strict opts s :
  recovered opts s = None -> is_blank s = false ->
  JSON_parse (trim s) = Throw SyntaxError.
Proof.
  unfold recovered, parse_sources. intros H Hb. rewrite Hb in H. revert H. cbv zeta.
  generalize (trim s). intros clean. cbn [first_parse].
  unfold JSON_parse. by destruct (Json.parse clean).
Qed.

Lemma blank_trim s : is_blank s = true -> trim s = [].
Proof.
  unfold is_blank. destruct s as [|c s]; [done|]. simpl.
  intros Hb%Nat.eqb_eq. by apply length_zero_iff_nil.
Qed.

Lemma total_failure_cases (response : jsstring) (options : options_arg) :
  parseLLMJson_staged (ArgString response) options = Normal (TotalFailure, failure_record)
  <-> is_blank response = false
      /\ fast_block response = None
      /\ recovered (normalize_options options) response = None
      /\ Forall (fun c => recovered (normalize_options options) c = None)
                (extractJson (normalize_options options) response)
      /\ aggressive_recovered (normalize_options options) response = None.
Proof.
  set (opts := normalize_options options).
  unfold parseLLMJson_staged. cbn [normalize_input]. fold opts.
  destruct (is_blank response); [split; [done|by intros [? _]]|].
  destruct (yields_pipeline opts response ∅ (cache_consistent_empty _))
    as (c' & -> & _).
  cbn [fst]. unfold outcome.
  assert (Hperm : Forall (fun c => recovered opts c = None) (extractJson opts response)
                  <-> first_recovered opts (sortedCandidates opts response) = None).
  { rewrite first_recovered_none. unfold sortedCandidates.
    split; apply Permutation_Forall; [symmetry|]; apply js_sort_perm. }
  rewrite Hperm.
  destruct (fast_block response); [split; [done|by intros (_ & ? & _)]|].
  destruct (recovered opts response); [split; [done|by intros (_ & _ & ? & _)]|].
  destruct (first_recovered opts _); [split; [done|by intros (_ & _ & _ & ? & _)]|].
  destruct (aggressive_recovered opts response);
    [split; [done|by intros (_ & _ & _ & _ & ?)]|].
  done.
Qed.

Lemma total_failure_direct (response : jsstring) (options : options_arg) :
  parseLLMJson_staged (ArgString response) options = Normal (TotalFailure, failure_record) ->
  JSON_parse (trim response) = Throw SyntaxError.
Proof.
  intros (Hblank & _ & Hwhole & _)%total_failure_cases.
  by apply (recovered_none_strict (normalize_options options)).
Qed.

(** X13.  The engine answers with the failure record at its last stage
    exactly when the text is not blank, the body of the first fenced block
    labeled json, if there is one, does not parse, and nothing is recovered
    from the whole text, from any of the candidates the extractor returns
    (at most [maxBlocks] of them), or from the bracket span of the text;
    then neither the trimmed text nor any of these candidates is accepted
    by [JSON.parse].  A later fenced block that would parse does not count
    when the extractor does not return it. *)
Theorem total_failure_iff (response : jsstring) (options : options_arg) :
  let opts := normalize_options options in
  (parseLLMJson_staged (ArgString response) options = Normal (TotalFailure, failure_record)
   <-> is_blank response = false
       /\ fast_block response = None
       /\ recovered opts response = None
       /\ Forall (fun c => recovered opts c = None) (extractJson opts response)
       /\ aggressive_recovered opts response = None)
  /\ (parseLLMJson_staged (ArgString response) options = Normal (TotalFailure, failure_record) ->
      JSON_parse (trim response) = Throw SyntaxError
      /\ Forall (fun c => JSON_parse c = Throw SyntaxError) (extractJson opts response)).
Proof.
  intros opts. split; [apply total_failure_cases|].
  intros Hfail. split; [by apply (total_failure_direct response options)|].
  apply total_failure_cases in Hfail as (_ & _ & _ & Hcands & _). fold opts in Hcands.
  pose proof (extract_results_trimmed opts response) as Hshape.
  unfold extractJson in *. rewrite Forall_map in Hcands. rewrite Forall_map.
  rewrite Forall_forall in *. intros c Hc.
  destruct (Hshape c Hc) as (Hne & Htrim).
  specialize (Hcands c Hc). simpl in Hcands.
  rewrite <- Htrim. apply (recovered_none_strict opts); [done|].
  destruct (is_blank (content c)) eqn:Hb; [|done].
  apply blank_trim in Hb. congruence.
Qed.

Lemma total_failure_iff_witness :
  JSON_parse (trim truncated_input) = Throw SyntaxError
  /\ Forall (fun c => JSON_parse c = Throw SyntaxError)
            (extractJson default_options truncated_input).
Proof.
  apply (proj2 (total_failure_iff truncated_input OptionsInvalid)).
  vm_compute. reflexivity.
Defined.

(** X14.  With [attemptFix] false the engine accepts strictly valid JSON
    only: whatever it recovers from a string is the value [JSON.parse]
    gives for the trimmed string, the repair cache stays empty, and the
    stage is never the bracket-span fallback. *)
Theorem attemptFix_false_is_strict (response : jsstring) (options : options_arg) :
  let opts := normalize_options options in
  attemptFix opts = false ->
  (forall s v, recovered opts s = Some v -> JSON_parse (trim s) = Normal v)
  /\ exists st v,
      pipeline opts response ∅ = (Normal (st, v), ∅)
      /\ st <> AggressiveFallback.
Proof.
  intros opts Hfix. split.
  - intros s v. unfold recovered, parse_sources. rewrite Hfix.
    destruct (is_blank s); [done|]. cbv zeta.
    generalize (trim s). intros clean. cbn [first_parse].
    by destruct (JSON_parse clean) as [w|]; [intros [= ->]|].
  - destruct (yields_pipeline opts response ∅ (cache_consistent_empty _))
      as (c' & Hrun & _ & Hsame).
    rewrite (Hsame Hfix) in Hrun.
    exists (fst (outcome opts response)), (snd (outcome opts response)).
    split; [by rewrite <- surjective_pairing|].
    unfold outcome, aggressive_recovered. rewrite Hfix.
    destruct (fast_block response); [done|].
    destruct (recovered opts response); [done|].
    by destruct (first_recovered opts _).
Qed.

Lemma attemptFix_false_is_strict_witness :
  exists st v,
    pipeline (normalize_options (only_attemptFix false)) short_inline_span ∅
      = (Normal (st, v), ∅)
    /\ st <> AggressiveFallback.
Proof.
  apply (proj2 (attemptFix_false_is_strict short_inline_span (only_attemptFix false)
                  eq_refl)).
Defined.

Lemma span_not_blank allowPartial s span :
  findJsonBoundaries allowPartial (trim s) = Some span -> is_blank s = false.
Proof.
  intros Hspan. destruct (is_blank s) eqn:Hb; [|done].
  apply blank_trim in Hb. rewrite Hb in Hspan.
  by destruct allowPartial.
Qed.

(** X15.  With [attemptFix] set, when the fast path does not fire (the
    text has no fenced block labeled json whose body parses) and the
    trimmed text does not parse but its bracket span does, the engine
    returns the unwrapped parse of that span from its whole-input stage: no
    candidate of the extractor is looked at, whatever [preferFirst] and
    [maxBlocks] are. *)
Theorem first_span_before_candidates (response span : jsstring) (v : json)
    (options : options_arg) :
  let opts := normalize_options options in
  attemptFix opts = true ->
  fst (fast_path response ∅) = Normal None ->
  JSON_parse (trim response) = Throw SyntaxError ->
  findJsonBoundaries (allowPartial opts) (trim response) = Some span ->
  JSON_parse span = Normal v ->
  parseLLMJson_staged (ArgString response) options
  = Normal (WholeInput, unwrapped opts 2 v)
  /\ fst (unwrapResponse opts v 2 ∅) = Normal (unwrapped opts 2 v).
Proof.
  intros opts Hfix Hfast Hdirect Hspan Hparse. split.
  - unfold parseLLMJson_staged. cbn [normalize_input]. fold opts.
    rewrite (span_not_blank _ _ _ Hspan).
    destruct (yields_pipeline opts response ∅ (cache_consistent_empty _))
      as (c' & -> & _).
    rewrite fast_path_eq in Hfast. injection Hfast as Hfast.
    unfold outcome. rewrite Hfast.
    unfold recovered, parse_sources. rewrite (span_not_blank _ _ _ Hspan), Hfix, Hspan.
    cbv zeta. revert Hdirect Hparse. generalize (trim response). intros clean.
    generalize (repairs (allowPartial opts) clean). intros fixed.
    generalize (findJsonBoundaries (allowPartial opts) fixed). intros span2.
    intros Hdirect Hparse. cbn [first_parse option_list app].
    change (option_list (Some span)) with [span]. cbn [first_parse app].
    by rewrite Hdirect, Hparse.
  - by destruct (yields_unwrapResponse opts 2 v ∅ (cache_consistent_empty _))
      as (c' & -> & _).
Qed.

Lemma first_span_before_candidates_witness :
  parseLLMJson_staged (ArgString two_objects) (only_preferFirst false)
  = Normal (WholeInput, unwrapped (normalize_options (only_preferFirst false)) 2 (obj_x 1))
  /\ fst (unwrapResponse (normalize_options (only_preferFirst false)) (obj_x 1) 2 ∅)
     = Normal (unwrapped (normalize_options (only_preferFirst false)) 2 (obj_x 1)).
Proof.
  apply (first_span_before_candidates two_objects
           (js "{" ++ dq ++ js "x" ++ dq ++ js ": 1}") (obj_x 1) (only_preferFirst false));
    vm_compute; reflexivity.
Defined.

(** ** Patterns that need a character the text does not have *)

Lemma star_loop_suffix body greedy :
  (forall st k res, body st k = Some res ->
     exists st' w, after st = w ++ after st' /\ k st' = Some res) ->
  forall fuel st k res,
    star_loop body greedy fuel st k = Some res ->
    exists st' w, after st = w ++ after st' /\ k st' = Some res.
Proof.
  intros Hbody. induction fuel as [|fuel IH]; intros st k res; simpl.
  { intros H. by exists st, []. }
  set (iter := body st _).
  assert (Hiter : iter = Some res ->
    exists st' w, after st = w ++ after st' /\ k st' = Some res).
  { intros (st1 & w1 & Hw1 & H1)%Hbody.
    destruct (_ <? _)%nat; [|done].
    apply IH in H1 as (st' & w2 & Hw2 & Hk). exists st', (w1 ++ w2).
    split; [|done]. by rewrite Hw1, Hw2, app_assoc. }
  destruct greedy.
  - destruct iter as [r|] eqn:E; [intros [= ->]; by apply Hiter|].
    intros H. by exists st, [].
  - destruct (k st) as [r|] eqn:E; [intros [= ->]; by exists st, []|].
    apply Hiter.
Qed.

Lemma run_suffix fl r : forall st k res,
  run fl r st k = Some res ->
  exists st' w, after st = w ++ after st' /\ k st' = Some res.
Proof.
  assert (Hstep : forall p st k res, step_char p st k = Some res ->
    exists st' w, after st = w ++ after st' /\ k st' = Some res).
  { intros p st k res. unfold step_char.
    destruct (after st) as [|c rest] eqn:E; [done|].
    destruct (p c); [|done]. intros H. eexists _, [c]. split; [|exact H]. done. }
  induction r as [| | | |r1 IH1 r2 IH2|r1 IH1 r2 IH2|greedy r IH|n r IH| | |];
    intros st k res; cbn [run]; try apply Hstep.
  - intros H. by exists st, [].
  - intros (st1 & w1 & Hw1 & (st2 & w2 & Hw2 & H)%IH2)%IH1.
    exists st2, (w1 ++ w2). split; [|done]. by rewrite Hw1, Hw2, app_assoc.
  - destruct (run fl r1 st k) as [x|] eqn:E; [intros [= ->]; by apply IH1|].
    apply IH2.
  - by apply star_loop_suffix.
  - intros (st1 & w & Hw & H)%IH. eexists _, w. split; [|exact H]. done.
  - destruct (at_bol fl st); [|done]. intros H. by exists st, [].
  - destruct (at_eol fl st); [|done]. intros H. by exists st, [].
  - destruct (at_word_boundary st); [|done]. intros H. by exists st, [].
Qed.

Lemma run_needs fl p r :
  (forall c x, char_eq fl c x = true -> p c = true -> p x = true) ->
  needs p r = true ->
  forall st k res, run fl r st k = Some res -> existsb p (after st) = true.
Proof.
  intros Hp.
  induction r as [| | | |r1 IH1 r2 IH2|r1 IH1 r2 IH2|greedy r IH|n r IH| | |];
    cbn [needs]; try done; intros Hn st k res; cbn [run].
  - unfold step_char. destruct (after st) as [|x rest]; [done|].
    destruct (char_eq fl c x) eqn:Hc; [|done]. intros _. simpl.
    by rewrite (Hp c x Hc Hn).
  - apply orb_true_iff in Hn as [Hn|Hn].
    + by apply IH1.
    + intros (st1 & w & Hw & H)%run_suffix. apply (IH2 Hn) in H.
      rewrite Hw, existsb_app, H. by rewrite orb_true_r.
  - apply andb_true_iff in Hn as [Hn1 Hn2].
    destruct (run fl r1 st k) as [x|] eqn:E; [intros _; by apply (IH1 Hn1 _ _ _ E)|].
    by apply IH2.
  - by apply IH.
Qed.

Lemma search_needs fl p r aft :
  (forall c x, char_eq fl c x = true -> p c = true -> p x = true) ->
  needs p r = true -> existsb p aft = false ->
  forall bef, search fl r bef aft = None.
Proof.
  intros Hp Hn. induction aft as [|c aft IH]; intros Hno bef; simpl.
  - destruct (run fl r (MState bef [] []) Some) as [st|] eqn:Hrun; [|done].
    by apply (run_needs fl p r Hp Hn) in Hrun.
  - destruct (run fl r (MState bef (c :: aft) []) Some) as [st|] eqn:Hrun.
    + apply (run_needs fl p r Hp Hn) in Hrun. simpl in *. congruence.
    + apply IH. simpl in Hno. by apply orb_false_iff in Hno as [_ ?].
Qed.

Lemma replace_all_needs fl p r tpl text :
  (forall c x, char_eq fl c x = true -> p c = true -> p x = true) ->
  needs p r = true -> existsb p text = false ->
  replace_all fl r tpl text = text.
Proof.
  intros Hp Hn Hno. unfold replace_all, exec_all. cbn [exec_from].
  by rewrite (search_needs fl p r text Hp Hn Hno).
Qed.

Lemma char_eq_exact fl (p : N -> bool) :
  ignoreCase fl = false ->
  forall c x, char_eq fl c x = true -> p c = true -> p x = true.
Proof.
  intros Hfl c x. unfold char_eq. rewrite Hfl. by intros ->%N.eqb_eq.
Qed.

(** ** Texts without markup *)

Lemma all_matches_needs fl p r text :
  (forall c x, char_eq fl c x = true -> p c = true -> p x = true) ->
  needs p r = true -> existsb p text = false ->
  all_matches fl r text = [].
Proof.
  intros Hp Hn Hno. unfold all_matches, exec_all. cbn [exec_from].
  by rewrite (search_needs fl p r text Hp Hn Hno).
Qed.

Lemma existsb_weaken {A} (p q : A -> bool) l :
  (forall x, p x = true -> q x = true) ->
  existsb q l = false -> existsb p l = false.
Proof.
  intros Hpq Hq. apply not_true_is_false. intros (x & Hin & Hx)%existsb_exists.
  apply not_true_iff_false in Hq. apply Hq, existsb_exists. exists x. auto.
Qed.

Lemma first_opener_none s : forall inStr esc,
  existsb is_opener s = false -> first_opener inStr esc s = None.
Proof.
  induction s as [|c s IH]; intros inStr esc; simpl; [done|].
  intros [Hc Hs]%orb_false_iff. rewrite Hc, andb_false_r.
  rewrite !IH by done. by destruct esc, (c =? 92)%N, (c =? 34)%N.
Qed.

Lemma no_markup_parts text :
  existsb is_markup text = false ->
  existsb (fun c => (c =? 96)%N) text = false
  /\ existsb (fun c => (c =? 123)%N) text = false
  /\ existsb (fun c => (c =? 91)%N) text = false
  /\ existsb is_opener text = false.
Proof.
  intros H. repeat split; (eapply existsb_weaken; [|exact H]);
    intros x Hx; unfold is_markup, is_opener in *; rewrite ?Hx;
    by rewrite ?orb_true_r.
Qed.

Lemma extract_results_no_markup opts text :
  existsb is_markup text = false -> extract_results opts text = [].
Proof.
  intros (H96 & H123 & H91 & _)%no_markup_parts. unfold extract_results.
  rewrite (all_matches_needs no_flags (fun c => (c =? 96)%N) Patterns.jsonBlockPattern)
    by (done || by apply char_eq_exact).
  rewrite (all_matches_needs no_flags (fun c => (c =? 96)%N) Patterns.codeBlockPattern)
    by (done || by apply char_eq_exact).
  rewrite (all_matches_needs no_flags (fun c => (c =? 96)%N) Patterns.inlinePattern)
    by (done || by apply char_eq_exact).
  cbn [fold_left jsonPatterns].
  rewrite (all_matches_needs no_flags (fun c => (c =? 123)%N) Patterns.objectPattern)
    by (done || by apply char_eq_exact).
  rewrite (all_matches_needs no_flags (fun c => (c =? 91)%N) Patterns.arrayPattern)
    by (done || by apply char_eq_exact).
  by destruct (preferFirst opts).
Qed.

(** X16.  A text without a backquote, an opening brace and an opening
    bracket has no fenced block, no candidate and no bracket span: the
    engine answers null when the text is blank, and otherwise the unwrapped
    value [tryParseJson] recovers from the whole text or, when it recovers
    none, the failure record. *)
Theorem text_without_markup (response : jsstring) (options : options_arg) :
  let opts := normalize_options options in
  existsb is_markup response = false ->
  first_match no_flags Patterns.fastPathPattern response = None
  /\ extractJson opts response = []
  /\ findJsonBoundaries (allowPartial opts) response = None
  /\ parseLLMJson_staged (ArgString response) options
     = Normal (if is_blank response then (NoInput, JNull)
               else match recovered opts response with
                    | Some v => (WholeInput, unwrapped opts 2 v)
                    | None => (TotalFailure, failure_record)
                    end).
Proof.
  intros opts Hno.
  pose proof (no_markup_parts _ Hno) as (H96 & _ & _ & Hop).
  assert (Hfast : first_match no_flags Patterns.fastPathPattern response = None).
  { unfold first_match.
    by rewrite (search_needs no_flags (fun c => (c =? 96)%N) Patterns.fastPathPattern
                  response (char_eq_exact no_flags _ eq_refl) eq_refl H96). }
  assert (Hcands : extractJson opts response = []).
  { unfold extractJson. by rewrite extract_results_no_markup. }
  assert (Hspan : findJsonBoundaries (allowPartial opts) response = None).
  { apply findJsonBoundaries_no_opener. by apply first_opener_none. }
  repeat split; try done.
  unfold parseLLMJson_staged. cbn [normalize_input]. fold opts.
  destruct (is_blank response); [reflexivity|].
  destruct (yields_pipeline opts response ∅ (cache_consistent_empty _))
    as (c' & -> & _).
  unfold outcome, fast_block, sortedCandidates, aggressive_recovered.
  rewrite Hfast, Hcands, Hspan. cbn [js_sort fold_right first_recovered].
  destruct (recovered opts response); [reflexivity|].
  destruct (attemptFix opts); reflexivity.
Qed.

Lemma text_without_markup_witness :
  first_match no_flags Patterns.fastPathPattern prose_reply = None
  /\ extractJson default_options prose_reply = []
  /\ findJsonBoundaries false prose_reply = None
  /\ parseLLMJson_staged (ArgString prose_reply) OptionsInvalid
     = Normal (if is_blank prose_reply then (NoInput, JNull)
               else match recovered default_options prose_reply with
                    | Some v => (WholeInput, unwrapped default_options 2 v)
                    | None => (TotalFailure, failure_record)
                    end).
Proof.
  apply (text_without_markup prose_reply OptionsInvalid). vm_compute. reflexivity.
Defined.

(** ** The candidate fallback answers from a longest candidate *)

Lemma sortedCandidates_sorted opts text :
  StronglySorted (fun a b : list N => (length b <= length a)%nat)
                 (sortedCandidates opts text).
Proof.
  apply Sorted_StronglySorted; [intros a b c; lia|].
  unfold sortedCandidates.
  eapply Sorted_ind with (P := fun l => Sorted _ l);
    [constructor| |
     apply (js_sort_sorted by_length_desc (fun a => (- Z.of_nat (length a))%Z));
     unfold by_length_desc; intros a b; lia].
  intros a l _ IH Hhd. constructor; [exact IH|].
  destruct Hhd; constructor. lia.
Qed.

Lemma first_recovered_longest opts l w :
  StronglySorted (fun a b : list N => (length b <= length a)%nat) l ->
  first_recovered opts l = Some w ->
  exists c, In c l /\ recovered opts c = Some w
            /\ forall c', In c' l -> (length c < length c')%nat ->
                          recovered opts c' = None.
Proof.
  induction 1 as [|a l Hs IH Hall]; simpl; [done|].
  destruct (recovered opts a) as [v|] eqn:Ha.
  - intros [= ->]. exists a. split; [by left|]. split; [done|].
    intros c' [<-|Hin] Hlt; [lia|].
    rewrite Forall_forall in Hall. apply list_elem_of_In, Hall in Hin. lia.
  - intros Hw. destruct (IH Hw) as (c & Hin & Hc & Hlonger).
    exists c. split; [by right|]. split; [done|].
    intros c' [<-|Hin'] Hlt; [done|]. by apply Hlonger.
Qed.

(** X17.  When the candidate fallback answers, the value is recovered from
    a candidate of the extractor and unwrapped, and nothing is recovered
    from any longer candidate: the fallback answers from a longest
    candidate that yields a value. *)
Theorem candidate_fallback_longest (response : jsstring) (options : options_arg)
    (v : json) :
  let opts := normalize_options options in
  parseLLMJson_staged (ArgString response) options = Normal (CandidateFallback, v) ->
  exists c w,
    In c (extractJson opts response)
    /\ recovered opts c = Some w
    /\ v = unwrapped opts 2 w
    /\ forall c', In c' (extractJson opts response) ->
                  (length c < length c')%nat -> recovered opts c' = None.
Proof.
  intros opts. unfold parseLLMJson_staged. cbn [normalize_input]. fold opts.
  destruct (is_blank response); [done|].
  destruct (yields_pipeline opts response ∅ (cache_consistent_empty _))
    as (c' & -> & _).
  cbn [fst]. unfold outcome.
  destruct (fast_block response); [done|].
  destruct (recovered opts response); [done|].
  destruct (first_recovered opts (sortedCandidates opts response)) as [w|] eqn:Hfirst.
  - intros [= <-].
    destruct (first_recovered_longest opts _ w (sortedCandidates_sorted opts response) Hfirst)
      as (c & Hin & Hc & Hlonger).
    assert (Hperm : forall x, In x (sortedCandidates opts response)
                              <-> In x (extractJson opts response)).
    { intros x. unfold sortedCandidates.
      split; apply Permutation_in; [|symmetry]; apply js_sort_perm. }
    exists c, w. split; [by apply Hperm|]. split; [done|]. split; [done|].
    intros x Hx. apply Hlonger. by apply Hperm.
  - by destruct (aggressive_recovered opts response).
Qed.

Lemma candidate_fallback_longest_witness :
  exists c w,
    In c (extractJson (normalize_options (only_preferFirst true)) span_then_array)
    /\ recovered (normalize_options (only_preferFirst true)) c = Some w
    /\ array_1_to_5 = unwrapped (normalize_options (only_preferFirst true)) 2 w
    /\ forall c', In c' (extractJson (normalize_options (only_preferFirst true)) span_then_array) ->
                  (length c < length c')%nat ->
                  recovered (normalize_options (only_preferFirst true)) c' = None.
Proof.
  apply (candidate_fallback_longest span_then_array (only_preferFirst true) array_1_to_5).
  vm_compute. reflexivity.
Defined.

(** ** The repair engine rewrites nothing without a trigger *)

Lemma replace_first_needs fl p r tpl text :
  (forall c x, char_eq fl c x = true -> p c = true -> p x = true) ->
  needs p r = true -> existsb p text = false ->
  replace_first fl r tpl text = text.
Proof.
  intros Hp Hn Hno. unfold replace_first.
  by rewrite (search_needs fl p r text Hp Hn Hno).
Qed.

Lemma char_eq_colon c x :
  char_eq flag_i c x = true -> (c =? 58)%N = true -> (x =? 58)%N = true.
Proof.
  unfold char_eq, canon. cbn [ignoreCase flag_i].
  intros H ->%N.eqb_eq. apply N.eqb_eq in H. apply N.eqb_eq.
  change (is_lower 58) with false in H. cbv iota in H.
  destruct (is_lower x) eqn:Hx; [|done].
  unfold is_lower, in_range in Hx. apply andb_true_iff in Hx as [H1%N.leb_le H2%N.leb_le].
  lia.
Qed.

Lemma no_trigger text (x : N) :
  existsb is_repair_trigger text = false ->
  is_repair_trigger x = true ->
  existsb (fun c => (c =? x)%N) text = false.
Proof.
  intros Hno Hx. eapply existsb_weaken; [|exact Hno].
  intros c Hc. cbv beta in Hc. apply N.eqb_eq in Hc. by subst c.
Qed.

(** X18.  The repair engine returns a text as it is when the text holds
    none of the characters its rewrites look for (and, with [allowPartial],
    no double quote). *)
Theorem repairs_need_a_trigger (allowPartial : bool) (text : jsstring) :
  existsb is_repair_trigger text = false ->
  (allowPartial = true -> existsb (fun c => (c =? c_quote)%N) text = false) ->
  repairs allowPartial text = text
  /\ fst (fixCommonJsonIssues allowPartial text ∅) = Normal text.
Proof.
  intros Hno Hq.
  assert (Hrep : repairs allowPartial text = text).
  { unfold repairs. cbv zeta.
    rewrite (replace_first_needs no_flags (fun c => (c =? c_bom)%N) Patterns.bom [] text)
      by (by apply char_eq_exact || done || by apply no_trigger).
    rewrite (replace_all_needs flag_m (fun c => (c =? ch "/")%N) Patterns.line_comment [] text)
      by (by apply char_eq_exact || done || by apply no_trigger).
    rewrite (replace_all_needs no_flags (fun c => (c =? ch "/")%N) Patterns.block_comment [] text)
      by (by apply char_eq_exact || done || by apply no_trigger).
    rewrite (replace_all_needs flag_m (fun c => (c =? ch "#")%N) Patterns.hash_comment [] text)
      by (by apply char_eq_exact || done || by apply no_trigger).
    rewrite (replace_all_needs no_flags (fun c => (c =? Patterns.c_bslash)%N)
               Patterns.escaped_squote _ text)
      by (by apply char_eq_exact || done || by apply no_trigger).
    rewrite (replace_all_needs no_flags (fun c => (c =? Patterns.c_bslash)%N)
               Patterns.escaped_dquote _ text)
      by (by apply char_eq_exact || done || by apply no_trigger).
    assert (Hquotes : (if allowPartial
                       then if negb (length (all_matches no_flags Patterns.dquote text) mod 2 =? 0)%nat
                            then text ++ dq else text
                       else text) = text).
    { destruct allowPartial; [|done].
      by rewrite (all_matches_needs no_flags (fun c => (c =? c_quote)%N) Patterns.dquote text)
        by (by apply char_eq_exact || done || by apply Hq). }
    rewrite Hquotes.
    rewrite (replace_all_needs no_flags (fun c => (c =? ch ",")%N)
               Patterns.comma_before_close _ text)
      by (by apply char_eq_exact || done || by apply no_trigger).
    rewrite (replace_all_needs no_flags (fun c => (c =? ch ",")%N)
               Patterns.comma_at_end _ text)
      by (by apply char_eq_exact || done || by apply no_trigger).
    rewrite (replace_all_needs no_flags (fun c => (c =? ch ":")%N) Patterns.bare_key _ text)
      by (by apply char_eq_exact || done || by apply no_trigger).
    rewrite (replace_all_needs no_flags (fun c => (c =? Patterns.c_squote)%N)
               Patterns.single_quoted _ text)
      by (by apply char_eq_exact || done || by apply no_trigger).
    rewrite (replace_all_needs flag_i (fun c => (c =? 58)%N) (Patterns.value_word "True") _ text)
      by (apply char_eq_colon || done || by apply no_trigger).
    rewrite (replace_all_needs flag_i (fun c => (c =? 58)%N) (Patterns.value_word "False") _ text)
      by (apply char_eq_colon || done || by apply no_trigger).
    rewrite (replace_all_needs flag_i (fun c => (c =? 58)%N) (Patterns.value_word "None") _ text)
      by (apply char_eq_colon || done || by apply no_trigger).
    rewrite (replace_all_needs flag_i (fun c => (c =? 58)%N)
               (Patterns.value_word "undefined") _ text)
      by (apply char_eq_colon || done || by apply no_trigger).
    rewrite (replace_all_needs no_flags (fun c => (c =? ch "T")%N)
               (Patterns.bare_word "True") _ text)
      by (by apply char_eq_exact || done || by apply no_trigger).
    rewrite (replace_all_needs no_flags (fun c => (c =? ch "F")%N)
               (Patterns.bare_word "False") _ text)
      by (by apply char_eq_exact || done || by apply no_trigger).
    rewrite (replace_all_needs no_flags (fun c => (c =? ch "N")%N)
               (Patterns.bare_word "None") _ text)
      by (by apply char_eq_exact || done || by apply no_trigger).
    rewrite (replace_first_needs no_flags (fun c => (c =? Patterns.c_bslash)%N)
               Patterns.escaped_inside _ text)
      by (by apply char_eq_exact || done || by apply no_trigger).
    rewrite (replace_all_needs no_flags (fun c => (c =? ch ".")%N) Patterns.three_dots _ text)
      by (by apply char_eq_exact || done || by apply no_trigger).
    rewrite (replace_all_needs no_flags (fun c => (c =? c_ellipsis)%N) Patterns.ellipsis _ text)
      by (by apply char_eq_exact || done || by apply no_trigger).
    done. }
  split; [exact Hrep|].
  unfold fixCommonJsonIssues. rewrite lookup_empty. cbn [fst]. by rewrite Hrep.
Qed.

Lemma repairs_need_a_trigger_witness :
  repairs true (js "[1 2 [3]]") = js "[1 2 [3]]"
  /\ fst (fixCommonJsonIssues true (js "[1 2 [3]]") ∅) = Normal (js "[1 2 [3]]").
Proof.
  apply (repairs_need_a_trigger true (js "[1 2 [3]]")).
  - vm_compute. reflexivity.
  - intros _. vm_compute. reflexivity.
Defined.

(** ** The first rewrite on a trimmed text *)

Lemma trim_head s :
  match trim s with [] => True | c :: _ => is_space c = false end.
Proof.
  unfold trim. pose proof (trimStart_head s) as Hhd.
  destruct (trimStart s) as [|x t]; [done|].
  by rewrite trimEnd_cons.
Qed.

Lemma bom_search_inside aft : forall x bef,
  search no_flags Patterns.bom (x :: bef) aft = None.
Proof. induction aft as [|c aft IH]; intros x bef; [done|]. simpl. apply IH. Qed.

(** X19.  The engine trims a string before it repairs it, and U+FEFF is
    white space for the trim: the first rewrite of the repair engine, which
    removes a leading U+FEFF, never changes the string [tryParseJson] hands
    to it. *)
Theorem bom_rewrite_is_idle (jsonStr : jsstring) :
  replace_first no_flags Patterns.bom [] (trim jsonStr) = trim jsonStr
  /\ is_space c_bom = true.
Proof.
  split; [|done]. unfold replace_first.
  pose proof (trim_head jsonStr) as Hhd.
  destruct (trim jsonStr) as [|x t]; [done|].
  cbn [search]. rewrite bom_search_inside.
  unfold Patterns.bom. cbn [cat fold_right run at_bol before].
  unfold step_char. cbn [after]. unfold char_eq. cbn [ignoreCase no_flags].
  destruct (N.eqb_spec c_bom x) as [<-|_]; [done|]. done.
Qed.

(** ** The option [preferFirst] *)

Lemma js_sort_sorted_id {A} (cmp : A -> A -> Z) (key : A -> Z) l :
  (forall a b, (cmp a b <= 0)%Z <-> (key a <= key b)%Z) ->
  Sorted (fun a b => (key a <= key b)%Z) l -> js_sort cmp l = l.
Proof.
  intros Hcmp. induction 1 as [|x l Hs IH Hhd]; [done|].
  simpl. fold (js_sort cmp l). rewrite IH.
  destruct Hhd as [|y l Hxy]; [done|]. simpl.
  apply Hcmp in Hxy. apply Z.leb_le in Hxy. by rewrite Hxy.
Qed.

Lemma sorted_snoc (l : list candidate) (x : candidate) :
  StronglySorted (fun a b => (priority a <= priority b)%Z) l ->
  Forall (fun y => (priority y <= priority x)%Z) l ->
  StronglySorted (fun a b => (priority a <= priority b)%Z) (l ++ [x]).
Proof.
  induction 1 as [|y l Hs IH Hall]; intros Hle; simpl.
  - repeat constructor.
  - inversion Hle as [|? ? Hy Hl]; subst. constructor; [by apply IH|].
    apply Forall_app. split; [done|]. by repeat constructor.
Qed.

Lemma collect_sorted maxBlocks accept prio ms : forall results,
  StronglySorted (fun a b => (priority a <= priority b)%Z) results ->
  Forall (fun y => (priority y <= prio)%Z) results ->
  StronglySorted (fun a b => (priority a <= priority b)%Z)
                 (collect maxBlocks accept prio ms results)
  /\ Forall (fun y => (priority y <= prio)%Z) (collect maxBlocks accept prio ms results).
Proof.
  induction ms as [|mt rest IH]; intros results Hs Hle; simpl; [done|].
  destruct (_ >=? _)%Z; [done|].
  destruct (option_map trim (group 1 mt)) as [c|]; [|by apply IH].
  destruct (nonempty c && accept c); [|by apply IH].
  apply IH.
  - by apply sorted_snoc.
  - apply Forall_app. split; [done|]. by repeat constructor.
Qed.

Lemma extract_results_same opts opts' text :
  same_but_preferFirst opts opts' ->
  extract_results opts text = extract_results opts' text.
Proof.
  intros (_ & Hmax & _).
  assert (Hsorted : forall o,
    js_sort (fun a b => (priority a - priority b)%Z)
      (fold_left (fun results pattern =>
                    collect (maxBlocks o) (fun c => (10 <? length c)%nat) 4
                      (all_matches no_flags pattern text) results)
         jsonPatterns
         (collect (maxBlocks o) json_shaped 3
            (all_matches no_flags Patterns.inlinePattern text)
            (collect (maxBlocks o) json_shaped 2
               (all_matches no_flags Patterns.codeBlockPattern text)
               (collect (maxBlocks o) (fun _ => true) 1
                  (all_matches no_flags Patterns.jsonBlockPattern text) []))))
    = fold_left (fun results pattern =>
                   collect (maxBlocks o) (fun c => (10 <? length c)%nat) 4
                     (all_matches no_flags pattern text) results)
        jsonPatterns
        (collect (maxBlocks o) json_shaped 3
           (all_matches no_flags Patterns.inlinePattern text)
           (collect (maxBlocks o) json_shaped 2
              (all_matches no_flags Patterns.codeBlockPattern text)
              (collect (maxBlocks o) (fun _ => true) 1
                 (all_matches no_flags Patterns.jsonBlockPattern text) [])))).
  { intros o. apply (js_sort_sorted_id _ priority); [intros a b; lia|].
    apply StronglySorted_Sorted. cbn [fold_left jsonPatterns].
    set (weaken := fun p q (Hpq : (p <= q)%Z) l
                     (H : Forall (fun y : candidate => (priority y <= p)%Z) l) =>
                     Forall_impl _ _ l H (fun y (Hy : (priority y <= p)%Z) =>
                                            Z.le_trans _ _ _ Hy Hpq)).
    destruct (collect_sorted (maxBlocks o) (fun _ => true) 1
                (all_matches no_flags Patterns.jsonBlockPattern text) [])
      as [S1 L1]; [constructor|constructor|].
    destruct (collect_sorted (maxBlocks o) json_shaped 2
                (all_matches no_flags Patterns.codeBlockPattern text) _ S1
                (weaken 1%Z 2%Z ltac:(lia) _ L1)) as [S2 L2].
    destruct (collect_sorted (maxBlocks o) json_shaped 3
                (all_matches no_flags Patterns.inlinePattern text) _ S2
                (weaken 2%Z 3%Z ltac:(lia) _ L2)) as [S3 L3].
    destruct (collect_sorted (maxBlocks o) (fun c => (10 <? length c)%nat) 4
                (all_matches no_flags Patterns.objectPattern text) _ S3
                (weaken 3%Z 4%Z ltac:(lia) _ L3)) as [S4 L4].
    by destruct (collect_sorted (maxBlocks o) (fun c => (10 <? length c)%nat) 4
                   (all_matches no_flags Patterns.arrayPattern text) _ S4 L4). }
  unfold extract_results.
  destruct (preferFirst opts), (preferFirst opts'); rewrite ?Hsorted, ?Hmax; done.
Qed.

Lemma recovered_same opts opts' s :
  same_but_preferFirst opts opts' -> recovered opts s = recovered opts' s.
Proof.
  intros (Hfix & _ & Hpartial). unfold recovered, parse_sources.
  by rewrite Hfix, Hpartial.
Qed.

Lemma unwrapped_same opts opts' n :
  same_but_preferFirst opts opts' ->
  forall v, unwrapped opts n v = unwrapped opts' n v.
Proof.
  intros Hsame. induction n as [|n IH]; intros v; [done|].
  cbn [unwrapped]. destruct (inspect_json v) as [| |s|r|]; try done.
  rewrite (recovered_same opts opts' s) by done.
  by destruct (recovered opts' s).
Qed.

Lemma first_recovered_same opts opts' l :
  same_but_preferFirst opts opts' ->
  first_recovered opts l = first_recovered opts' l.
Proof.
  intros Hsame. induction l as [|c l IH]; [done|]. simpl.
  by rewrite (recovered_same opts opts' c), IH.
Qed.

Lemma outcome_same opts opts' text :
  same_but_preferFirst opts opts' -> outcome opts text = outcome opts' text.
Proof.
  intros Hsame. unfold outcome, aggressive_recovered, sortedCandidates, extractJson.
  rewrite (extract_results_same opts opts') by done.
  rewrite (first_recovered_same opts opts') by done.
  rewrite (recovered_same opts opts' text) by done.
  destruct Hsame as (Hfix & Hmax & Hpartial). rewrite Hfix, Hpartial.
  assert (Hsame : same_but_preferFirst opts opts') by done.
  destruct (fast_block text); [done|].
  destruct (recovered opts' text); [by rewrite (unwrapped_same opts opts')|].
  destruct (first_recovered opts' _); [by rewrite (unwrapped_same opts opts')|].
  destruct (attemptFix opts'); [|done].
  destruct (findJsonBoundaries _ _) as [span|]; [|done].
  destruct (nonempty span); [|done].
  rewrite (recovered_same opts opts' span) by done.
  destruct (recovered opts' span); [by rewrite (unwrapped_same opts opts')|done].
Qed.

(** X20.  The option [preferFirst] has no effect: the extractor finds its
    candidates class by class, so the sort by priority it requests leaves
    them as they are, and the engine returns the same value whatever the
    option is. *)
Theorem preferFirst_has_no_effect (response : js_arg) (o : options_object)
    (b : option bool) :
  parseLLMJson response (OptionsObject (set_preferFirst b o))
  = parseLLMJson response (OptionsObject o)
  /\ forall text,
       extractJson (normalize_options (OptionsObject (set_preferFirst b o))) text
       = extractJson (normalize_options (OptionsObject o)) text.
Proof.
  set (opts := normalize_options (OptionsObject (set_preferFirst b o))).
  set (opts' := normalize_options (OptionsObject o)).
  assert (Hsame : same_but_preferFirst opts opts') by done.
  split.
  - unfold parseLLMJson, parseLLMJson_staged. fold opts opts'.
    destruct (normalize_input response) as [text|]; [|done].
    destruct (is_blank text); [done|].
    destruct (yields_pipeline opts text ∅ (cache_consistent_empty _)) as (c1 & -> & _).
    destruct (yields_pipeline opts' text ∅ (cache_consistent_empty _)) as (c2 & -> & _).
    cbn [fst]. by rewrite (outcome_same opts opts').
  - intros text. unfold extractJson. by rewrite (extract_results_same opts opts').
Qed.

(** * The agent route *)

(** X21.  The route answers with the response it was given or with an
    object or an array: it never puts another primitive in its place; a
    response that is not a string, and a string of which the clean-up
    leaves nothing, are passed on as they are. *)
Theorem route_keeps_or_object (data_response : json) :
  (Route.parsedResponse data_response = data_response
   \/ Route.is_object (Route.parsedResponse data_response) = true)
  /\ ((forall s, data_response <> JString s) ->
      Route.parsedResponse data_response = data_response)
  /\ (forall s, data_response = JString s -> Route.clean s = [] ->
      Route.parsedResponse data_response = data_response).
Proof.
  split; [|split].
  - destruct data_response as [| | |response| |]; try by left.
    unfold Route.parsedResponse, Route.parse_string. cbv zeta.
    generalize (Route.clean response). intros cleaned.
    destruct (JSON_parse cleaned) as [directParse|_].
    { destruct (Route.is_object directParse) eqn:Hd; [by right|by left]. }
    destruct (parseLLMJson (ArgString cleaned) Route.advanced_options)
      as [parsed|_]; [|by left].
    destruct (Route.is_object parsed) eqn:Hp; [by right|].
    destruct (first_match no_flags Route.json_anywhere cleaned) as [jsonMatch|];
      [|by left].
    generalize (m_text jsonMatch). intros part.
    destruct (JSON_parse part) as [extracted|_].
    { destruct (Route.is_object extracted) eqn:He; [by right|by left]. }
    destruct (parseLLMJson (ArgString part) (only_attemptFix true))
      as [lastResort|_]; [|by left].
    destruct (Route.is_object lastResort) eqn:Hl; [by right|by left].
  - intros Hs. destruct data_response; try done. by destruct (Hs s).
  - intros s -> Hclean. unfold Route.parsedResponse, Route.parse_string. cbv zeta.
    rewrite Hclean. reflexivity.
Qed.

Lemma route_keeps_or_object_witness :
  Route.parsedResponse (JNumber 5 0) = JNumber 5 0
  /\ Route.parsedResponse (JString (js "```")) = JString (js "```").
Proof.
  split.
  - apply (proj1 (proj2 (route_keeps_or_object (JNumber 5 0)))). intros s. discriminate.
  - apply (proj2 (proj2 (route_keeps_or_object (JString (js "```")))) (js "```")).
    + reflexivity.
    + vm_compute. reflexivity.
Defined.

Lemma clean_plain (response : jsstring) :
  existsb (fun c => (c =? 92)%N || (c =? 96)%N) response = false ->
  Route.clean response = trim response.
Proof.
  intros Hno.
  assert (H92 : existsb (fun c => (c =? 92)%N) response = false).
  { apply not_true_is_false. intros (x & Hin & Hx)%existsb_exists.
    apply not_true_iff_false in Hno. apply Hno, existsb_exists.
    exists x. by rewrite Hx. }
  assert (H96 : existsb (fun c => (c =? 96)%N) response = false).
  { apply not_true_is_false. intros (x & Hin & Hx)%existsb_exists.
    apply not_true_iff_false in Hno. apply Hno, existsb_exists.
    exists x. rewrite Hx. by rewrite orb_true_r. }
  unfold Route.clean. cbv zeta.
  rewrite (replace_all_needs no_flags (fun c => (c =? 92)%N) Route.escaped_n)
    by (done || by apply char_eq_exact).
  rewrite (replace_all_needs no_flags (fun c => (c =? 92)%N) Route.escaped_r)
    by (done || by apply char_eq_exact).
  rewrite (replace_all_needs no_flags (fun c => (c =? 92)%N) Route.escaped_t)
    by (done || by apply char_eq_exact).
  rewrite (replace_all_needs flag_m (fun c => (c =? 96)%N) Route.fence_open)
    by (done || by apply char_eq_exact).
  rewrite (replace_all_needs flag_m (fun c => (c =? 96)%N) Route.fence_close)
    by (done || by apply char_eq_exact).
  done.
Qed.

(** X22.  A response that is the strictly valid JSON text of an object or
    an array, and holds no backslash and no backquote, is answered with its
    parse. *)
Theorem route_parses_plain_json (response : jsstring) (v : json) :
  existsb (fun c => (c =? 92)%N || (c =? 96)%N) response = false ->
  JSON_parse response = Normal v ->
  Route.is_object v = true ->
  Route.parsedResponse (JString response) = v.
Proof.
  intros Hno Hparse Hobj.
  unfold Route.parsedResponse, Route.parse_string. cbv zeta.
  rewrite (clean_plain response Hno).
  unfold JSON_parse in *.
  destruct (Json.parse response) as [w|] eqn:Hp; [|done].
  injection Hparse as ->. rewrite (parse_trim _ _ Hp). by rewrite Hobj.
Qed.

Lemma route_parses_plain_json_witness :
  Route.parsedResponse (JString envelope_text) = envelope_value.
Proof.
  apply (route_parses_plain_json envelope_text envelope_value);
    vm_compute; reflexivity.
Defined.

Lemma clean_trimmed response : trim (Route.clean response) = Route.clean response.
Proof. unfold Route.clean. cbv zeta. apply trim_idempotent. Qed.

Lemma staged_value response options st v :
  parseLLMJson_staged response options = Normal (st, v) ->
  parseLLMJson response options = Normal v.
Proof. unfold parseLLMJson. by intros ->. Qed.

(** X23.  When the engine finds nothing in the cleaned text, the route
    answers with the failure record of the engine, which is an object, and
    not with the text it was given: the extraction by pattern and the last
    resort of the route are not reached then. *)
Theorem route_answers_failure_record (response : jsstring) :
  parseLLMJson_staged (ArgString (Route.clean response)) Route.advanced_options
    = Normal (TotalFailure, failure_record) ->
  Route.parsedResponse (JString response) = failure_record
  /\ failure_record <> JString response.
Proof.
  intros Hfail. split; [|done].
  pose proof (total_failure_direct _ _ Hfail) as Hdirect.
  rewrite clean_trimmed in Hdirect.
  unfold Route.parsedResponse, Route.parse_string. cbv zeta.
  rewrite Hdirect. by rewrite (staged_value _ _ _ _ Hfail).
Qed.

Lemma route_answers_failure_record_witness :
  (Route.parsedResponse (JString prose_reply) = failure_record
   /\ failure_record <> JString prose_reply)
  /\ (Route.parsedResponse (JString escaped_newline_reply) = failure_record
      /\ failure_record <> JString escaped_newline_reply).
Proof.
  split.
  - apply (route_answers_failure_record prose_reply). vm_compute. reflexivity.
  - apply (route_answers_failure_record escaped_newline_reply). vm_compute. reflexivity.
Defined.

(** ** A fenced reply *)

Lemma star_greedy (p : N -> bool) body ws : forall rest bef cs k fuel res,
  (forall bef c aft cs k, p c = true ->
     body (MState bef (c :: aft) cs) k = k (MState (c :: bef) aft cs)) ->
  (forall bef aft cs k, match aft with [] => True | x :: _ => p x = false end ->
     body (MState bef aft cs) k = None) ->
  forallb p ws = true ->
  match rest with [] => True | x :: _ => p x = false end ->
  (length ws < fuel)%nat ->
  k (MState (rev ws ++ bef) rest cs) = Some res ->
  star_loop body true fuel (MState bef (ws ++ rest) cs) k = Some res.
Proof.
  intros rest bef cs k fuel res Hyes Hno. revert bef fuel.
  induction ws as [|c ws IH]; intros bef fuel Hws Hrest Hfuel Hk.
  - destruct fuel as [|fuel]; [simpl in Hfuel; lia|].
    cbn [star_loop app]. rewrite Hno by done. exact Hk.
  - destruct fuel as [|fuel]; [simpl in Hfuel; lia|].
    simpl in Hws. apply andb_true_iff in Hws as [Hc Hws].
    cbn [star_loop]. change ((c :: ws) ++ rest) with (c :: ws ++ rest).
    rewrite Hyes by done. cbn [after length].
    destruct (Nat.ltb_spec (length (ws ++ rest)) (S (length (ws ++ rest)))) as [_|]; [|lia].
    rewrite IH; try done.
    + simpl in Hfuel. lia.
    + simpl in Hk. by rewrite <- app_assoc in Hk.
Qed.

Lemma step_space_yes fl bef c aft cs k :
  is_space c = true ->
  run fl Space (MState bef (c :: aft) cs) k = k (MState (c :: bef) aft cs).
Proof.
  intros Hc. unfold Space. cbn [run]. unfold step_char, class_matches. simpl.
  by rewrite Hc.
Qed.

Lemma step_space_no fl bef aft cs k :
  match aft with [] => True | x :: _ => is_space x = false end ->
  run fl Space (MState bef aft cs) k = None.
Proof.
  intros Hx. unfold Space. cbn [run]. unfold step_char, class_matches. simpl.
  destruct aft as [|x aft]; [done|]. by rewrite Hx.
Qed.

Lemma fence_open_skip x bef aft cs k :
  x <> 96%N -> run flag_m Route.fence_open (MState bef (x :: aft) cs) k = None.
Proof.
  intros Hx. unfold Route.fence_open.
  change (js "```") with [96; 96; 96]%N. cbn [cat fold_right lit map run].
  destruct (at_bol flag_m _); [|done].
  unfold step_char. cbn [after]. unfold char_eq. cbn [ignoreCase flag_m].
  by destruct (N.eqb_spec 96 x).
Qed.

Lemma fence_open_search u : forall bef rest,
  existsb (fun c => (c =? 96)%N) u = false ->
  rest <> [] ->
  search flag_m Route.fence_open bef (u ++ rest)
  = search flag_m Route.fence_open (rev u ++ bef) rest.
Proof.
  induction u as [|x u IH]; intros bef rest Hu Hrest; [done|].
  simpl in Hu. apply orb_false_iff in Hu as [Hx Hu].
  change ((x :: u) ++ rest) with (x :: u ++ rest). cbn [search].
  rewrite fence_open_skip by (by apply N.eqb_neq).
  rewrite IH by done. simpl. by rewrite <- app_assoc.
Qed.

Lemma fence_open_first ws b0 tail :
  forallb is_space ws = true -> is_space b0 = false ->
  run flag_m Route.fence_open
    (MState [] ([96; 96; 96; 106; 115; 111; 110; 10]%N ++ ws ++ b0 :: tail) []) Some
  = Some (MState (rev ws ++ [10; 110; 111; 115; 106; 96; 96; 96]%N) (b0 :: tail) []).
Proof.
  intros Hws Hb0. unfold Route.fence_open, Opt.
  change (js "```") with [96; 96; 96]%N.
  change (js "json") with [106; 115; 111; 110]%N.
  cbn [cat fold_right lit map run app at_bol before].
  unfold step_char. cbn [after before caps]. unfold char_eq.
  cbn [ignoreCase flag_m N.eqb Pos.eqb].
  change (10%N :: ws ++ b0 :: tail) with ((10%N :: ws) ++ b0 :: tail).
  assert (Hstar : forall fuel k,
    (S (length ws) < fuel)%nat ->
    k (MState (rev ws ++ [10; 110; 111; 115; 106; 96; 96; 96]%N) (b0 :: tail) [])
      = Some (MState (rev ws ++ [10; 110; 111; 115; 106; 96; 96; 96]%N) (b0 :: tail) []) ->
    star_loop (run flag_m Space) true fuel
      (MState [110; 111; 115; 106; 96; 96; 96]%N ((10%N :: ws) ++ b0 :: tail) []) k
    = Some (MState (rev ws ++ [10; 110; 111; 115; 106; 96; 96; 96]%N) (b0 :: tail) [])).
  { intros fuel k Hfuel Hk. apply (star_greedy is_space).
    - intros. by apply step_space_yes.
    - intros. by apply step_space_no.
    - simpl. by rewrite Hws.
    - exact Hb0.
    - simpl. lia.
    - cbn [rev]. by rewrite <- !app_assoc. }
  rewrite Hstar; [done| |].
  - simpl. rewrite length_app. simpl. lia.
  - cbn [after before caps].
    by destruct (N.eqb_spec c_nl b0) as [<-|_].
Qed.

Lemma fence_open_last bef :
  run flag_m Route.fence_open (MState (10%N :: bef) [96; 96; 96]%N []) Some
  = Some (MState (96 :: 96 :: 96 :: 10 :: bef)%N [] []).
Proof. reflexivity. Qed.

Lemma fence_open_end bef :
  run flag_m Route.fence_open (MState (96%N :: bef) [] []) Some = None.
Proof. reflexivity. Qed.

Lemma take_app_sub {A} (u rest : list A) :
  take (length (u ++ rest) - length rest) (u ++ rest) = u.
Proof.
  rewrite length_app.
  replace (length u + length rest - length rest)%nat with (length u) by lia.
  by rewrite take_app_length.
Qed.

Lemma exec_from_match fl r f pending bef aft b' aft' st' x t :
  search fl r bef aft = Some (b', aft', st') ->
  take (length aft' - length (after st')) aft' = x :: t ->
  exec_from fl r (S f) pending bef aft
  = (let '(ms, tl) := exec_from fl r f [] (before st') (after st') in
     (RMatch (pending ++ take (length aft - length aft') aft) (x :: t) (caps st') :: ms, tl)).
Proof. intros Hs Ht. cbn [exec_from]. by rewrite Hs, Ht. Qed.

Lemma exec_from_none fl r f pending bef aft :
  search fl r bef aft = None ->
  exec_from fl r (S f) pending bef aft = ([], pending ++ aft).
Proof. intros Hs. cbn [exec_from]. by rewrite Hs. Qed.

Lemma fence_open_strips ws b0 body1 :
  forallb is_space ws = true -> is_space b0 = false ->
  existsb (fun c => (c =? 96)%N) (b0 :: body1) = false ->
  replace_all flag_m Route.fence_open []
    ([96; 96; 96; 106; 115; 111; 110; 10]%N ++ ws ++ (b0 :: body1) ++ [10; 96; 96; 96]%N)
  = (b0 :: body1) ++ [10%N].
Proof.
  intros Hws Hb0 Hno.
  unfold replace_all, exec_all.
  set (u := (b0 :: body1) ++ [10%N]).
  assert (Htail : (b0 :: body1) ++ [10; 96; 96; 96]%N = u ++ [96; 96; 96]%N).
  { unfold u. by rewrite <- app_assoc. }
  rewrite Htail.
  assert (Hu : existsb (fun c => (c =? 96)%N) u = false).
  { unfold u. rewrite existsb_app, Hno. done. }
  assert (Hhd : u ++ [96; 96; 96]%N = b0 :: (body1 ++ [10%N]) ++ [96; 96; 96]%N) by done.
  set (F := [96; 96; 96; 106; 115; 111; 110; 10]%N).
  set (bef1 := rev ws ++ [10; 110; 111; 115; 106; 96; 96; 96]%N).
  assert (Hs1 : search flag_m Route.fence_open [] (F ++ ws ++ u ++ [96; 96; 96]%N)
                = Some ([], F ++ ws ++ u ++ [96; 96; 96]%N,
                        MState bef1 (u ++ [96; 96; 96]%N) [])).
  { rewrite Hhd. unfold F at 1. cbn [app search].
    change (96 :: 96 :: 96 :: 106 :: 115 :: 111 :: 110 :: 10
              :: ws ++ b0 :: (body1 ++ [10]) ++ [96; 96; 96])%N
      with (F ++ ws ++ b0 :: (body1 ++ [10%N]) ++ [96; 96; 96]%N).
    unfold F at 1. by rewrite fence_open_first. }
  assert (Hs2 : search flag_m Route.fence_open bef1 (u ++ [96; 96; 96]%N)
                = Some (rev u ++ bef1, [96; 96; 96]%N,
                        MState (96 :: 96 :: 96 :: rev u ++ bef1)%N [] [])).
  { rewrite fence_open_search by done.
    unfold u at 1. rewrite rev_app_distr. cbn [rev app search].
    rewrite fence_open_last. unfold u. by rewrite rev_app_distr. }
  assert (Hs3 : forall bef, search flag_m Route.fence_open (96%N :: bef) [] = None).
  { intros bef. cbn [search]. by rewrite fence_open_end. }
  assert (Hfuel : exists f, S (S (length (F ++ ws ++ u ++ [96; 96; 96]%N))) = S (S (S f))).
  { rewrite length_app. simpl. by eexists. }
  destruct Hfuel as [f ->].
  rewrite (exec_from_match _ _ _ _ _ _ _ _ _ 96%N ([96; 96; 106; 115; 111; 110; 10]%N ++ ws) Hs1).
  2:{ cbn [after]. rewrite app_assoc. rewrite take_app_sub. done. }
  cbn [before after caps].
  rewrite (exec_from_match _ _ _ _ _ _ _ _ _ 96%N [96; 96]%N Hs2) by done.
  cbn [before after caps].
  rewrite exec_from_none by apply Hs3.
  cbn [concat map m_skipped expand app].
  rewrite Nat.sub_diag. cbn [take]. rewrite take_app_sub.
  by rewrite !app_nil_r.
Qed.

Lemma trimEnd_snoc_space s x : is_space x = true -> trimEnd (s ++ [x]) = trimEnd s.
Proof. intros Hx. unfold trimEnd. rewrite rev_app_distr. simpl. by rewrite Hx. Qed.

(** X24.  A fenced block labeled json whose body is the strictly valid
    JSON text of an object or an array, and holds no backslash and no
    backquote, is answered with the parse of the body. *)
Theorem route_unwraps_fenced_json (body : jsstring) (v : json) :
  existsb (fun c => (c =? 92)%N || (c =? 96)%N) body = false ->
  JSON_parse body = Normal v ->
  Route.is_object v = true ->
  Route.parsedResponse (JString (js "```json" ++ nl ++ body ++ nl ++ js "```")) = v.
Proof.
  intros Hno Hparse Hobj.
  unfold JSON_parse in Hparse.
  destruct (Json.parse body) as [w|] eqn:Hp; [|done]. injection Hparse as ->.
  assert (H92 : existsb (fun c => (c =? 92)%N) body = false).
  { eapply existsb_weaken; [|exact Hno]. intros x Hx. cbv beta. by rewrite Hx. }
  assert (H96 : existsb (fun c => (c =? 96)%N) body = false).
  { eapply existsb_weaken; [|exact Hno]. intros x Hx. cbv beta.
    rewrite Hx. by rewrite orb_true_r. }
  destruct (trimStart_split body) as (ws & Hbody & Hws).
  pose proof (trimStart_head body) as Hhd.
  pose proof (parse_not_blank _ _ Hp) as Hblank.
  destruct (trimStart body) as [|b0 body1] eqn:Hts.
  { unfold is_blank, trim in Hblank. rewrite Hts in Hblank.
    by destruct body. }
  assert (Hclean : Route.clean (js "```json" ++ nl ++ body ++ nl ++ js "```") = trim body).
  { unfold Route.clean. cbv zeta.
    assert (Hall : existsb (fun c => (c =? 92)%N)
                     (js "```json" ++ nl ++ body ++ nl ++ js "```") = false).
    { rewrite !existsb_app, H92. done. }
    rewrite (replace_all_needs no_flags (fun c => (c =? 92)%N) Route.escaped_n)
      by (done || by apply char_eq_exact).
    rewrite (replace_all_needs no_flags (fun c => (c =? 92)%N) Route.escaped_r)
      by (done || by apply char_eq_exact).
    rewrite (replace_all_needs no_flags (fun c => (c =? 92)%N) Route.escaped_t)
      by (done || by apply char_eq_exact).
    assert (Hb : existsb (fun c => (c =? 96)%N) (b0 :: body1) = false).
    { rewrite Hbody, existsb_app in H96. by apply orb_false_iff in H96 as [_ ?]. }
    replace (js "```json" ++ nl ++ body ++ nl ++ js "```")
      with ([96; 96; 96; 106; 115; 111; 110; 10]%N ++ ws ++ (b0 :: body1)
              ++ [10; 96; 96; 96]%N)
      by (rewrite Hbody; by rewrite <- !app_assoc).
    rewrite fence_open_strips by done.
    rewrite (replace_all_needs flag_m (fun c => (c =? 96)%N) Route.fence_close);
      [|by apply char_eq_exact|done|by rewrite existsb_app, Hb].
    unfold trim. rewrite Hts.
    rewrite (trimStart_fixed ((b0 :: body1) ++ [10%N])) by done.
    by rewrite trimEnd_snoc_space. }
  unfold Route.parsedResponse, Route.parse_string. cbv zeta.
  rewrite Hclean. unfold JSON_parse. rewrite (parse_trim _ _ Hp). by rewrite Hobj.
Qed.

Lemma route_unwraps_fenced_json_witness :
  Route.parsedResponse (JString (js "```json" ++ nl ++ envelope_text ++ nl ++ js "```"))
  = envelope_value.
Proof.
  apply (route_unwraps_fenced_json envelope_text envelope_value);
    vm_compute; reflexivity.
Defined.

(** * The client helpers *)

Lemma toString16_digit v : (v < 16)%N -> Agent.toString16 v = [Agent.hex_digit v].
Proof.
  intros Hv. unfold Agent.toString16. cbn [Agent.toString16_from].
  rewrite N.mod_small by done. rewrite N.div_small by done. done.
Qed.

Lemma hex_digit_hex v : (v < 16)%N -> is_hex (Agent.hex_digit v) = true.
Proof.
  intros Hv. unfold Agent.hex_digit, is_hex, in_range.
  destruct (N.ltb_spec v 10).
  - apply orb_true_iff. left. apply andb_true_iff. split; apply N.leb_le; lia.
  - apply orb_true_iff. right. apply andb_true_iff. split; apply N.leb_le; lia.
Qed.

Lemma variant_digit r :
  (r < 16)%N ->
  let c := Agent.hex_digit (N.lor (N.land r 3) 8) in
  (N.lor (N.land r 3) 8 < 16)%N
  /\ ((c =? 56)%N || (c =? 57)%N || (c =? 97)%N || (c =? 98)%N) = true.
Proof.
  intros Hr.
  assert (Hcases : (r = 0 \/ r = 1 \/ r = 2 \/ r = 3 \/ r = 4 \/ r = 5 \/ r = 6 \/ r = 7
                   \/ r = 8 \/ r = 9 \/ r = 10 \/ r = 11 \/ r = 12 \/ r = 13 \/ r = 14
                   \/ r = 15)%N) by lia.
  repeat (destruct Hcases as [->|Hcases]; [vm_compute; done|]). subst. vm_compute. done.
Qed.

(** X25.  Whatever the random draws are, [generateUUID] returns a string of
    the shape of a version-4 UUID. *)
Theorem generateUUID_is_v4 (random : nat -> N) :
  (forall i, (random i < 16)%N) ->
  uuid_v4 (Agent.generateUUID random) = true.
Proof.
  intros Hr. unfold Agent.generateUUID, Agent.replace_all_with.
  assert (Hex : exec_all no_flags Agent.xy Agent.uuid_template
                = (fst (exec_all no_flags Agent.xy Agent.uuid_template),
                   snd (exec_all no_flags Agent.xy Agent.uuid_template)))
    by apply surjective_pairing.
  rewrite Hex. clear Hex.
  set (ms := fst _). set (tl := snd _).
  vm_compute in ms. vm_compute in tl. subst ms tl.
  cbn [imap concat app m_skipped m_text fmap compose].
  change (js "x") with [120%N].
  rewrite !bool_decide_eq_true_2 by done.
  rewrite bool_decide_eq_false_2 by done.
  pose proof (variant_digit (random 15) (Hr 15%nat)) as [Hv Hy]. cbv zeta in Hy.
  rewrite !toString16_digit by (apply Hr || exact Hv).
  cbn [app]. unfold uuid_v4. cbn [length Nat.eqb andb uuid_chars uuid_char orb].
  rewrite !hex_digit_hex by apply Hr. by rewrite Hy.
Qed.

Lemma generateUUID_is_v4_witness :
  uuid_v4 (Agent.generateUUID (fun i => N.of_nat (i mod 16))) = true.
Proof.
  apply (generateUUID_is_v4 (fun i => N.of_nat (i mod 16))).
  intros i. pose proof (Nat.mod_upper_bound i 16). lia.
Defined.

Lemma split_from_no_sep sep s : forall cur,
  existsb (fun c => (c =? sep)%N) cur = false ->
  Forall (fun l => existsb (fun c => (c =? sep)%N) l = false) (Agent.split_from sep s cur).
Proof.
  induction s as [|c s IH]; intros cur Hcur; simpl.
  - repeat constructor. apply not_true_is_false.
    intros (x & Hin%in_rev & Hx)%existsb_exists.
    apply not_true_iff_false in Hcur. apply Hcur, existsb_exists. by exists x.
  - destruct (c =? sep)%N eqn:Hc.
    + constructor; [|by apply IH].
      apply not_true_is_false.
      intros (x & Hin%in_rev & Hx)%existsb_exists.
      apply not_true_iff_false in Hcur. apply Hcur, existsb_exists. by exists x.
    + apply IH. simpl. by rewrite Hc.
Qed.

Lemma split_from_nonempty sep s : forall cur, Agent.split_from sep s cur <> [].
Proof.
  induction s as [|c s IH]; intros cur; simpl; [done|].
  destruct (c =? sep)%N; [done|apply IH].
Qed.

Lemma join_split_from sep s : forall cur,
  join sep (Agent.split_from sep s cur) = rev cur ++ s.
Proof.
  induction s as [|c s IH]; intros cur; simpl.
  - by rewrite app_nil_r.
  - destruct (c =? sep)%N eqn:Hc.
    + apply N.eqb_eq in Hc. subst c.
      pose proof (split_from_nonempty sep s []) as Hne.
      pose proof (IH []) as Hj. simpl in Hj.
      destruct (Agent.split_from sep s []) as [|l ls]; [done|].
      change (rev cur ++ sep :: join sep (l :: ls) = rev cur ++ sep :: s).
      by rewrite Hj.
    + rewrite IH. simpl. by rewrite <- app_assoc.
Qed.

Lemma split_lines text : lines_of text (Agent.split c_nl text).
Proof.
  unfold lines_of, Agent.split. split; [apply split_from_nonempty|].
  split; [by apply split_from_no_sep|].
  by rewrite join_split_from.
Qed.

(** A text has one list of lines. *)
Lemma first_newline (a b u v : jsstring) :
  existsb (fun c => (c =? c_nl)%N) a = false ->
  existsb (fun c => (c =? c_nl)%N) b = false ->
  a ++ c_nl :: u = b ++ c_nl :: v -> a = b /\ u = v.
Proof.
  revert b. induction a as [|x a IH]; intros [|y b]; simpl; intros Ha Hb Heq.
  - by injection Heq as <-.
  - injection Heq as <- _. by rewrite N.eqb_refl in Hb.
  - injection Heq as -> _. by rewrite N.eqb_refl in Ha.
  - injection Heq as <- Heq.
    apply orb_false_iff in Ha as [_ Ha]. apply orb_false_iff in Hb as [_ Hb].
    destruct (IH b Ha Hb Heq) as [-> ->]. done.
Qed.

Lemma lines_of_unique text l1 l2 : lines_of text l1 -> lines_of text l2 -> l1 = l2.
Proof.
  intros (Hne1 & Hall1 & Hj1) (Hne2 & Hall2 & Hj2). subst text.
  revert l2 Hne2 Hall2 Hj2.
  induction l1 as [|a r1 IH]; [done|]. intros [|b r2]; [done|].
  intros _ Hall2 Hj. inversion Hall1 as [|? ? Ha Hr1]; subst.
  inversion Hall2 as [|? ? Hb Hr2]; subst.
  cbn [join] in Hj.
  destruct r1 as [|a' r1], r2 as [|b' r2].
  - by subst.
  - subst a. rewrite existsb_app in Ha.
    apply orb_false_iff in Ha as [_ Ha]. cbn [existsb] in Ha.
    by rewrite N.eqb_refl in Ha.
  - subst b. rewrite existsb_app in Hb.
    apply orb_false_iff in Hb as [_ Hb]. cbn [existsb] in Hb.
    by rewrite N.eqb_refl in Hb.
  - symmetry in Hj. destruct (first_newline a b _ _ Ha Hb Hj) as [-> Hrest].
    f_equal. apply IH; done.
Qed.

Lemma getSuggestions_of_text result text :
  Agent.response_text [] result = Some (JString text) ->
  suggestions_from text result.
Proof.
  intros Htext. exists (Agent.split c_nl text). split; [apply split_lines|].
  unfold Agent.getSuggestions. rewrite Htext. f_equal.
  apply list_filter_iff. intros line. rewrite Nat.ltb_lt.
  destruct (trim line); simpl; split; (done || lia).
Qed.

(** X26.  [getSuggestions] splits a text into its lines and returns those
    that are not blank, in their order.  For a successful call the text is
    the response when that is a string that is not empty, and for a
    response that is an object its message when that is such a string or,
    when the message is missing or falsy, its response property when that
    is such a string.  The lines of a text are determined by it.  The
    function returns no line when the call did not succeed or the response
    is missing or falsy, and it throws a TypeError when the response is an
    object whose message is truthy and not a string. *)
Theorem getSuggestions_lines (result : Agent.AIAgentResponse) :
  (forall c s,
     Agent.r_success result = true ->
     Agent.r_response result = Some (JString (c :: s)) ->
     suggestions_from (c :: s) result)
  /\ (forall fields c s,
        Agent.r_success result = true ->
        Agent.r_response result = Some (JObject fields) ->
        obj_get fields (js "message") = Some (JString (c :: s)) ->
        suggestions_from (c :: s) result)
  /\ (forall fields c s,
        Agent.r_success result = true ->
        Agent.r_response result = Some (JObject fields) ->
        match obj_get fields (js "message") with
        | Some m => truthy m = false
        | None => True
        end ->
        obj_get fields (js "response") = Some (JString (c :: s)) ->
        suggestions_from (c :: s) result)
  /\ (forall text l1 l2, lines_of text l1 -> lines_of text l2 -> l1 = l2)
  /\ (Agent.r_success result = false
      \/ Agent.r_response result = None
      \/ (exists v, Agent.r_response result = Some v /\ truthy v = false) ->
      Agent.getSuggestions result = Normal [])
  /\ (forall fields m,
        Agent.r_success result = true ->
        Agent.r_response result = Some (JObject fields) ->
        obj_get fields (js "message") = Some m ->
        truthy m = true ->
        (forall s, m <> JString s) ->
        Agent.getSuggestions result = Throw TypeError).
Proof.
  split; [|split; [|split; [|split; [|split]]]].
  - intros c s Hs Hr. apply getSuggestions_of_text.
    unfold Agent.response_text. by rewrite Hr, Hs.
  - intros fields c s Hs Hr Hm. apply getSuggestions_of_text.
    unfold Agent.response_text. rewrite Hr, Hs. cbn [truthy andb].
    unfold Agent.truthy_property, Agent.property. by rewrite Hm.
  - intros fields c s Hs Hr Hm Hresp. apply getSuggestions_of_text.
    unfold Agent.response_text. rewrite Hr, Hs. cbn [truthy andb].
    unfold Agent.truthy_property, Agent.property. rewrite Hresp.
    destruct (obj_get fields (js "message")) as [m|]; [by rewrite Hm|done].
  - apply lines_of_unique.
  - unfold Agent.getSuggestions, Agent.response_text. intros [Hs|[Hr|(v & Hr & Hv)]].
    + rewrite Hs. by destruct (Agent.r_response result).
    + by rewrite Hr.
    + rewrite Hr, Hv. by rewrite andb_false_r.
  - intros fields m Hs Hr Hm Ht Hnot.
    unfold Agent.getSuggestions, Agent.response_text.
    rewrite Hr, Hs. cbn [truthy andb].
    unfold Agent.truthy_property, Agent.property. rewrite Hm, Ht.
    destruct m; try done. by destruct (Hnot s).
Qed.

Lemma getSuggestions_lines_witness :
  suggestions_from (js "first" ++ nl ++ nl ++ js " second" ++ nl ++ js "  ")
    {| Agent.r_success := true;
       Agent.r_response :=
         Some (JString (js "first" ++ nl ++ nl ++ js " second" ++ nl ++ js "  ")) |}
  /\ Agent.getSuggestions
       {| Agent.r_success := true;
          Agent.r_response :=
            Some (JString (js "first" ++ nl ++ nl ++ js " second" ++ nl ++ js "  ")) |}
     = Normal [js "first"; js " second"]
  /\ Agent.getSuggestions
       {| Agent.r_success := true;
          Agent.r_response := Some (JObject [(js "message", JBool true)]) |}
     = Throw TypeError
  /\ Agent.getSuggestions
       {| Agent.r_success := true;
          Agent.r_response := Some (JObject [(js "message", JNumber 1 (-400))]) |}
     = Normal [].
Proof.
  split; [|split; [|split]].
  - apply (proj1 (getSuggestions_lines _) (ch "f")); reflexivity.
  - vm_compute. reflexivity.
  - apply (proj2 (proj2 (proj2 (proj2 (proj2 (getSuggestions_lines _)))))
             [(js "message", JBool true)] (JBool true)); done.
  - vm_compute. reflexivity.
Defined.
